(** * NeerVaani: schemas and view components

    A shallow embedding of the parts of the NeerVaani web client that carry
    its behaviour:

    - [src/ai/schemas/post-harvest-schemas.ts]: the zod schemas of the
      post-harvest flow;
    - the conversational chat component ([ConversationalAgent]);
    - [src/components/dashboard/current-crop-agent.tsx] ([CurrentCropAgent]);
    - [src/components/neerhub/market-analysis-card.tsx] ([MarketAnalysisTool]).

    JavaScript values are modelled by the type [json]; objects are finite maps
    from property names to values.  Event handlers are written in a small
    language of handler programs ([prog]) whose constructors are the effects
    the handlers perform: React state updates, toasts and console output,
    awaited calls of the flow clients, and the browser's audio elements.  The
    same handler text is given two readings: [run], which stops at an [await]
    and parks the continuation until the call resolves, and [exec], which runs
    a handler to completion against a given answer of the remote side. *)

From stdpp Require Import gmap strings list fin_maps.
From Stdlib Require Import ZArith Ascii.

#[local] Set Warnings "-register-all,-clear-no-such-hyp".
#[local] Open Scope string_scope.
#[local] Open Scope list_scope.

(** ** JavaScript strings *)

Module Js.

(** Strings are sequences of code units below 256.  [is_whitespace] is the
    set that [String.prototype.trim] strips (ECMAScript WhiteSpace and
    LineTerminator), restricted to that range: TAB, LF, VT, FF, CR, SP and
    NBSP. *)
Definition is_whitespace (c : ascii) : bool :=
  match nat_of_ascii c with
  | 9 | 10 | 11 | 12 | 13 | 32 | 160 => true
  | _ => false
  end.

Fixpoint trimStart (s : string) : string :=
  match s with
  | EmptyString => EmptyString
  | String c r => if is_whitespace c then trimStart r else s
  end.

Fixpoint trimEnd (s : string) : string :=
  match s with
  | EmptyString => EmptyString
  | String c r =>
      match trimEnd r with
      | EmptyString => if is_whitespace c then EmptyString else String c EmptyString
      | r' => String c r'
      end
  end.

(** [s.trim()] *)
Definition trim (s : string) : string := trimEnd (trimStart s).

(** Truthiness of a string: only the empty string is falsy. *)
Definition truthy (s : string) : bool :=
  match s with EmptyString => false | String _ _ => true end.

(** [s.split(' ')[0]]: the part of [s] before its first space. *)
Fixpoint first_word (s : string) : string :=
  match s with
  | EmptyString => EmptyString
  | String c r => if Ascii.eqb c " " then EmptyString else String c (first_word r)
  end.

(** [l.slice(0, -1)]: all elements but the last. *)
Definition slice_0_m1 {A} (l : list A) : list A := take (List.length l - 1) l.

End Js.

(** ** JavaScript values *)

Inductive json : Type :=
| JUndefined
| JNull
| JBool (b : bool)
| JNum (n : Z)
| JStr (s : string)
| JArr (l : list json)
| JObj (m : gmap string json).

(** [data[key]]: reading an absent property gives [undefined]. *)
Definition get (m : gmap string json) (k : string) : json :=
  default JUndefined (m !! k).

(** [key in data] *)
Definition has_key (m : gmap string json) (k : string) : bool :=
  match m !! k with Some _ => true | None => false end.

Definition is_undefined (v : json) : bool :=
  match v with JUndefined => true | _ => false end.

(** ** The zod combinators used by the schemas

    [z.string()], [z.string().min(n, message)], [.optional()] and
    [z.object({...})] (in its default mode, which drops unknown keys).
    [.describe(...)] only attaches documentation to a schema and is left out. *)

Module Zod.

Inductive check := Min (n : nat) (message : string).

Inductive schema :=
| ZString (checks : list check)
| ZOptional (inner : schema)
| ZObject (shape : list (string * schema)).

Definition z_string : schema := ZString [].

Record issue := Issue { code : string; path : list string; message : string }.

(** The outcome of [safeParse]: the parsed value, or the list of issues of a
    [ZodError].  There is no outcome that carries both. *)
Inductive result := Ok (v : json) | Err (issues : list issue).

(** zod's name of the type of a value, as used in its messages. *)
Definition parsedType (v : json) : string :=
  match v with
  | JUndefined => "undefined"
  | JNull => "null"
  | JBool _ => "boolean"
  | JNum _ => "number"
  | JStr _ => "string"
  | JArr _ => "array"
  | JObj _ => "object"
  end.

Definition invalid_type (p : list string) (expected : string) (v : json) : issue :=
  Issue "invalid_type" p
    (if is_undefined v then "Required"
     else "Expected " +:+ expected +:+ ", received " +:+ parsedType v).

Definition run_check (p : list string) (s : string) (c : check) : list issue :=
  match c with
  | Min n msg => if Nat.ltb (String.length s) n then [Issue "too_small" p msg] else []
  end.

(** [ParseStatus.mergeObjectSync]: the parsed properties are collected into
    the final object; a property is set when its parsed value is not
    [undefined] or when the key was present in the input. *)
Fixpoint mergeObjectSync (pairs : list (string * bool * result))
  : gmap string json * list issue :=
  match pairs with
  | [] => (∅, [])
  | (k, alwaysSet, r) :: rest =>
      let '(obj, iss) := mergeObjectSync rest in
      match r with
      | Ok x => (if is_undefined x && negb alwaysSet then obj else <[k := x]> obj, iss)
      | Err i => (obj, i ++ iss)
      end
  end.

Fixpoint parse (sc : schema) (p : list string) (v : json) : result :=
  match sc with
  | ZString checks =>
      match v with
      | JStr s =>
          match concat (map (run_check p s) checks) with
          | [] => Ok v
          | iss => Err iss
          end
      | _ => Err [invalid_type p "string" v]
      end
  | ZOptional inner =>
      match v with
      | JUndefined => Ok JUndefined
      | _ => parse inner p v
      end
  | ZObject shape =>
      match v with
      | JObj data =>
          let pairs :=
            (fix fields (sh : list (string * schema)) :=
               match sh with
               | [] => []
               | (k, s) :: rest =>
                   (k, has_key data k, parse s (p ++ [k]) (get data k)) :: fields rest
               end) shape in
          match mergeObjectSync pairs with
          | (obj, []) => Ok (JObj obj)
          | (_, iss) => Err iss
          end
      | _ => Err [invalid_type p "object" v]
      end
  end.

Definition safeParse (sc : schema) (v : json) : result := parse sc [] v.

End Zod.

(** ** [src/ai/schemas/post-harvest-schemas.ts] *)

Module Schemas.
Import Zod.

Definition CurrentCropContextSchema : schema :=
  ZObject [
    ("id", z_string);
    ("cropName", z_string);
    ("fieldSize", z_string);
    ("location", z_string);
    ("sowingDate", z_string);
    ("additionalInfo", ZOptional z_string)
  ].

Definition PostHarvestInputSchema : schema :=
  ZObject [
    ("cropContext", CurrentCropContextSchema);
    ("estimatedYield", ZOptional z_string);
    ("language", ZOptional z_string)
  ].

Definition PostHarvestOutputSchema : schema :=
  ZObject [
    ("storageRecommendations", z_string);
    ("transportationOptions", z_string);
    ("marketLinkages", z_string);
    ("valueAdditionOpportunities", z_string);
    ("pricingStrategy", z_string);
    ("qualityControlMeasures", z_string);
    ("postHarvestHandling", z_string);
    ("wasteManagement", z_string)
  ].

(** The five required properties of a crop context and the eight properties
    of the advice, in the order of the schemas. *)
Definition requiredCropFields : list string :=
  ["id"; "cropName"; "fieldSize"; "location"; "sowingDate"].

Definition adviceFields : list string :=
  ["storageRecommendations"; "transportationOptions"; "marketLinkages";
   "valueAdditionOpportunities"; "pricingStrategy"; "qualityControlMeasures";
   "postHarvestHandling"; "wasteManagement"].

(** [postHarvestYieldSchema] of [current-crop-agent.tsx]. *)
Definition postHarvestYieldSchema : schema :=
  ZObject [("yield", ZString [Min 1 "Please provide an estimated yield."])].

End Schemas.

(** ** Handler programs

    What a handler can throw, what it shows to the user or the console, and
    the language the handlers are written in. *)

Inductive exn :=
| ValidationError (issues : list Zod.issue)
| ResponseShapeError (issues : list Zod.issue)
| RemoteError (message : string)
| JsError (message : string).

Record toast_args := { variant : string; title : string; description : string }.

Module Async.

Section Prog.

(** [S]: the state of the component (its [useState] slots and form values);
    [C]: the calls it awaits; [R]: what such a call resolves to. *)
Context {S C R : Type}.

Inductive outcome := Resolved (r : R) | Rejected (e : exn).

(** What an observer sees of a run: toasts, [console.error] lines, the calls
    sent to the remote side, and errors that left a handler uncaught. *)
Inductive effect :=
| Toast (t : toast_args)
| ConsoleError (label : string) (e : exn)
| Remote (c : C)
| Unhandled (e : exn).

Inductive prog (A : Type) : Type :=
| Ret (a : A)
| Throw (e : exn)
| SetState (f : S → S) (k : prog A)
| Emit (e : effect) (k : prog A)
| Await (c : C) (k : outcome → prog A)
| NewAudio (src : string) (k : nat → prog A)
| SetHandlers (a : nat) (onplay onpause onended : S → S) (k : prog A)
| Play (a : nat) (k : prog A)
| Pause (a : nat) (k : prog A).

Arguments Ret {A} a.
Arguments Throw {A} e.
Arguments SetState {A} f k.
Arguments Emit {A} e k.
Arguments Await {A} c k.
Arguments NewAudio {A} src k.
Arguments SetHandlers {A} a onplay onpause onended k.
Arguments Play {A} a k.
Arguments Pause {A} a k.

Fixpoint bind {A B} (p : prog A) (q : A → prog B) : prog B :=
  match p with
  | Ret a => q a
  | Throw e => Throw e
  | SetState f k => SetState f (bind k q)
  | Emit e k => Emit e (bind k q)
  | Await c k => Await c (λ o, bind (k o) q)
  | NewAudio src k => NewAudio src (λ a, bind (k a) q)
  | SetHandlers a f g h k => SetHandlers a f g h (bind k q)
  | Play a k => Play a (bind k q)
  | Pause a k => Pause a (bind k q)
  end.

(** [try { p } catch (e) { h e }] *)
Fixpoint try_catch {A} (p : prog A) (h : exn → prog A) : prog A :=
  match p with
  | Ret a => Ret a
  | Throw e => h e
  | SetState f k => SetState f (try_catch k h)
  | Emit e k => Emit e (try_catch k h)
  | Await c k => Await c (λ o, try_catch (k o) h)
  | NewAudio src k => NewAudio src (λ a, try_catch (k a) h)
  | SetHandlers a f g h' k => SetHandlers a f g h' (try_catch k h)
  | Play a k => Play a (try_catch k h)
  | Pause a k => Pause a (try_catch k h)
  end.

(** [try { p } finally { fin }]: [fin] runs on both exits and the exit of [p]
    is kept. *)
Fixpoint try_finally {A} (p : prog A) (fin : prog unit) : prog A :=
  match p with
  | Ret a => bind fin (λ _, Ret a)
  | Throw e => bind fin (λ _, Throw e)
  | SetState f k => SetState f (try_finally k fin)
  | Emit e k => Emit e (try_finally k fin)
  | Await c k => Await c (λ o, try_finally (k o) fin)
  | NewAudio src k => NewAudio src (λ a, try_finally (k a) fin)
  | SetHandlers a f g h k => SetHandlers a f g h (try_finally k fin)
  | Play a k => Play a (try_finally k fin)
  | Pause a k => Pause a (try_finally k fin)
  end.

(** [await c]: the resolved value, or the rejection thrown at the caller. *)
Definition await (c : C) : prog R :=
  Await c (λ o, match o with Resolved r => Ret r | Rejected e => Throw e end).

Definition setState (f : S → S) : prog unit := SetState f (Ret tt).
Definition emit (e : effect) : prog unit := Emit e (Ret tt).
Definition toast (variant title description : string) : prog unit :=
  emit (Toast {| variant := variant; title := title; description := description |}).
Definition console_error (label : string) (e : exn) : prog unit :=
  emit (ConsoleError label e).

(** An [HTMLAudioElement]: its source, whether it is sounding, and the state
    updates registered as [onplay], [onpause] and [onended]. *)
Record audio := Audio {
  src : string;
  playing : bool;
  onplay : S → S;
  onpause : S → S;
  onended : S → S
}.

(** The page: the component's state, the audio elements created so far, the
    handlers suspended at an [await], and what has been observed. *)
Record world := World {
  ui : S;
  audios : list audio;
  pending : list (outcome → prog unit);
  trace : list effect
}.

Definition with_ui (f : S → S) (w : world) : world :=
  World (f (ui w)) (audios w) (pending w) (trace w).
Definition with_audios (f : list audio → list audio) (w : world) : world :=
  World (ui w) (f (audios w)) (pending w) (trace w).
Definition with_pending (f : list (outcome → prog unit) → list (outcome → prog unit))
  (w : world) : world :=
  World (ui w) (audios w) (f (pending w)) (trace w).
Definition observe (e : effect) (w : world) : world :=
  World (ui w) (audios w) (pending w) (trace w ++ [e]).

Definition set_playing (b : bool) (au : audio) : audio :=
  Audio (src au) b (onplay au) (onpause au) (onended au).

(** [audio.play()]: the element starts sounding and its [onplay] fires. *)
Definition play (a : nat) (w : world) : world :=
  match audios w !! a with
  | Some au => with_ui (onplay au) (with_audios (alter (set_playing true) a) w)
  | None => w
  end.

(** [audio.pause()]: a sounding element falls silent and its [onpause] fires;
    pausing a silent element does nothing. *)
Definition pause (a : nat) (w : world) : world :=
  match audios w !! a with
  | Some au =>
      if playing au
      then with_ui (onpause au) (with_audios (alter (set_playing false) a) w)
      else w
  | None => w
  end.

(** The clip of a sounding element reaches its end: [onended] fires. *)
Definition ended (a : nat) (w : world) : world :=
  match audios w !! a with
  | Some au =>
      if playing au
      then with_ui (onended au) (with_audios (alter (set_playing false) a) w)
      else w
  | None => w
  end.

(** Runs a handler until it returns, throws, or reaches an [await]; there the
    call is sent and the rest of the handler is parked in [pending]. *)
Fixpoint run (p : prog unit) (w : world) : world :=
  match p with
  | Ret _ => w
  | Throw e => observe (Unhandled e) w
  | SetState f k => run k (with_ui f w)
  | Emit e k => run k (observe e w)
  | Await c k => with_pending (λ ps, ps ++ [k]) (observe (Remote c) w)
  | NewAudio s k =>
      run (k (length (audios w)))
          (with_audios (λ l, l ++ [Audio s false id id id]) w)
  | SetHandlers a f g h k =>
      run k (with_audios (alter (λ au, Audio (src au) (playing au) f g h) a) w)
  | Play a k => run k (play a w)
  | Pause a k => run k (pause a w)
  end.

(** The [i]-th awaited call settles with [o]: its handler resumes. *)
Definition resolve (i : nat) (o : outcome) (w : world) : world :=
  match pending w !! i with
  | Some k => run (k o) (with_pending (delete i) w)
  | None => w
  end.

(** Runs a program to its end, every awaited call being answered at once by
    [answer] (which sees what was observed up to the call). *)
Fixpoint exec {A} (answer : list effect → C → outcome) (p : prog A) (w : world)
  : world * (A + exn) :=
  match p with
  | Ret a => (w, inl a)
  | Throw e => (w, inr e)
  | SetState f k => exec answer k (with_ui f w)
  | Emit e k => exec answer k (observe e w)
  | Await c k => exec answer (k (answer (trace w) c)) (observe (Remote c) w)
  | NewAudio s k =>
      exec answer (k (length (audios w)))
           (with_audios (λ l, l ++ [Audio s false id id id]) w)
  | SetHandlers a f g h k =>
      exec answer k (with_audios (alter (λ au, Audio (src au) (playing au) f g h) a) w)
  | Play a k => exec answer k (play a w)
  | Pause a k => exec answer k (pause a w)
  end.

(** The calls sent to the remote side, in order. *)
Definition remote_calls (tr : list effect) : list C :=
  omap (λ e, match e with Remote c => Some c | _ => None end) tr.

End Prog.

Arguments outcome : clear implicits.
Arguments effect : clear implicits.
Arguments prog : clear implicits.
Arguments audio : clear implicits.
Arguments world : clear implicits.
Arguments Ret {S C R A} a.
Arguments Throw {S C R A} e.
Arguments SetState {S C R A} f k.
Arguments Emit {S C R A} e k.
Arguments Await {S C R A} c k.
Arguments NewAudio {S C R A} src k.
Arguments SetHandlers {S C R A} a onplay onpause onended k.
Arguments Play {S C R A} a k.
Arguments Pause {S C R A} a k.
Arguments Resolved {R} r.
Arguments Rejected {R} e.
Arguments Toast {C} t.
Arguments ConsoleError {C} label e.
Arguments Remote {C} c.
Arguments Unhandled {C} e.

#[global] Instance prog_ret {S C R} : MRet (prog S C R) := λ A a, Ret a.
#[global] Instance prog_bind {S C R} : MBind (prog S C R) := λ A B q p, bind p q.

End Async.

(** ** The language name sent with every request

    [languages.find(l => l.code === locale)?.name.split(' ')[0] || 'English'].
    The table [languages] of [@/lib/i18n] and the current [locale] are given
    from outside. *)

Module I18n.

Record language := { code : string; name : string }.

Definition currentLanguageName (languages : list language) (locale : string) : string :=
  match find (λ l, String.eqb (code l) locale) languages with
  | Some l => if Js.truthy (Js.first_word (name l)) then Js.first_word (name l) else "English"
  | None => "English"
  end.

End I18n.

(** ** The conversational chat component *)

Module ConversationalAgent.
Import Async.

Record Message := { role : string; content : string }.

(** The [useState] slots of the component.  [currentAudio] holds the audio
    element (by its number in the page) or [null]. *)
Record State := {
  messages : list Message;
  input : string;
  loading : bool;
  currentAudio : option nat;
  isPlaying : bool
}.

(** [startChat({query, language, history})] and [textToSpeech({text})].  Both
    resolve to a string: the reply, and the [audioDataUri] of the clip. *)
Inductive Call :=
| StartChat (query language : string) (history : list Message)
| TextToSpeech (text : string).

Abbreviation handler := (prog State Call string).

Definition initial : State :=
  {| messages := []; input := ""; loading := false; currentAudio := None;
     isPlaying := false |}.

Definition setMessages (f : list Message → list Message) : handler unit :=
  setState (λ s, {| messages := f (messages s); input := input s; loading := loading s;
                    currentAudio := currentAudio s; isPlaying := isPlaying s |}).
Definition upd_input (v : string) (s : State) : State :=
  {| messages := messages s; input := v; loading := loading s;
     currentAudio := currentAudio s; isPlaying := isPlaying s |}.
Definition upd_loading (v : bool) (s : State) : State :=
  {| messages := messages s; input := input s; loading := v;
     currentAudio := currentAudio s; isPlaying := isPlaying s |}.
Definition upd_currentAudio (v : option nat) (s : State) : State :=
  {| messages := messages s; input := input s; loading := loading s;
     currentAudio := v; isPlaying := isPlaying s |}.
Definition upd_isPlaying (v : bool) (s : State) : State :=
  {| messages := messages s; input := input s; loading := loading s;
     currentAudio := currentAudio s; isPlaying := v |}.
Definition setInput (v : string) : handler unit := setState (upd_input v).
Definition setLoading (v : bool) : handler unit := setState (upd_loading v).
Definition setCurrentAudio (v : option nat) : handler unit := setState (upd_currentAudio v).
Definition setIsPlaying (v : bool) : handler unit := setState (upd_isPlaying v).

Section Handlers.

(** [t] of [useLanguage()], and the language name that the handlers compute
    from the locale ([I18n.currentLanguageName]). *)
Variable t : string → string.
Variable currentLanguageName : string.

(** Every handler is a closure of one render: it reads the state [r] that the
    render saw, also after an [await]. *)

Definition stopCurrentAudio (r : State) : handler unit :=
  match currentAudio r with
  | Some a =>
      Pause a (Ret tt) ;;
      setCurrentAudio None ;;
      setIsPlaying false
  | None => Ret tt
  end.

(** ([audio.play()] is taken to start the clip; its rejection would only be
    written to the console.) *)
Definition speak (r : State) (text : string) (autoPlay : bool) : handler unit :=
  stopCurrentAudio r ;;
  if negb (Js.truthy (Js.trim text)) then Ret tt else
  try_catch
    (audioDataUri ← await (TextToSpeech text);
     if Js.truthy audioDataUri then
       NewAudio audioDataUri (λ audio,
         setCurrentAudio (Some audio) ;;
         SetHandlers audio
           (upd_isPlaying true)
           (upd_isPlaying false)
           (λ s, upd_currentAudio None (upd_isPlaying false s))
           (if autoPlay then Play audio (Ret tt) else Ret tt))
     else Ret tt)
    (λ error,
       console_error "TTS error:" error ;;
       toast "destructive" "Text-to-Speech Failed"
             "Could not generate audio for the response.").

(** ([e.preventDefault()] acts on the browser's event only.) *)
Definition handleSubmit (r : State) : handler unit :=
  if negb (Js.truthy (Js.trim (input r))) || loading r then Ret tt else
  let userMessage := {| role := "user"; content := input r |} in
  setMessages (λ prev, prev ++ [userMessage]) ;;
  setInput "" ;;
  setLoading true ;;
  stopCurrentAudio r ;;
  try_finally
    (try_catch
       (let history := messages r ++ [userMessage] in
        response ← await (StartChat (input r) currentLanguageName (Js.slice_0_m1 history));
        let aiMessage := {| role := "model"; content := response |} in
        setMessages (λ prev, prev ++ [aiMessage]) ;;
        speak r response true)
       (λ error,
          console_error "Conversational agent error:" error ;;
          toast "destructive" "Error" (t "An unexpected error occurred.") ;;
          let errorMessage :=
            {| role := "model";
               content := "Sorry, I encountered an error. Please try again." |} in
          setMessages (λ prev, prev ++ [errorMessage])))
    (setLoading false).

(** What can happen to the page: the user types (or a transcript arrives),
    presses Enter in the text area, clicks the send button, the speaker button
    of the [i]-th message or the stop button; an awaited call settles; a clip
    reaches its end. *)
Inductive event :=
| TypeInput (text : string)
| PressEnter
| ClickSend
| ClickSpeak (i : nat)
| ClickStop
| Settle (i : nat) (o : outcome string)
| AudioEnded (a : nat).

(** [disabled={loading || !input.trim()}] of the send button. *)
Definition send_disabled (s : State) : bool :=
  loading s || negb (Js.truthy (Js.trim (input s))).

Definition step (e : event) (w : world State Call string) : world State Call string :=
  match e with
  | TypeInput text => run (setInput text) w
  | PressEnter => run (handleSubmit (ui w)) w
  | ClickSend => if send_disabled (ui w) then w else run (handleSubmit (ui w)) w
  | ClickSpeak i =>
      match messages (ui w) !! i with
      | Some m =>
          if String.eqb (role m) "model" then run (speak (ui w) (content m) true) w else w
      | None => w
      end
  | ClickStop => if isPlaying (ui w) then run (stopCurrentAudio (ui w)) w else w
  | Settle i o => resolve i o w
  | AudioEnded a => ended a w
  end.

Definition steps (es : list event) (w : world State Call string) : world State Call string :=
  foldl (λ w e, step e w) w es.

Definition start : world State Call string := World initial [] [] [].

(** The audio elements that are sounding. *)
Definition sounding (w : world State Call string) : list nat :=
  omap (λ '(a, au), if playing au then Some a else None) (imap pair (audios w)).

End Handlers.

End ConversationalAgent.

(** ** The trend icon of both market cards

    [TrendIcon] of [market-analysis-card.tsx] and of [current-crop-agent.tsx]
    (the two definitions are the same text).  An element is its component and
    its [className]; [null] is [None]. *)

Module Trend.

Record element := { component : string; className : string }.

Definition TrendIcon (direction : string) : option element :=
  if String.eqb direction "Upward" then
    Some {| component := "ArrowUp"; className := "h-4 w-4 text-green-500" |}
  else if String.eqb direction "Downward" then
    Some {| component := "ArrowDown"; className := "h-4 w-4 text-red-500" |}
  else if String.eqb direction "Stable" then
    Some {| component := "Minus"; className := "h-4 w-4 text-gray-500" |}
  else if String.eqb direction "Volatile" then
    Some {| component := "BarChart"; className := "h-4 w-4 text-yellow-500" |}
  else None.

(** Modelled from the spec: the schema of the market analysis result
    ([@/ai/schemas/market-analysis-schemas]) is not among the sources; the
    data model gives the trend direction as one of Upward, Downward, Stable
    and Volatile. *)
Inductive Direction := Upward | Downward | Stable | Volatile.

(** The string that a direction is in the result handed to the cards. *)
Definition direction_text (d : Direction) : string :=
  match d with
  | Upward => "Upward"
  | Downward => "Downward"
  | Stable => "Stable"
  | Volatile => "Volatile"
  end.

End Trend.

(** ** [MarketAnalysisTool] of [market-analysis-card.tsx] *)

Module MarketAnalysisTool.
Import Async.

Record State := { analysis : option json; loading : bool }.

(** [marketAnalysis(input)], resolving to the analysis. *)
Inductive Call := MarketAnalysis (input : gmap string json).

Abbreviation handler := (prog State Call json).

Definition initial : State := {| analysis := None; loading := false |}.

Definition setLoading (v : bool) : handler unit :=
  setState (λ s, {| analysis := analysis s; loading := v |}).
Definition setAnalysis (v : option json) : handler unit :=
  setState (λ s, {| analysis := v; loading := loading s |}).

Section Handlers.

Variable currentLanguageName : string.

(** What the form's resolver ([MarketAnalysisInputSchema], not among the
    sources) lets through. *)
Variable valid : gmap string json → bool.

Definition onSubmit (values : gmap string json) : handler unit :=
  setLoading true ;;
  setAnalysis None ;;
  try_finally
    (try_catch
       (result ← await (MarketAnalysis (<["language" := JStr currentLanguageName]> values));
        setAnalysis (Some result))
       (λ error,
          console_error "" error ;;
          toast "destructive" "Analysis Failed"
            "Could not fetch market analysis. The model may be temporarily unavailable. Please try again later."))
    (setLoading false).

(** The user submits the form (the submit button carries
    [disabled={loading}], and [form.handleSubmit] calls [onSubmit] only with
    values the resolver accepts); an awaited call settles. *)
Inductive event :=
| SubmitForm (values : gmap string json)
| Settle (i : nat) (o : outcome json).

Definition step (e : event) (w : world State Call json) : world State Call json :=
  match e with
  | SubmitForm values =>
      if loading (ui w) then w
      else if valid values then run (onSubmit values) w else w
  | Settle i o => resolve i o w
  end.

End Handlers.

End MarketAnalysisTool.

(** ** [CurrentCropAgent] of [current-crop-agent.tsx] *)

Module CurrentCropAgent.
Import Async.

(** [CurrentCrop] of [@/lib/types]: the properties the component and the
    crop-context schema name. *)
Record CurrentCrop := {
  id : string;
  cropName : string;
  fieldSize : string;
  location : string;
  sowingDate : string;
  additionalInfo : option string
}.

(** The state slots read and written by the agent part of the component, and
    the values and errors of its two forms.  (The slots of the add-crop form,
    [isAddingCrop] and [loadingCrops], play no part in the handlers below.) *)
Record State := {
  crops : list CurrentCrop;
  loadingResponse : bool;
  agentResponse : option json;
  marketAnalysisResult : option json;
  postHarvestResult : option json;
  selectedCropId : string;
  query : string;
  queryError : option string;
  yieldError : option string
}.

Inductive Call :=
| AskCurrentCropAgent (query : string) (cropContext : CurrentCrop) (language : string)
| MarketAnalysis (commodity location query language : string)
| GetPostHarvestAdvice (cropContext : CurrentCrop) (estimatedYield language : string).

Abbreviation handler := (prog State Call json).

Definition initial : State :=
  {| crops := []; loadingResponse := false; agentResponse := None;
     marketAnalysisResult := None; postHarvestResult := None;
     selectedCropId := ""; query := ""; queryError := None; yieldError := None |}.

Definition upd_crops (v : list CurrentCrop) (s : State) : State :=
  {| crops := v; loadingResponse := loadingResponse s; agentResponse := agentResponse s;
     marketAnalysisResult := marketAnalysisResult s; postHarvestResult := postHarvestResult s;
     selectedCropId := selectedCropId s; query := query s; queryError := queryError s;
     yieldError := yieldError s |}.
Definition upd_loadingResponse (v : bool) (s : State) : State :=
  {| crops := crops s; loadingResponse := v; agentResponse := agentResponse s;
     marketAnalysisResult := marketAnalysisResult s; postHarvestResult := postHarvestResult s;
     selectedCropId := selectedCropId s; query := query s; queryError := queryError s;
     yieldError := yieldError s |}.
Definition upd_agentResponse (v : option json) (s : State) : State :=
  {| crops := crops s; loadingResponse := loadingResponse s; agentResponse := v;
     marketAnalysisResult := marketAnalysisResult s; postHarvestResult := postHarvestResult s;
     selectedCropId := selectedCropId s; query := query s; queryError := queryError s;
     yieldError := yieldError s |}.
Definition upd_marketAnalysisResult (v : option json) (s : State) : State :=
  {| crops := crops s; loadingResponse := loadingResponse s; agentResponse := agentResponse s;
     marketAnalysisResult := v; postHarvestResult := postHarvestResult s;
     selectedCropId := selectedCropId s; query := query s; queryError := queryError s;
     yieldError := yieldError s |}.
Definition upd_postHarvestResult (v : option json) (s : State) : State :=
  {| crops := crops s; loadingResponse := loadingResponse s; agentResponse := agentResponse s;
     marketAnalysisResult := marketAnalysisResult s; postHarvestResult := v;
     selectedCropId := selectedCropId s; query := query s; queryError := queryError s;
     yieldError := yieldError s |}.
Definition upd_selectedCropId (v : string) (s : State) : State :=
  {| crops := crops s; loadingResponse := loadingResponse s; agentResponse := agentResponse s;
     marketAnalysisResult := marketAnalysisResult s; postHarvestResult := postHarvestResult s;
     selectedCropId := v; query := query s; queryError := queryError s;
     yieldError := yieldError s |}.
Definition upd_query (v : string) (s : State) : State :=
  {| crops := crops s; loadingResponse := loadingResponse s; agentResponse := agentResponse s;
     marketAnalysisResult := marketAnalysisResult s; postHarvestResult := postHarvestResult s;
     selectedCropId := selectedCropId s; query := v; queryError := queryError s;
     yieldError := yieldError s |}.
Definition upd_queryError (v : option string) (s : State) : State :=
  {| crops := crops s; loadingResponse := loadingResponse s; agentResponse := agentResponse s;
     marketAnalysisResult := marketAnalysisResult s; postHarvestResult := postHarvestResult s;
     selectedCropId := selectedCropId s; query := query s; queryError := v;
     yieldError := yieldError s |}.
Definition upd_yieldError (v : option string) (s : State) : State :=
  {| crops := crops s; loadingResponse := loadingResponse s; agentResponse := agentResponse s;
     marketAnalysisResult := marketAnalysisResult s; postHarvestResult := postHarvestResult s;
     selectedCropId := selectedCropId s; query := query s; queryError := queryError s;
     yieldError := v |}.

Definition setLoadingResponse (v : bool) : handler unit := setState (upd_loadingResponse v).
Definition setAgentResponse (v : option json) : handler unit := setState (upd_agentResponse v).
Definition setMarketAnalysisResult (v : option json) : handler unit :=
  setState (upd_marketAnalysisResult v).
Definition setPostHarvestResult (v : option json) : handler unit :=
  setState (upd_postHarvestResult v).

Section Handlers.

Variable currentLanguageName : string.

Definition getSelectedCrop (r : State) : handler (option CurrentCrop) :=
  match find (λ c, String.eqb (id c) (selectedCropId r)) (crops r) with
  | None =>
      toast "destructive" "Error" "Please select a crop first." ;;
      Ret None
  | Some selectedCrop => Ret (Some selectedCrop)
  end.

Definition clearResults : handler unit :=
  setAgentResponse None ;;
  setMarketAnalysisResult None ;;
  setPostHarvestResult None.

Definition onQuerySubmit (r : State) : handler unit :=
  selected ← getSelectedCrop r;
  match selected with
  | None => Ret tt
  | Some selectedCrop =>
      let query := query r in
      if negb (Js.truthy query) || Nat.ltb (String.length (Js.trim query)) 5 then
        setState (upd_queryError
                    (Some "Please enter a question with at least 5 characters."))
      else
        setLoadingResponse true ;;
        clearResults ;;
        try_finally
          (try_catch
             (response ← await (AskCurrentCropAgent query selectedCrop currentLanguageName);
              setAgentResponse (Some response))
             (λ error,
                console_error "" error ;;
                toast "destructive" "Agent Error"
                      "The agent could not process your request."))
          (setLoadingResponse false)
  end.

Definition handleMarketAnalysis (r : State) : handler unit :=
  selected ← getSelectedCrop r;
  match selected with
  | None => Ret tt
  | Some selectedCrop =>
      setLoadingResponse true ;;
      clearResults ;;
      try_finally
        (try_catch
           (result ← await (MarketAnalysis
                              (cropName selectedCrop)
                              (location selectedCrop)
                              ("Provide a market analysis for " +:+ cropName selectedCrop
                                 +:+ " in " +:+ location selectedCrop)
                              currentLanguageName);
            setMarketAnalysisResult (Some result))
           (λ error,
              console_error "" error ;;
              toast "destructive" "Analysis Failed" "Could not fetch market analysis."))
        (setLoadingResponse false)
  end.

Definition handlePostHarvestHelp (r : State) (yield : string) : handler unit :=
  selected ← getSelectedCrop r;
  match selected with
  | None => Ret tt
  | Some selectedCrop =>
      setLoadingResponse true ;;
      clearResults ;;
      try_finally
        (try_catch
           (result ← await (GetPostHarvestAdvice selectedCrop yield currentLanguageName);
            setPostHarvestResult (Some result))
           (λ error,
              console_error "" error ;;
              toast "destructive" "Analysis Failed" "Could not fetch post-harvest advice."))
        (setLoadingResponse false)
  end.

(** [disabled={loadingResponse || crops.length === 0}], carried by the Ask
    Agent button, the Get Market Analysis button and the button that opens the
    post-harvest dialog. *)
Definition controls_disabled (s : State) : bool :=
  loadingResponse s || Nat.eqb (length (crops s)) 0.

(** [postHarvestYieldForm.handleSubmit(handlePostHarvestHelp)]: the resolver
    checks the entered yield against [postHarvestYieldSchema]; the handler is
    called with the parsed value, and a failed check only shows its message
    under the field. *)
Definition submitYield (r : State) (yield : string) : handler unit :=
  match Zod.safeParse Schemas.postHarvestYieldSchema (JObj {[ "yield" := JStr yield ]}) with
  | Zod.Ok (JObj data) =>
      match get data "yield" with
      | JStr y => setState (upd_yieldError None) ;; handlePostHarvestHelp r y
      | _ => Ret tt
      end
  | Zod.Ok _ => Ret tt
  | Zod.Err issues =>
      setState (upd_yieldError (Zod.message <$> head issues))
  end.

(** What can happen to the page.  [CropsFetched] is the success branch of
    [fetchCrops]: the list is stored and the first crop selected.
    [SelectCrop] picks one of the listed crops in the select box.
    [PostHarvestHelp] opens the dialog through its button, enters a yield and
    submits it. *)
Inductive event :=
| CropsFetched (fetchedCrops : list CurrentCrop)
| SelectCrop (i : nat)
| TypeQuery (text : string)
| ClickAskAgent
| ClickMarketAnalysis
| PostHarvestHelp (yield : string)
| Settle (i : nat) (o : outcome json).

Definition step (e : event) (w : world State Call json) : world State Call json :=
  match e with
  | CropsFetched fetchedCrops =>
      with_ui (λ s, upd_selectedCropId
                      (match fetchedCrops with c :: _ => id c | [] => "" end)
                      (upd_crops fetchedCrops s)) w
  | SelectCrop i =>
      match crops (ui w) !! i with
      | Some c => with_ui (upd_selectedCropId (id c)) w
      | None => w
      end
  | TypeQuery text => with_ui (upd_query text) w
  | ClickAskAgent =>
      if controls_disabled (ui w) then w else run (onQuerySubmit (ui w)) w
  | ClickMarketAnalysis =>
      if controls_disabled (ui w) then w else run (handleMarketAnalysis (ui w)) w
  | PostHarvestHelp yield =>
      if controls_disabled (ui w) then w else run (submitYield (ui w) yield) w
  | Settle i o => resolve i o w
  end.

Definition start : world State Call json := World initial [] [] [].

(** How many of the three result slots hold a result. *)
Definition shown (slot : option json) : nat :=
  match slot with Some _ => 1 | None => 0 end.

Definition results_shown (s : State) : nat :=
  shown (agentResponse s) + shown (marketAnalysisResult s) + shown (postHarvestResult s).

End Handlers.

End CurrentCropAgent.

(** ** The post-harvest flow *)

Module PostHarvestFlow.
Import Async.

(** The one call of the flow: the instruction sent to the generative
    endpoint, which answers with a value. *)
Inductive Call := Generate (instruction : string).

Section Flow.

(** How the instruction is worded from the validated input. *)
Variable instruction : json → string.

(** Modelled from the spec: the flow function [getPostHarvestAdvice] of
    [@/ai/flows/post-harvest-flow] is not among the sources.  By sections 2
    and 4.1 it validates its input against the input schema and fails with a
    ValidationError otherwise; it sends one instruction built from the input
    to the remote endpoint, whose failure is the flow's failure; and it parses
    the reply against the output schema, failing with a ResponseShapeError
    when the reply does not have that shape. *)
Definition getPostHarvestAdvice (input : json) : prog unit Call json json :=
  match Zod.safeParse Schemas.PostHarvestInputSchema input with
  | Zod.Err issues => Throw (ValidationError issues)
  | Zod.Ok validated =>
      reply ← await (Generate (instruction validated));
      match Zod.safeParse Schemas.PostHarvestOutputSchema reply with
      | Zod.Err issues => Throw (ResponseShapeError issues)
      | Zod.Ok advice => Ret advice
      end
  end.

Definition start : world unit Call json := World tt [] [] [].

End Flow.

End PostHarvestFlow.

(** ** More of the components

    The parts of the three files that the handlers above do not reach: the
    initials shown in the chat, the rendering of the post-harvest advice, and
    the list of crops with its add-crop form. *)

Module JsText.

(** [s.split(' ')]: the pieces of [s] between its spaces; never empty. *)
Fixpoint split_space (s : string) : list string :=
  match s with
  | EmptyString => [EmptyString]
  | String c r =>
      if Ascii.eqb c " " then EmptyString :: split_space r
      else match split_space r with
           | w :: ws => String c w :: ws
           | [] => [String c EmptyString]
           end
  end.

(** [n[0]] as [join('')] prints it: the first character, and nothing for the
    [undefined] of an empty piece. *)
Definition first_char (w : string) : string :=
  match w with
  | EmptyString => EmptyString
  | String c _ => String c EmptyString
  end.

(** [l.join('')] *)
Definition join_empty (l : list string) : string := String.concat "" l.

(** [toUpperCase] on the code units below 128: the letters a to z are
    raised, every other such unit is kept.  (Above 128 the upper case of a
    unit may be two units or lie beyond 255; names with such units are
    outside the statements below.) *)
Definition upper (c : ascii) : ascii :=
  let n := nat_of_ascii c in
  if Nat.leb 97 n && Nat.leb n 122 then ascii_of_nat (n - 32) else c.

Fixpoint toUpperCase (s : string) : string :=
  match s with
  | EmptyString => EmptyString
  | String c r => String (upper c) (toUpperCase r)
  end.

Fixpoint ascii_only (s : string) : bool :=
  match s with
  | EmptyString => true
  | String c r => Nat.ltb (nat_of_ascii c) 128 && ascii_only r
  end.

End JsText.

Module Initials.

(** [getInitials] of the chat component; [null] and [undefined] are
    [None]. *)
Definition getInitials (name : option string) : string :=
  match name with
  | None => "U"
  | Some name =>
      if negb (Js.truthy name) then "U"
      else JsText.toUpperCase
             (JsText.join_empty (map JsText.first_char (JsText.split_space name)))
  end.

End Initials.

(** ** [renderPostHarvestAdvice] of [current-crop-agent.tsx] *)

Module PostHarvestView.

Definition primary (component : string) : Trend.element :=
  {| Trend.component := component; Trend.className := "h-5 w-5 text-primary" |}.

Definition postHarvestIcons : gmap string Trend.element :=
  list_to_map [
    ("storageRecommendations", primary "Warehouse");
    ("transportationOptions", primary "Truck");
    ("marketLinkages", primary "Store");
    ("valueAdditionOpportunities", primary "Sparkles");
    ("pricingStrategy", primary "BadgePercent");
    ("qualityControlMeasures", primary "Microscope");
    ("postHarvestHandling", primary "Package");
    ("wasteManagement", primary "Recycle")
  ].

Record entry := { key : string; title : string }.

Definition adviceEntries : list entry :=
  [ {| key := "storageRecommendations"; title := "Storage Recommendations" |};
    {| key := "transportationOptions"; title := "Transportation Options" |};
    {| key := "marketLinkages"; title := "Market Linkages" |};
    {| key := "valueAdditionOpportunities"; title := "Value Addition Opportunities" |};
    {| key := "pricingStrategy"; title := "Pricing Strategy" |};
    {| key := "qualityControlMeasures"; title := "Quality Control Measures" |};
    {| key := "postHarvestHandling"; title := "Post-Harvest Handling" |};
    {| key := "wasteManagement"; title := "Waste Management" |} ].

(** One [AccordionItem]: its value, the icon and title of its trigger (a
    missing icon is [None]), and the value printed in its content. *)
Record accordionItem := {
  value : string;
  icon : option Trend.element;
  heading : string;
  content : json
}.

Record accordion := { defaultValue : string; items : list accordionItem }.

Definition renderPostHarvestAdvice (advice : gmap string json) : accordion :=
  {| defaultValue := "storageRecommendations";
     items :=
       map (λ item, {| value := key item;
                       icon := postHarvestIcons !! key item;
                       heading := title item;
                       content := get advice (key item) |})
           adviceEntries |}.

End PostHarvestView.

(** ** The list of crops and the add-crop form of [CurrentCropAgent] *)

Module CropList.
Import Async.

(** The values of the add-crop form: [sowingDate] is the picked day or
    [undefined], [additionalInfo] a text. *)
Record AddCropFormValues {date : Type} := {
  cropName : string;
  fieldSize : string;
  location : string;
  sowingDate : option date;
  additionalInfo : string
}.
Arguments AddCropFormValues : clear implicits.

(** What [addCurrentCrop] is given: the values with the date in ISO form. *)
Record NewCrop := {
  newCropName : string;
  newFieldSize : string;
  newLocation : string;
  newSowingDate : string;
  newAdditionalInfo : string
}.

Inductive Call :=
| GetAllCurrentCrops
| AddCurrentCrop (crop : NewCrop).

(** An answer of the record store: what [addCurrentCrop] resolves to (the
    new identifier, or [null]) and what [getAllCurrentCrops] resolves to.
    Each call reads its own part. *)
Record Answer := {
  newCropId : option string;
  allCrops : list CurrentCropAgent.CurrentCrop
}.

Section Handlers.

Variable date : Type.
Variable toISOString : date → string.

(** The agent's slots of the component, and with them [isAddingCrop],
    [loadingCrops] and the add-crop form: its values, the messages under its
    fields and its [formState.isSubmitting]. *)
Record State := {
  agent : CurrentCropAgent.State;
  isAddingCrop : bool;
  loadingCrops : bool;
  addCropForm : AddCropFormValues date;
  addCropErrors : list (string * string);
  isSubmitting : bool
}.

Abbreviation handler := (prog State Call Answer).

Definition defaultValues : AddCropFormValues date :=
  {| cropName := ""; fieldSize := ""; location := ""; sowingDate := None;
     additionalInfo := "" |}.

Definition initial : State :=
  {| agent := CurrentCropAgent.initial; isAddingCrop := false; loadingCrops := true;
     addCropForm := defaultValues; addCropErrors := []; isSubmitting := false |}.

Definition upd_agent (f : CurrentCropAgent.State → CurrentCropAgent.State) (s : State) : State :=
  {| agent := f (agent s); isAddingCrop := isAddingCrop s; loadingCrops := loadingCrops s;
     addCropForm := addCropForm s; addCropErrors := addCropErrors s;
     isSubmitting := isSubmitting s |}.
Definition upd_isAddingCrop (v : bool) (s : State) : State :=
  {| agent := agent s; isAddingCrop := v; loadingCrops := loadingCrops s;
     addCropForm := addCropForm s; addCropErrors := addCropErrors s;
     isSubmitting := isSubmitting s |}.
Definition upd_loadingCrops (v : bool) (s : State) : State :=
  {| agent := agent s; isAddingCrop := isAddingCrop s; loadingCrops := v;
     addCropForm := addCropForm s; addCropErrors := addCropErrors s;
     isSubmitting := isSubmitting s |}.
Definition upd_addCropForm (v : AddCropFormValues date) (s : State) : State :=
  {| agent := agent s; isAddingCrop := isAddingCrop s; loadingCrops := loadingCrops s;
     addCropForm := v; addCropErrors := addCropErrors s;
     isSubmitting := isSubmitting s |}.
Definition upd_addCropErrors (v : list (string * string)) (s : State) : State :=
  {| agent := agent s; isAddingCrop := isAddingCrop s; loadingCrops := loadingCrops s;
     addCropForm := addCropForm s; addCropErrors := v;
     isSubmitting := isSubmitting s |}.
Definition upd_isSubmitting (v : bool) (s : State) : State :=
  {| agent := agent s; isAddingCrop := isAddingCrop s; loadingCrops := loadingCrops s;
     addCropForm := addCropForm s; addCropErrors := addCropErrors s;
     isSubmitting := v |}.

Definition setLoadingCrops (v : bool) : handler unit := setState (upd_loadingCrops v).
Definition setIsAddingCrop (v : bool) : handler unit := setState (upd_isAddingCrop v).
Definition setCrops (v : list CurrentCropAgent.CurrentCrop) : handler unit :=
  setState (upd_agent (CurrentCropAgent.upd_crops v)).
(** [agentQueryForm.setValue('selectedCropId', v)] *)
Definition setSelectedCropId (v : string) : handler unit :=
  setState (upd_agent (CurrentCropAgent.upd_selectedCropId v)).

Definition fetchCrops : handler unit :=
  setLoadingCrops true ;;
  try_finally
    (try_catch
       (answer ← await GetAllCurrentCrops;
        let fetchedCrops := allCrops answer in
        setCrops fetchedCrops ;;
        match fetchedCrops with
        | first :: _ => setSelectedCropId (CurrentCropAgent.id first)
        | [] => setSelectedCropId ""
        end)
       (λ error,
          console_error "" error ;;
          toast "destructive" "Error" "Could not load your crops."))
    (setLoadingCrops false).

(** The messages of [addCropFormSchema], field by field, for the values that
    fail it. *)
Definition addCropFormErrors (values : AddCropFormValues date) : list (string * string) :=
  (if Nat.ltb (String.length (cropName values)) 2
   then [("cropName", "Crop name is required.")] else []) ++
  (if Nat.ltb (String.length (fieldSize values)) 1
   then [("fieldSize", "Field size is required.")] else []) ++
  (if Nat.ltb (String.length (location values)) 2
   then [("location", "Location is required.")] else []) ++
  (match sowingDate values with
   | None => [("sowingDate", "A sowing date is required.")]
   | Some _ => []
   end).

(** [onAddCropSubmit], called by the form with values that passed the
    schema, so with a date.  (The success toast has no variant.) *)
Definition onAddCropSubmit (values : AddCropFormValues date) (day : date) : handler unit :=
  try_catch
    (answer ← await (AddCurrentCrop
                       {| newCropName := cropName values;
                          newFieldSize := fieldSize values;
                          newLocation := location values;
                          newSowingDate := toISOString day;
                          newAdditionalInfo := additionalInfo values |});
     match newCropId answer with
     | Some newId =>
         if Js.truthy newId then
           toast "" "Success" "Crop added successfully!" ;;
           setState (upd_addCropForm defaultValues) ;;
           setIsAddingCrop false ;;
           fetchCrops
         else Throw (JsError "Failed to get new crop ID.")
     | None => Throw (JsError "Failed to get new crop ID.")
     end)
    (λ error,
       console_error "" error ;;
       toast "destructive" "Error" "Could not add your crop.").

(** [addCropForm.handleSubmit(onAddCropSubmit)]: the form is submitting
    from the submit event until the handler has finished; values that fail
    the schema only get their messages shown. *)
Definition submitAddCrop (r : State) : handler unit :=
  setState (upd_isSubmitting true) ;;
  try_finally
    match addCropFormErrors (addCropForm r), sowingDate (addCropForm r) with
    | [], Some day =>
        setState (upd_addCropErrors []) ;;
        onAddCropSubmit (addCropForm r) day
    | errors, _ => setState (upd_addCropErrors errors)
    end
    (setState (upd_isSubmitting false)).

(** The component mounts (its effect calls [fetchCrops]); the user opens or
    cancels the add-crop form, edits it, and submits it (the Save Crop button
    carries [disabled={addCropForm.formState.isSubmitting}]); a call
    settles.  (A click on Cancel is taken to close the form and nothing
    more.) *)
Inductive event :=
| Mount
| OpenAddCrop
| CancelAddCrop
| EditAddCrop (values : AddCropFormValues date)
| SubmitAddCrop
| Settle (i : nat) (o : outcome Answer).

Definition step (e : event) (w : world State Call Answer) : world State Call Answer :=
  match e with
  | Mount => run fetchCrops w
  | OpenAddCrop => with_ui (upd_isAddingCrop true) w
  | CancelAddCrop => with_ui (upd_isAddingCrop false) w
  | EditAddCrop values =>
      if isAddingCrop (ui w) then with_ui (upd_addCropForm values) w else w
  | SubmitAddCrop =>
      if isAddingCrop (ui w) && negb (isSubmitting (ui w))
      then run (submitAddCrop (ui w)) w
      else w
  | Settle i o => resolve i o w
  end.

Definition steps (es : list event) (w : world State Call Answer) : world State Call Answer :=
  foldl (λ w e, step e w) w es.

Definition start : world State Call Answer := World initial [] [] [].

End Handlers.

Arguments agent {date} s.
Arguments isAddingCrop {date} s.
Arguments loadingCrops {date} s.
Arguments addCropForm {date} s.
Arguments addCropErrors {date} s.
Arguments isSubmitting {date} s.
Arguments addCropFormErrors {date} values.
Arguments cropName {date} a.
Arguments fieldSize {date} a.
Arguments location {date} a.
Arguments sowingDate {date} a.
Arguments additionalInfo {date} a.

End CropList.

(** * Properties *)

(** ** Strings *)

Section StringFacts.
Import Js.

(** A string made of whitespace only. *)
Fixpoint blank (s : string) : bool :=
  match s with
  | EmptyString => true
  | String c r => is_whitespace c && blank r
  end.

Lemma trimStart_blank s : blank s = true → trimStart s = "".
Proof.
  induction s as [|c r IH]; simpl; [done|].
  intros [Hc Hr]%andb_prop. rewrite Hc. auto.
Qed.

Lemma trim_blank s : blank s = true → trim s = "".
Proof. intros H. unfold trim. by rewrite trimStart_blank. Qed.

Lemma trimEnd_length s : (String.length (trimEnd s) ≤ String.length s)%nat.
Proof.
  induction s as [|c r IH]; simpl; [lia|].
  destruct (trimEnd r) eqn:E; simpl in *; [destruct (is_whitespace c); simpl|]; lia.
Qed.

Lemma trimStart_length s : (String.length (trimStart s) ≤ String.length s)%nat.
Proof.
  induction s as [|c r IH]; simpl; [lia|].
  destruct (is_whitespace c); simpl; lia.
Qed.

Lemma trim_length s : (String.length (trim s) ≤ String.length s)%nat.
Proof.
  unfold trim. etrans; [apply trimEnd_length | apply trimStart_length].
Qed.

Lemma slice_0_m1_snoc {A} (l : list A) (x : A) : slice_0_m1 (l ++ [x]) = l.
Proof.
  unfold slice_0_m1. rewrite length_app. simpl.
  replace (length l + 1 - 1) with (length l) by lia.
  by rewrite take_app_length.
Qed.

End StringFacts.

(** ** Parsing against an object schema *)

Section ZodFacts.
Import Zod.

(** The parsed properties of an object, as [parse] pairs them with their
    keys. *)
Definition fields (p : list string) (data : gmap string json)
  (shape : list (string * schema)) : list (string * bool * result) :=
  map (λ '(k, s), (k, has_key data k, parse s (p ++ [k]) (get data k))) shape.

Lemma parse_object shape p data :
  parse (ZObject shape) p (JObj data) =
  match mergeObjectSync (fields p data shape) with
  | (obj, []) => Ok (JObj obj)
  | (_, iss) => Err iss
  end.
Proof.
  simpl.
  enough ((fix fields (sh : list (string * schema)) :=
             match sh with
             | [] => []
             | (k, s) :: rest =>
                 (k, has_key data k, parse s (p ++ [k]) (get data k)) :: fields rest
             end) shape = fields p data shape) as -> by done.
  induction shape as [|[k s] rest IH]; simpl; [done|]. by rewrite IH.
Qed.

Lemma parse_string_ok p s : parse z_string p (JStr s) = Ok (JStr s).
Proof. reflexivity. Qed.

Lemma parse_string_err p v :
  (∀ s, v ≠ JStr s) → parse z_string p v = Err [invalid_type p "string" v].
Proof. intros H. destruct v; try reflexivity. by destruct (H s). Qed.

(** One failed property fails the object. *)
Lemma merge_issue pairs k b i :
  (k, b, Err i) ∈ pairs → i ≠ [] → (mergeObjectSync pairs).2 ≠ [].
Proof.
  induction pairs as [|[[k' b'] r] rest IH]; intros Hin Hi; [by apply elem_of_nil in Hin|].
  simpl. destruct (mergeObjectSync rest) as [obj iss] eqn:E.
  apply elem_of_cons in Hin as [Heq|Hin].
  - inversion Heq; subst. simpl. by destruct i.
  - specialize (IH Hin Hi). simpl in IH.
    destruct r; simpl; [done|]. by destruct issues, iss.
Qed.

Lemma parse_object_issue shape p data k s i :
  (k, s) ∈ shape → parse s (p ++ [k]) (get data k) = Err i → i ≠ [] →
  ∃ iss, parse (ZObject shape) p (JObj data) = Err iss ∧ iss ≠ [].
Proof.
  intros Hin Hp Hi. rewrite parse_object.
  assert ((k, has_key data k, Err i) ∈ fields p data shape) as Hf.
  { unfold fields. apply list_elem_of_fmap. exists (k, s). by rewrite Hp. }
  pose proof (merge_issue _ _ _ _ Hf Hi) as Hne.
  destruct (mergeObjectSync (fields p data shape)) as [obj [|x iss]]; [done|].
  eexists; split; [reflexivity | done].
Qed.

(** An object schema whose properties are all plain strings. *)
Definition strings_shape (keys : list string) : list (string * schema) :=
  map (λ k, (k, z_string)) keys.

Lemma merge_strings p data keys obj iss :
  mergeObjectSync (fields p data (strings_shape keys)) = (obj, iss) →
  (iss = [] → (∀ k, k ∈ keys → ∃ s, data !! k = Some (JStr s))
              ∧ dom obj = list_to_set keys
              ∧ ∀ k, k ∈ keys → obj !! k = data !! k)
  ∧ ((∀ k, k ∈ keys → ∃ s, data !! k = Some (JStr s)) → iss = []).
Proof.
  revert obj iss. induction keys as [|k keys IH]; intros obj iss.
  - simpl. intros [= <- <-]. split; [|done]. intros _.
    split_and!; [|done|]; intros k Hk; by apply elem_of_nil in Hk.
  - cbn [strings_shape fields map mergeObjectSync].
    fold (strings_shape keys). fold (fields p data (strings_shape keys)).
    destruct (mergeObjectSync (fields p data (strings_shape keys))) as [obj' iss'] eqn:E.
    destruct (IH _ _ eq_refl) as [IH1 IH2].
    destruct (data !! k) as [v|] eqn:Hk.
    + assert ((∃ s, v = JStr s) ∨ ∀ s, v ≠ JStr s) as [[s ->]|Hv]
        by (destruct v; eauto).
      * unfold get, has_key. rewrite Hk. simpl. intros [= <- <-]. split.
        -- intros ->. destruct (IH1 eq_refl) as (Ha & Hb & Hc). split_and!.
           ++ intros k' [->|Hk']%elem_of_cons; eauto.
           ++ by rewrite dom_insert_L, Hb.
           ++ intros k' Hk'. destruct (decide (k = k')) as [<-|Hne].
              ** by rewrite lookup_insert_eq.
              ** rewrite lookup_insert_ne by done.
                 apply elem_of_cons in Hk' as [->|Hk']; [done | by apply Hc].
        -- intros H. apply IH2. intros k' Hk'. apply H. by apply elem_of_cons; right.
      * rewrite parse_string_err; [|unfold get; rewrite Hk; exact Hv].
        intros [= <- <-]. split; [done|].
        intros H. destruct (H k) as [s Hs]; [by apply elem_of_cons; left|].
        destruct (Hv s). congruence.
    + rewrite parse_string_err; [|unfold get; rewrite Hk; done].
      intros [= <- <-]. split; [done|].
      intros H. destruct (H k) as [s Hs]; [by apply elem_of_cons; left | congruence].
Qed.

End ZodFacts.

(** ** The post-harvest schemas *)

Section PostHarvestSchemas.
Import Zod Schemas Async.

Lemma PostHarvestOutputSchema_strings :
  PostHarvestOutputSchema = ZObject (strings_shape adviceFields).
Proof. reflexivity. Qed.

(** A reply whose eight sections are present, the last one being the empty
    text. *)
Definition reply_with_empty_section : gmap string json :=
  <["wasteManagement" := JStr ""]>
    (list_to_map (map (λ k, (k, JStr "Keep it cool and dry.")) adviceFields)).

(** C1, the claim as stated fails: the output schema accepts a reply one of
    whose eight sections is the empty string, and hands it on unchanged. *)
Lemma output_schema_accepts_empty_section :
  safeParse PostHarvestOutputSchema (JObj reply_with_empty_section)
    = Ok (JObj reply_with_empty_section)
  ∧ reply_with_empty_section !! "wasteManagement" = Some (JStr "").
Proof. split; vm_compute; reflexivity. Qed.

(** C1, as amended: a value that the output schema accepts is an object with
    exactly the eight advice properties, each of them a string (the string of
    the reply, which may be empty); a reply that is not an object, or in
    which one of the eight properties is absent or is not a string, is
    rejected with a non-empty list of issues, and a rejection carries no
    value. *)
Theorem output_schema_eight_strings (reply : json) :
  (∀ advice, safeParse PostHarvestOutputSchema reply = Ok advice →
     ∃ data obj, reply = JObj data ∧ advice = JObj obj
       ∧ dom obj = list_to_set adviceFields
       ∧ ∀ k, k ∈ adviceFields →
           ∃ s, obj !! k = Some (JStr s) ∧ data !! k = Some (JStr s))
  ∧ ((∀ data, reply = JObj data →
        ∃ k, k ∈ adviceFields ∧ ∀ s, data !! k ≠ Some (JStr s)) →
     ∃ issues, safeParse PostHarvestOutputSchema reply = Err issues ∧ issues ≠ []).
Proof.
  unfold safeParse. rewrite PostHarvestOutputSchema_strings.
  destruct reply as [| | | | |l|data];
    try (split; [intros advice [=] | intros _; eexists; split; [reflexivity|done]]).
  rewrite parse_object.
  destruct (mergeObjectSync (fields [] data (strings_shape adviceFields)))
    as [obj iss] eqn:E.
  destruct (merge_strings _ _ _ _ _ E) as [H1 H2]. split.
  - intros advice Hok. destruct iss; [|done]. injection Hok as <-.
    destruct (H1 eq_refl) as (Ha & Hb & Hc).
    exists data, obj. split_and!; try done.
    intros k Hk. destruct (Ha k Hk) as [s Hs]. exists s. by rewrite Hc.
  - intros Hbad. destruct (Hbad data eq_refl) as (k & Hk & Hno).
    destruct iss as [|i iss]; [|eexists; split; [reflexivity|done]].
    destruct (H1 eq_refl) as (Ha & _). destruct (Ha k Hk) as [s Hs].
    by destruct (Hno s).
Qed.

(** The theorem at two replies: the one with an empty section is accepted
    with its eight properties, and one without [wasteManagement] is
    rejected. *)
Lemma output_schema_eight_strings_witness :
  (∃ data obj, JObj reply_with_empty_section = JObj data
     ∧ JObj reply_with_empty_section = JObj obj
     ∧ dom obj = list_to_set adviceFields
     ∧ ∀ k, k ∈ adviceFields →
         ∃ s, obj !! k = Some (JStr s) ∧ data !! k = Some (JStr s))
  ∧ ∃ issues,
      safeParse PostHarvestOutputSchema
        (JObj (delete "wasteManagement" reply_with_empty_section)) = Err issues
      ∧ issues ≠ [].
Proof.
  split.
  - apply (proj1 (output_schema_eight_strings (JObj reply_with_empty_section))).
    vm_compute. reflexivity.
  - apply (proj2 (output_schema_eight_strings
                    (JObj (delete "wasteManagement" reply_with_empty_section)))).
    intros data [= <-]. exists "wasteManagement". split.
    + unfold adviceFields. set_solver.
    + intros s. rewrite lookup_delete_eq. done.
Defined.

(** A crop context with the five required properties, and the input of the
    flow built around it.  [without f] is the same input with property [f] of
    the crop context removed. *)
Definition tomato : gmap string json :=
  list_to_map [("id", JStr "c1"); ("cropName", JStr "Tomato"); ("fieldSize", JStr "2 acres");
               ("location", JStr "Pune"); ("sowingDate", JStr "2024-01-10")].

Definition tomato_input (cropContext : gmap string json) : gmap string json :=
  list_to_map [("cropContext", JObj cropContext); ("estimatedYield", JStr "10 tonnes")].

(** C2: an input whose crop context lacks one of the five required
    properties (or holds something other than a string there) is rejected by
    the input schema, and the flow fails with that ValidationError and leaves
    the world as it was: nothing was sent to the remote side, whatever the
    remote side would have answered. *)
Theorem missing_crop_field_is_rejected
  (instruction : json → string) (answer : list (effect PostHarvestFlow.Call) → PostHarvestFlow.Call → outcome json)
  (w : world unit PostHarvestFlow.Call json)
  (input cropContext : gmap string json) (f : string) :
  f ∈ requiredCropFields →
  input !! "cropContext" = Some (JObj cropContext) →
  (∀ s, cropContext !! f ≠ Some (JStr s)) →
  ∃ issues,
    safeParse PostHarvestInputSchema (JObj input) = Err issues
    ∧ issues ≠ []
    ∧ exec answer (PostHarvestFlow.getPostHarvestAdvice instruction (JObj input)) w
      = (w, inr (ValidationError issues)).
Proof.
  intros Hf Hctx Hmiss.
  assert (∃ i, parse CurrentCropContextSchema ([] ++ ["cropContext"]) (JObj cropContext)
               = Err i ∧ i ≠ []) as (i & Hi & Hne).
  { apply (parse_object_issue _ _ _ f z_string
             [invalid_type (([] ++ ["cropContext"]) ++ [f]) "string" (get cropContext f)]);
      [|apply parse_string_err|done].
    - unfold requiredCropFields in Hf. set_solver.
    - intros s Hs. apply (Hmiss s). unfold get in Hs.
      destruct (cropContext !! f); simpl in Hs; congruence. }
  destruct (parse_object_issue
              [("cropContext", CurrentCropContextSchema);
               ("estimatedYield", ZOptional z_string);
               ("language", ZOptional z_string)]
              [] input "cropContext" CurrentCropContextSchema i)
    as (issues & Hp & Hissues); [set_solver| |done|].
  { unfold get. rewrite Hctx. exact Hi. }
  exists issues. unfold PostHarvestFlow.getPostHarvestAdvice, safeParse.
  change PostHarvestInputSchema with
    (ZObject [("cropContext", CurrentCropContextSchema);
              ("estimatedYield", ZOptional z_string);
              ("language", ZOptional z_string)]).
  rewrite Hp. done.
Qed.

(** The theorem at the tomato crop without its sowing date. *)
Lemma missing_crop_field_is_rejected_witness :
  ∃ issues,
    safeParse PostHarvestInputSchema
      (JObj (tomato_input (delete "sowingDate" tomato))) = Err issues
    ∧ issues ≠ []
    ∧ exec (λ _ _, Resolved (JObj reply_with_empty_section))
        (PostHarvestFlow.getPostHarvestAdvice (λ _, "Advise.")
           (JObj (tomato_input (delete "sowingDate" tomato))))
        PostHarvestFlow.start
      = (PostHarvestFlow.start, inr (ValidationError issues)).
Proof.
  apply (missing_crop_field_is_rejected (λ _, "Advise.")
           (λ _ _, Resolved (JObj reply_with_empty_section))
           PostHarvestFlow.start
           (tomato_input (delete "sowingDate" tomato))
           (delete "sowingDate" tomato) "sowingDate").
  - unfold requiredCropFields. set_solver.
  - vm_compute. reflexivity.
  - intros s. rewrite lookup_delete_eq. done.
Defined.

(** With its sowing date the same input passes, the flow sends one
    instruction, and the reply with the empty section comes back as the
    advice. *)
Example tomato_advice :
  exec (λ _ _, Resolved (JObj reply_with_empty_section))
    (PostHarvestFlow.getPostHarvestAdvice (λ _, "Advise.") (JObj (tomato_input tomato)))
    PostHarvestFlow.start
  = (World tt [] [] [Remote (PostHarvestFlow.Generate "Advise.")],
     inl (JObj reply_with_empty_section)).
Proof. vm_compute. reflexivity. Qed.

End PostHarvestSchemas.

(** ** State updates that stay within a relation

    [relS] bounds what a [setState] of a handler may do to the state, [relA]
    what the callbacks of an audio element may do.  A program respects the
    pair when each of its updates and each callback it registers does, at
    every continuation.  A world is in order when its audio elements and its
    parked handlers are. *)

Section Respect.
Import Async.
Context {S C R : Type}.
Variables relS relA : S → S → Prop.
Context `{!PreOrder relS}.
Hypothesis relA_relS : ∀ s s', relA s s' → relS s s'.
Hypothesis relA_refl : ∀ s, relA s s.

Fixpoint respects {A} (p : prog S C R A) : Prop :=
  match p with
  | Ret _ | Throw _ => True
  | SetState f k => (∀ s, relS s (f s)) ∧ respects k
  | Emit _ k => respects k
  | Await _ k => ∀ o, respects (k o)
  | NewAudio _ k => ∀ a, respects (k a)
  | SetHandlers _ f g h k =>
      (∀ s, relA s (f s)) ∧ (∀ s, relA s (g s)) ∧ (∀ s, relA s (h s)) ∧ respects k
  | Play _ k | Pause _ k => respects k
  end.

Definition audio_ok (au : audio S) : Prop :=
  (∀ s, relA s (onplay au s)) ∧ (∀ s, relA s (onpause au s)) ∧ (∀ s, relA s (onended au s)).

Definition world_ok (w : world S C R) : Prop :=
  Forall audio_ok (audios w) ∧ Forall (λ k, ∀ o, respects (k o)) (pending w).

Lemma respects_bind {A B} (p : prog S C R A) (q : A → prog S C R B) :
  respects p → (∀ a, respects (q a)) → respects (bind p q).
Proof. induction p; simpl; naive_solver. Qed.

Lemma respects_try_catch {A} (p : prog S C R A) h :
  respects p → (∀ e, respects (h e)) → respects (try_catch p h).
Proof. induction p; simpl; naive_solver. Qed.

Lemma respects_try_finally {A} (p : prog S C R A) fin :
  respects p → respects fin → respects (try_finally p fin).
Proof.
  induction p; simpl; try naive_solver;
    intros _ Hfin; by apply respects_bind.
Qed.

Lemma respects_await c : respects (await c).
Proof. intros [r|e]; exact I. Qed.

Lemma respects_setState f : (∀ s, relS s (f s)) → respects (setState f).
Proof. by split. Qed.

Lemma respects_emit e : respects (emit e).
Proof. exact I. Qed.

Lemma audio_ok_set_playing b au : audio_ok au → audio_ok (set_playing b au).
Proof. done. Qed.

Lemma audios_ok_alter (f : audio S → audio S) a l :
  (∀ au, audio_ok au → audio_ok (f au)) → Forall audio_ok l → Forall audio_ok (alter f a l).
Proof.
  intros Hf Hl. apply Forall_lookup. intros i au Hi.
  destruct (decide (a = i)) as [->|Hne].
  - rewrite list_lookup_alter_eq in Hi.
    destruct (l !! i) as [au'|] eqn:E; simplify_eq/=.
    apply Hf. by eapply Forall_lookup_1.
  - rewrite list_lookup_alter_ne in Hi by done. by eapply Forall_lookup_1.
Qed.

Lemma play_ok a w : world_ok w → relS (ui w) (ui (play a w)) ∧ world_ok (play a w).
Proof.
  intros [Ha Hp]. unfold play. destruct (audios w !! a) as [au|] eqn:E; [|done].
  pose proof (Forall_lookup_1 _ _ _ _ Ha E) as (H1 & H2 & H3). split.
  - simpl. by apply relA_relS.
  - split; [|done]. simpl. apply audios_ok_alter; [|done]. apply audio_ok_set_playing.
Qed.

Lemma pause_ok a w : world_ok w → relS (ui w) (ui (pause a w)) ∧ world_ok (pause a w).
Proof.
  intros [Ha Hp]. unfold pause. destruct (audios w !! a) as [au|] eqn:E; [|done].
  pose proof (Forall_lookup_1 _ _ _ _ Ha E) as (H1 & H2 & H3).
  destruct (playing au); [|done]. split.
  - simpl. by apply relA_relS.
  - split; [|done]. simpl. apply audios_ok_alter; [|done]. apply audio_ok_set_playing.
Qed.

Lemma ended_ok a w : world_ok w → relS (ui w) (ui (ended a w)) ∧ world_ok (ended a w).
Proof.
  intros [Ha Hp]. unfold ended. destruct (audios w !! a) as [au|] eqn:E; [|done].
  pose proof (Forall_lookup_1 _ _ _ _ Ha E) as (H1 & H2 & H3).
  destruct (playing au); [|done]. split.
  - simpl. by apply relA_relS.
  - split; [|done]. simpl. apply audios_ok_alter; [|done]. apply audio_ok_set_playing.
Qed.

Lemma pause_relA a w : world_ok w → relA (ui w) (ui (pause a w)).
Proof.
  intros [Ha Hp]. unfold pause. destruct (audios w !! a) as [au|] eqn:E; [|done].
  pose proof (Forall_lookup_1 _ _ _ _ Ha E) as (H1 & H2 & H3).
  destruct (playing au); [|done]. apply H2.
Qed.

Lemma trace_pause a (w : world S C R) : trace (pause a w) = trace w.
Proof. unfold pause. by destruct (audios w !! a) as [[? [] ? ? ?]|]. Qed.

Lemma pending_pause a (w : world S C R) : pending (pause a w) = pending w.
Proof. unfold pause. by destruct (audios w !! a) as [[? [] ? ? ?]|]. Qed.

Lemma run_ok p w :
  respects p → world_ok w → relS (ui w) (ui (run p w)) ∧ world_ok (run p w).
Proof.
  revert w. induction p as [a|e|f k IH|e k IH|c k IH|s k IH|a f g h k IH|a k IH|a k IH];
    intros w Hp Hw; simpl in *.
  - done.
  - done.
  - destruct Hp as [Hf Hk]. destruct (IH (with_ui f w) Hk) as [H1 H2]; [done|].
    split; [|done]. etrans; [apply Hf | exact H1].
  - apply (IH (observe e w)); done.
  - destruct Hw as [Ha Hq]. split; [done|]. split; [done|].
    simpl. apply Forall_app. split; [done|]. by constructor.
  - apply (IH _ (with_audios (λ l, l ++ [Audio s false id id id]) w)); [done|].
    destruct Hw as [Ha Hq]. split; [|done]. simpl. apply Forall_app. split; [done|].
    constructor; [|done]. split_and!; intros x; apply relA_refl.
  - destruct Hp as (Hf & Hg & Hh & Hk).
    apply (IH (with_audios (alter (λ au, Audio (src au) (playing au) f g h) a) w) Hk).
    destruct Hw as [Ha Hq]. split; [|done]. simpl.
    apply audios_ok_alter; [|done]. intros au _. by split_and!.
  - destruct (play_ok a w Hw) as [H1 H2]. destruct (IH (play a w) Hp H2) as [H3 H4].
    split; [|done]. by etrans.
  - destruct (pause_ok a w Hw) as [H1 H2]. destruct (IH (pause a w) Hp H2) as [H3 H4].
    split; [|done]. by etrans.
Qed.

Lemma resolve_ok i o w :
  world_ok w → relS (ui w) (ui (resolve i o w)) ∧ world_ok (resolve i o w).
Proof.
  intros [Ha Hq]. unfold resolve. destruct (pending w !! i) as [k|] eqn:E; [|done].
  apply (run_ok (k o) (with_pending (delete i) w)).
  - by apply (Forall_lookup_1 _ _ _ _ Hq E).
  - split; [done|]. simpl. by apply Forall_delete.
Qed.

End Respect.

(** ** The conversational component *)

Section ChatFacts.
Import Async ConversationalAgent.

Variable t : string → string.
Variable currentLanguageName : string.

#[local] Abbreviation step := (step t currentLanguageName).
#[local] Abbreviation steps := (steps t currentLanguageName).
#[local] Abbreviation handleSubmit := (handleSubmit t currentLanguageName).

Definition role_ok (m : Message) : Prop := role m = "user" ∨ role m = "model".

(** [s'] has the messages of [s] and then some more, each from the user or
    from the model. *)
Definition appends (s s' : State) : Prop :=
  ∃ l, messages s' = messages s ++ l ∧ Forall role_ok l.

(** What the callbacks of an audio element leave alone. *)
Definition audio_only (s s' : State) : Prop :=
  messages s' = messages s ∧ input s' = input s ∧ loading s' = loading s.

#[local] Instance appends_preorder : PreOrder appends.
Proof.
  split.
  - intros s. exists []. by rewrite app_nil_r.
  - intros s1 s2 s3 (l1 & H1 & F1) (l2 & H2 & F2). exists (l1 ++ l2).
    rewrite H2, H1, app_assoc. split; [done|]. by apply Forall_app.
Qed.

Lemma audio_only_appends s s' : audio_only s s' → appends s s'.
Proof. intros (H & _). exists []. by rewrite app_nil_r. Qed.

Lemma audio_only_refl s : audio_only s s.
Proof. done. Qed.

#[local] Abbreviation respects := (respects appends audio_only).
#[local] Abbreviation world_ok := (world_ok appends audio_only).

Lemma same_messages_appends (f : State → State) :
  (∀ s, messages (f s) = messages s) → ∀ s, appends s (f s).
Proof. intros H s. exists []. by rewrite app_nil_r. Qed.

Lemma respects_setMessages m :
  role_ok m → respects (setMessages (λ prev, prev ++ [m])).
Proof. intros Hm. split; [|done]. intros s. exists [m]. split; [done|]. by constructor. Qed.

Lemma respects_stopCurrentAudio r : respects (stopCurrentAudio r).
Proof.
  unfold stopCurrentAudio. destruct (currentAudio r); [|done].
  simpl. split_and!; try done; by apply same_messages_appends.
Qed.

Lemma respects_speak r text autoPlay : respects (speak r text autoPlay).
Proof.
  unfold speak. apply respects_bind; [apply respects_stopCurrentAudio|]. intros _.
  destruct (negb _); [done|].
  apply respects_try_catch; [|done].
  intros [uri|e]; simpl; [|done].
  destruct (Js.truthy uri); [|done]. simpl. intros a.
  split; [by apply same_messages_appends|].
  split_and!; try done. by destruct autoPlay.
Qed.

Lemma respects_handleSubmit r : respects (handleSubmit r).
Proof.
  unfold ConversationalAgent.handleSubmit. destruct (_ || _); [done|].
  apply respects_bind; [apply respects_setMessages; by left|]. intros _.
  apply respects_bind; [apply respects_setState; by apply same_messages_appends|]. intros _.
  apply respects_bind; [apply respects_setState; by apply same_messages_appends|]. intros _.
  apply respects_bind; [apply respects_stopCurrentAudio|]. intros _.
  apply respects_try_finally;
    [|apply respects_setState; by apply same_messages_appends].
  apply respects_try_catch.
  - apply respects_bind; [apply respects_await|]. intros response.
    apply respects_bind; [apply respects_setMessages; by right|]. intros _.
    apply respects_speak.
  - intros e. simpl. split; [|done]. intros s. eexists [_]. split; [done|].
    constructor; [by right|done].
Qed.

Lemma chat_run_ok (p : handler unit) (w : world State Call string) :
  respects p → world_ok w → appends (ui w) (ui (run p w)) ∧ world_ok (run p w).
Proof. apply run_ok; [apply _ | apply audio_only_appends | apply audio_only_refl]. Qed.

Lemma step_ok e w : world_ok w → appends (ui w) (ui (step e w)) ∧ world_ok (step e w).
Proof.
  intros Hw. destruct e as [text| | |i| |i o|a]; unfold ConversationalAgent.step.
  - apply chat_run_ok; [|done].
    apply respects_setState. by apply same_messages_appends.
  - apply chat_run_ok; [|done]. apply respects_handleSubmit.
  - destruct (send_disabled (ui w)); [done|].
    apply chat_run_ok; [|done]. apply respects_handleSubmit.
  - destruct (messages (ui w) !! i) as [m|]; [|done].
    destruct (String.eqb _ _); [|done].
    apply chat_run_ok; [|done]. apply respects_speak.
  - destruct (isPlaying (ui w)); [|done].
    apply chat_run_ok; [|done]. apply respects_stopCurrentAudio.
  - apply resolve_ok; [apply _ | apply audio_only_appends | apply audio_only_refl | done].
  - apply ended_ok;
      first [done | apply audio_only_appends | apply audio_only_refl | apply _].
Qed.

Lemma steps_ok es w : world_ok w → appends (ui w) (ui (steps es w)) ∧ world_ok (steps es w).
Proof.
  revert w. induction es as [|e es IH]; intros w Hw; simpl.
  - done.
  - destruct (step_ok e w Hw) as [H1 H2]. destruct (IH _ H2) as [H3 H4].
    split; [|done]. by etrans.
Qed.

Lemma start_ok : world_ok start.
Proof. split; constructor. Qed.

Lemma chat_pause a (w : world State Call string) :
  world_ok w → audio_only (ui w) (ui (pause a w)).
Proof. apply pause_relA. apply audio_only_refl. Qed.

Lemma handleSubmit_blank r : blank (input r) = true → handleSubmit r = Ret tt.
Proof.
  intros H. unfold ConversationalAgent.handleSubmit. by rewrite (trim_blank _ H).
Qed.

Lemma handleSubmit_loading r : loading r = true → handleSubmit r = Ret tt.
Proof.
  intros H. unfold ConversationalAgent.handleSubmit. by rewrite H, orb_true_r.
Qed.

(** A submission that passes the guard: what is sent and what the state is
    when the handler is parked at its [await]. *)
Lemma submit_sends (w : world State Call string) :
  world_ok w →
  Js.truthy (Js.trim (input (ui w))) = true → loading (ui w) = false →
  let w' := run (handleSubmit (ui w)) w in
  trace w' = trace w ++
    [Remote (StartChat (input (ui w)) currentLanguageName (messages (ui w)))]
  ∧ messages (ui w') = messages (ui w) ++ [{| role := "user"; content := input (ui w) |}]
  ∧ input (ui w') = ""
  ∧ loading (ui w') = true
  ∧ length (pending w') = Datatypes.S (length (pending w)).
Proof.
  intros Hw Hin Hl. unfold ConversationalAgent.handleSubmit.
  rewrite Hin, Hl. unfold stopCurrentAudio.
  destruct (currentAudio (ui w)) as [a|] eqn:Hca;
    cbn -[Js.slice_0_m1 pause speak]; rewrite slice_0_m1_snoc.
  - rewrite trace_pause, pending_pause. cbn.
    match goal with |- context [pause a ?w0] =>
      destruct (chat_pause a w0) as (Hm & Hi & Hlo); [exact Hw|]
    end.
    rewrite Hm. cbn. rewrite length_app. cbn. split_and!; try done. lia.
  - rewrite length_app. cbn. split_and!; try done. lia.
Qed.

(** C3: at a submission made after any run of the page, with N messages in
    the sequence, the call sent to the remote side carries as its history
    exactly those N messages, in their order; the query travels in the same
    call, and in the sequence its message is appended after the N. *)
Theorem history_is_the_prior_messages (es : list event) (submit : event) :
  submit = PressEnter ∨ submit = ClickSend →
  Js.truthy (Js.trim (input (ui (steps es start)))) = true →
  loading (ui (steps es start)) = false →
  ∃ history,
    trace (step submit (steps es start)) =
      trace (steps es start) ++
        [Remote (StartChat (input (ui (steps es start))) currentLanguageName history)]
    ∧ length history = length (messages (ui (steps es start)))
    ∧ (∀ i, history !! i = messages (ui (steps es start)) !! i)
    ∧ messages (ui (step submit (steps es start))) =
        history ++ [{| role := "user"; content := input (ui (steps es start)) |}].
Proof.
  intros Hsub Hin Hl. set (w := steps es start) in *.
  assert (world_ok w) as Hw by (apply steps_ok, start_ok).
  assert (step submit w = run (handleSubmit (ui w)) w) as ->.
  { destruct Hsub as [-> | ->]; [done|]. unfold ConversationalAgent.step, send_disabled.
    by rewrite Hl, Hin. }
  destruct (submit_sends w Hw Hin Hl) as (Htr & Hm & _).
  exists (messages (ui w)). by split_and!.
Qed.

(** C8: over any run of the page the message sequence only grows at its end
    (the sequence of an earlier moment is a prefix of that of any later one),
    and every message in it is the user's or the model's. *)
Theorem messages_are_append_only (es1 es2 : list event) :
  messages (ui (steps es1 start)) `prefix_of` messages (ui (steps es2 (steps es1 start)))
  ∧ Forall role_ok (messages (ui (steps es2 (steps es1 start)))).
Proof.
  destruct (steps_ok es1 start start_ok) as [(l1 & H1 & F1) Hw1].
  destruct (steps_ok es2 _ Hw1) as [(l2 & H2 & F2) Hw2].
  split.
  - exists l2. exact H2.
  - rewrite H2, H1. simpl. by apply Forall_app.
Qed.

(** The user sends a message and the reply arrives, so that its clip is
    being generated; the user clicks the speaker button of the reply; both
    clips arrive. *)
Definition overlapping_clips : list event :=
  [TypeInput "hi"; PressEnter; Settle 0 (Resolved "Hello");
   ClickSpeak 1;
   Settle 0 (Resolved "data:audio/wav;base64,AAAA");
   Settle 0 (Resolved "data:audio/wav;base64,BBBB")].

(** C4, the code at the failing input: after [overlapping_clips] the audio
    elements 0 and 1 are both sounding, and only the second is the
    component's current audio. *)
Theorem two_clips_sound_together :
  sounding (steps overlapping_clips start) = [0; 1]
  ∧ currentAudio (ui (steps overlapping_clips start)) = Some 1.
Proof. split; vm_compute; reflexivity. Qed.

(** The same through the submit handler alone: while a second question is
    awaiting its reply the user plays an earlier reply; the reply arrives,
    and [speak], called by the handler of the render in which nothing was
    playing, does not stop the clip that is sounding now. *)
Definition reply_during_playback : list event :=
  [TypeInput "hi"; PressEnter; Settle 0 (Resolved "Hello");
   Settle 0 (Resolved "data:audio/wav;base64,AAAA"); AudioEnded 0;
   TypeInput "more"; PressEnter;
   ClickSpeak 1; Settle 1 (Resolved "data:audio/wav;base64,BBBB");
   Settle 0 (Resolved "Sure");
   Settle 0 (Resolved "data:audio/wav;base64,CCCC")].

Lemma stale_speak_does_not_stop :
  sounding (steps (take 9 reply_during_playback) start) = [1]
  ∧ sounding (steps (take 10 reply_during_playback) start) = [1]
  ∧ sounding (steps reply_during_playback start) = [1; 2].
Proof. split_and!; vm_compute; reflexivity. Qed.

(** A submission whose call fails appends the apology of the model after the
    user's message. *)
Example failed_submission_appends :
  messages (ui (steps [TypeInput "hi"; PressEnter; Settle 0 (Rejected (RemoteError "down"))]
                  start))
  = [{| role := "user"; content := "hi" |};
     {| role := "model"; content := "Sorry, I encountered an error. Please try again." |}].
Proof. vm_compute. reflexivity. Qed.

(** What [speak] does achieve: the clip that the calling render holds as
    current is silent once [speak] has run up to its [await]. *)
Lemma speak_silences_current (w : world State Call string) a au text :
  currentAudio (ui w) = Some a → audios w !! a = Some au →
  ∃ au', audios (run (speak (ui w) text true) w) !! a = Some au' ∧ playing au' = false.
Proof.
  intros Hca Hau. unfold speak, stopCurrentAudio. rewrite Hca.
  assert (∃ au', audios (pause a w) !! a = Some au' ∧ playing au' = false) as (au' & H1 & H2).
  { unfold pause. rewrite Hau. destruct (playing au) eqn:Hp; [|eauto].
    simpl. rewrite list_lookup_alter_eq, Hau. simpl. eauto. }
  exists au'. split; [|done].
  destruct (negb (Js.truthy (Js.trim text))); cbn -[pause]; exact H1.
Qed.

End ChatFacts.

(** The theorem at the second question of a short conversation. *)
Lemma history_is_the_prior_messages_witness :
  ∃ history,
    Async.trace (ConversationalAgent.step id "English" ConversationalAgent.PressEnter
             (ConversationalAgent.steps id "English"
                (take 3 overlapping_clips ++
                   [ConversationalAgent.Settle 0 (Async.Resolved "data:audio/wav;base64,AAAA");
                    ConversationalAgent.TypeInput "and rice?"])
                ConversationalAgent.start)) =
      Async.trace (ConversationalAgent.steps id "English"
               (take 3 overlapping_clips ++
                   [ConversationalAgent.Settle 0 (Async.Resolved "data:audio/wav;base64,AAAA");
                    ConversationalAgent.TypeInput "and rice?"])
               ConversationalAgent.start) ++
        [Async.Remote (ConversationalAgent.StartChat "and rice?" "English" history)]
    ∧ length history = 2
    ∧ (∀ i, history !! i =
            [ConversationalAgent.Build_Message "user" "hi";
             ConversationalAgent.Build_Message "model" "Hello"] !! i)
    ∧ ConversationalAgent.messages
        (Async.ui (ConversationalAgent.step id "English" ConversationalAgent.PressEnter
             (ConversationalAgent.steps id "English"
                (take 3 overlapping_clips ++
                   [ConversationalAgent.Settle 0 (Async.Resolved "data:audio/wav;base64,AAAA");
                    ConversationalAgent.TypeInput "and rice?"])
                ConversationalAgent.start))) =
        history ++ [ConversationalAgent.Build_Message "user" "and rice?"].
Proof.
  apply (history_is_the_prior_messages id "English"
           (take 3 overlapping_clips ++
                   [ConversationalAgent.Settle 0 (Async.Resolved "data:audio/wav;base64,AAAA");
                    ConversationalAgent.TypeInput "and rice?"])
           ConversationalAgent.PressEnter).
  - left. reflexivity.
  - vm_compute. reflexivity.
  - vm_compute. reflexivity.
Defined.

(** ** The trend icon *)

Section TrendFacts.
Import Trend.

(** C7: each of the four directions of a market analysis result has an icon,
    and the branch without an icon is taken for no other text than one that
    is none of the four. *)
Theorem trend_icon_defined :
  (∀ d : Direction, is_Some (TrendIcon (direction_text d)))
  ∧ (∀ direction : string,
       TrendIcon direction = None ↔ ∀ d : Direction, direction ≠ direction_text d).
Proof.
  split.
  - intros []; vm_compute; eauto.
  - intros direction. unfold TrendIcon. split.
    + intros H d ->. by destruct d.
    + intros H.
      destruct (String.eqb_spec direction "Upward") as [->|_]; [by destruct (H Upward)|].
      destruct (String.eqb_spec direction "Downward") as [->|_]; [by destruct (H Downward)|].
      destruct (String.eqb_spec direction "Stable") as [->|_]; [by destruct (H Stable)|].
      destruct (String.eqb_spec direction "Volatile") as [->|_]; [by destruct (H Volatile)|].
      done.
Qed.

End TrendFacts.

(** ** The market analysis card *)

Section MarketFacts.
Import Async MarketAnalysisTool.

Variable currentLanguageName : string.
Variable valid : gmap string json → bool.

#[local] Abbreviation mstep := (MarketAnalysisTool.step currentLanguageName valid).

Definition market_failure_toast : toast_args :=
  {| variant := "destructive"; title := "Analysis Failed";
     description := "Could not fetch market analysis. The model may be temporarily unavailable. Please try again later." |}.

(** A submission of the market form whose call fails. *)
Lemma market_failure_is_caught (w : world State Call json) values e :
  loading (ui w) = false → valid values = true →
  loading (ui (mstep (SubmitForm values) w)) = true
  ∧ pending (mstep (Settle (length (pending w)) (Rejected e)) (mstep (SubmitForm values) w))
      = pending w
  ∧ ui (mstep (Settle (length (pending w)) (Rejected e)) (mstep (SubmitForm values) w))
      = {| analysis := None; loading := false |}
  ∧ trace (mstep (Settle (length (pending w)) (Rejected e)) (mstep (SubmitForm values) w))
      = trace w ++
          [Remote (MarketAnalysis (<["language" := JStr currentLanguageName]> values));
           ConsoleError "" e;
           Toast market_failure_toast].
Proof.
  intros Hl Hv. unfold MarketAnalysisTool.step. rewrite Hl, Hv.
  cbn. split; [done|].
  unfold resolve. cbn.
  rewrite lookup_app_r by done. rewrite Nat.sub_diag. cbn.
  rewrite delete_middle, app_nil_r. split_and!; try done.
  by rewrite <- !app_assoc.
Qed.

Lemma market_resubmission_is_ignored (w : world State Call json) values :
  loading (ui w) = true → mstep (SubmitForm values) w = w.
Proof. intros H. unfold MarketAnalysisTool.step. by rewrite H. Qed.

End MarketFacts.

(** ** The crop agent *)

Section CropFacts.
Import Async CurrentCropAgent.

Variable currentLanguageName : string.

#[local] Abbreviation cstep := (CurrentCropAgent.step currentLanguageName).
#[local] Abbreviation csteps := (λ es w, foldl (λ w e, cstep e w) w es).

(** The three actions that produce a result. *)
Definition is_action (e : event) : Prop :=
  match e with
  | ClickAskAgent | ClickMarketAnalysis | PostHarvestHelp _ => True
  | _ => False
  end.

(** The call that an action sends for the selected crop. *)
Definition call_of (e : event) (s : State) (crop : CurrentCrop) : Call :=
  match e with
  | ClickMarketAnalysis =>
      MarketAnalysis (cropName crop) (location crop)
        ("Provide a market analysis for " +:+ cropName crop +:+ " in " +:+ location crop)
        currentLanguageName
  | PostHarvestHelp yield => GetPostHarvestAdvice crop yield currentLanguageName
  | _ => AskCurrentCropAgent (query s) crop currentLanguageName
  end.

(** The toast that an action shows when its call fails. *)
Definition failure_toast (e : event) : toast_args :=
  match e with
  | ClickMarketAnalysis =>
      {| variant := "destructive"; title := "Analysis Failed";
         description := "Could not fetch market analysis." |}
  | PostHarvestHelp _ =>
      {| variant := "destructive"; title := "Analysis Failed";
         description := "Could not fetch post-harvest advice." |}
  | _ =>
      {| variant := "destructive"; title := "Agent Error";
         description := "The agent could not process your request." |}
  end.

(** An action gets as far as its call when a crop is selected and, for a
    question, the query is long enough, and for post-harvest help, a yield
    was entered. *)
Definition proceeds (e : event) (s : State) : bool :=
  match e with
  | ClickAskAgent =>
      negb (negb (Js.truthy (query s)) || Nat.ltb (String.length (Js.trim (query s))) 5)
  | PostHarvestHelp yield => negb (Nat.ltb (String.length yield) 1)
  | _ => true
  end.

Definition selected (s : State) : option CurrentCrop :=
  find (λ c, String.eqb (id c) (selectedCropId s)) (crops s).

Definition no_results (s : State) : Prop :=
  agentResponse s = None ∧ marketAnalysisResult s = None ∧ postHarvestResult s = None.

Lemma no_results_shown s : no_results s ↔ results_shown s = 0.
Proof.
  unfold no_results, results_shown.
  destruct (agentResponse s), (marketAnalysisResult s), (postHarvestResult s);
    simpl; naive_solver.
Qed.

(** What a parked action does when its call settles: it leaves the list of
    parked handlers alone, ends the loading state, fills at most its own
    slot, and fills none when the call failed, where it logs the error and
    shows one toast. *)
Definition completes (k : outcome json → handler unit) : Prop :=
  ∀ o (x : world State Call json),
    pending (run (k o) x) = pending x
    ∧ loadingResponse (ui (run (k o) x)) = false
    ∧ (no_results (ui x) → (results_shown (ui (run (k o) x)) ≤ 1)%nat)
    ∧ (∀ e, o = Rejected e → no_results (ui x) → no_results (ui (run (k o) x))).

(** An enabled action that proceeds: its call is sent with the three slots
    cleared and the loading state entered; the parked rest completes as
    above, and on failure ends as stated. *)
Lemma yield_parse (yield : string) :
  Zod.safeParse Schemas.postHarvestYieldSchema (JObj {[ "yield" := JStr yield ]}) =
  if Nat.ltb (String.length yield) 1
  then Zod.Err [Zod.Issue "too_small" ["yield"] "Please provide an estimated yield."]
  else Zod.Ok (JObj {[ "yield" := JStr yield ]}).
Proof.
  unfold Zod.safeParse, Schemas.postHarvestYieldSchema. rewrite parse_object.
  unfold fields, get, has_key. simpl map. rewrite lookup_singleton_eq. simpl.
  destruct (Nat.ltb (String.length yield) 1); simpl; [done|].
  by rewrite insert_empty.
Qed.

Lemma submitYield_entered r c yield :
  submitYield currentLanguageName r (String c yield) =
  (setState (upd_yieldError None) ;;
   handlePostHarvestHelp currentLanguageName r (String c yield)).
Proof.
  unfold submitYield. rewrite yield_parse. simpl.
  unfold get. by rewrite lookup_singleton_eq.
Qed.

Lemma submitYield_empty r :
  submitYield currentLanguageName r "" =
  setState (upd_yieldError (Some "Please provide an estimated yield.")).
Proof. unfold submitYield. by rewrite yield_parse. Qed.

(** Goals about the three slots of a state built by the setters. *)
Ltac slots_tac :=
  intros (H1 & H2 & H3); unfold results_shown; cbn;
  rewrite ?H1, ?H2, ?H3; simpl; lia.

Lemma action_sends (w : world State Call json) a crop :
  is_action a → controls_disabled (ui w) = false →
  selected (ui w) = Some crop → proceeds a (ui w) = true →
  ∃ k,
    pending (cstep a w) = pending w ++ [k]
    ∧ trace (cstep a w) = trace w ++ [Remote (call_of a (ui w) crop)]
    ∧ loadingResponse (ui (cstep a w)) = true
    ∧ no_results (ui (cstep a w))
    ∧ completes k
    ∧ ∀ e (x : world State Call json),
        trace (run (k (Rejected e)) x) =
          trace x ++ [ConsoleError "" e; Toast (failure_toast a)].
Proof.
  intros Ha Hen Hsel Hgo. unfold selected in Hsel.
  destruct a; try done; unfold CurrentCropAgent.step; rewrite Hen.
  - unfold onQuerySubmit, getSelectedCrop. rewrite Hsel. cbn in Hgo.
    apply negb_true_iff in Hgo. cbn. rewrite Hgo. cbn.
    eexists. do 4 (split; [done|]). split.
    + intros [r|e] x; cbn; split_and!; try done; slots_tac.
    + intros e x. cbn. by rewrite <- app_assoc.
  - unfold handleMarketAnalysis, getSelectedCrop. rewrite Hsel. cbn.
    eexists. do 4 (split; [done|]). split.
    + intros [r|e] x; cbn; split_and!; try done; slots_tac.
    + intros e x. cbn. by rewrite <- app_assoc.
  - destruct yield as [|c yield]; [done|]. rewrite submitYield_entered.
    unfold handlePostHarvestHelp, getSelectedCrop. rewrite Hsel. cbn.
    eexists. do 4 (split; [done|]). split.
    + intros [r|e] x; cbn; split_and!; try done; slots_tac.
    + intros e x. cbn. by rewrite <- app_assoc.
Qed.

Lemma action_disabled (w : world State Call json) a :
  is_action a → controls_disabled (ui w) = true → cstep a w = w.
Proof. intros Ha H. destruct a; try done; unfold CurrentCropAgent.step; by rewrite H. Qed.

Lemma remote_calls_snoc_toast (tr : list (effect Call)) tt :
  remote_calls (tr ++ [Toast tt]) = remote_calls tr.
Proof. unfold remote_calls. rewrite omap_app. simpl. by rewrite app_nil_r. Qed.

(** The slots that the result of an action is shown from, and the loading
    flag. *)
Definition display (s : State) : bool * option json * option json * option json :=
  (loadingResponse s, agentResponse s, marketAnalysisResult s, postHarvestResult s).

(** An enabled action that does not proceed sends nothing and leaves the
    display as it is. *)
Lemma action_stops (w : world State Call json) a :
  is_action a → controls_disabled (ui w) = false →
  selected (ui w) = None ∨ proceeds a (ui w) = false →
  pending (cstep a w) = pending w
  ∧ remote_calls (trace (cstep a w)) = remote_calls (trace w)
  ∧ display (ui (cstep a w)) = display (ui w).
Proof.
  intros Ha Hen Hstop. unfold selected in Hstop.
  destruct a; try done; unfold CurrentCropAgent.step; rewrite Hen.
  - unfold onQuerySubmit, getSelectedCrop.
    destruct (find _ _) as [crop|] eqn:Hsel.
    + destruct Hstop as [|Hgo]; [done|]. cbn in Hgo. apply negb_false_iff in Hgo.
      cbn. rewrite Hgo. done.
    + cbn -[remote_calls]. by rewrite remote_calls_snoc_toast.
  - unfold handleMarketAnalysis, getSelectedCrop.
    destruct (find _ _) as [crop|] eqn:Hsel.
    + by destruct Hstop.
    + cbn -[remote_calls]. by rewrite remote_calls_snoc_toast.
  - destruct yield as [|c yield]; [by rewrite submitYield_empty|].
    rewrite submitYield_entered. unfold handlePostHarvestHelp, getSelectedCrop.
    destruct (find _ _) as [crop|] eqn:Hsel.
    + by destruct Hstop.
    + cbn -[remote_calls]. by rewrite remote_calls_snoc_toast.
Qed.

Lemma short_query_stops s :
  (String.length (query s) < 5)%nat → proceeds ClickAskAgent s = false.
Proof.
  intros H. cbn. apply negb_false_iff, orb_true_iff. right.
  apply Nat.leb_le. pose proof (trim_length (query s)). lia.
Qed.

(** The state of the page between events: either nothing is parked, nothing
    is loading and at most one slot is filled; or one action is parked, the
    page is loading and no slot is filled. *)
Definition inv (w : world State Call json) : Prop :=
  match pending w with
  | [] => loadingResponse (ui w) = false ∧ (results_shown (ui w) ≤ 1)%nat
  | [k] => loadingResponse (ui w) = true ∧ no_results (ui w) ∧ completes k
  | _ => False
  end.

Lemma inv_display (w w' : world State Call json) :
  pending w' = pending w → display (ui w') = display (ui w) → inv w → inv w'.
Proof.
  unfold inv, display, no_results, results_shown. intros -> [= -> -> -> ->]. done.
Qed.

Lemma step_inv e w : inv w → inv (cstep e w).
Proof.
  intros Hinv.
  assert (is_action e ∨ ¬ is_action e) as [Ha|Hna] by (destruct e; simpl; tauto).
  - destruct (controls_disabled (ui w)) eqn:Hen; [by rewrite action_disabled|].
    assert (pending w = []) as Hp.
    { unfold inv in Hinv. unfold controls_disabled in Hen.
      apply orb_false_iff in Hen as [Hl _].
      destruct (pending w) as [|k [|k' ps]]; [done| |done].
      destruct Hinv as [Hinv _]. congruence. }
    destruct (selected (ui w)) as [crop|] eqn:Hsel; [destruct (proceeds e (ui w)) eqn:Hgo|].
    + destruct (action_sends w e crop Ha Hen Hsel Hgo) as (k & H1 & _ & H3 & H4 & H5 & _).
      unfold inv. rewrite H1, Hp. simpl. done.
    + destruct (action_stops w e Ha Hen) as (H1 & _ & H3); [by right|].
      by apply (inv_display w).
    + destruct (action_stops w e Ha Hen) as (H1 & _ & H3); [by left|].
      by apply (inv_display w).
  - destruct e as [fetched|i|text| | |y|i o]; try (by destruct Hna).
    + by apply (inv_display w).
    + unfold CurrentCropAgent.step. destruct (crops (ui w) !! i); [|done].
      by apply (inv_display w).
    + by apply (inv_display w).
    + unfold CurrentCropAgent.step, resolve.
      destruct (pending w !! i) as [k'|] eqn:Hi; [|done].
      unfold inv in Hinv.
      destruct (pending w) as [|k [|k'' ps]] eqn:Hp; [done| |done].
      destruct i as [|i]; [|done]. injection Hi as <-.
      destruct Hinv as (Hl & Hno & Hk).
      destruct (Hk o (with_pending (delete 0) w)) as (H1 & H2 & H3 & _).
      unfold inv. rewrite H1. simpl. rewrite Hp. simpl. split; [done|]. by apply H3.
Qed.

Lemma steps_inv es w : inv w → inv (csteps es w).
Proof.
  revert w. induction es as [|e es IH]; intros w Hw; simpl; [done|].
  apply IH, step_inv, Hw.
Qed.

Lemma start_inv : inv start.
Proof. split; [done|]. cbn. lia. Qed.

Lemma inv_at_most_one w : inv w → (results_shown (ui w) ≤ 1)%nat.
Proof.
  unfold inv. destruct (pending w) as [|k [|k' ps]]; [naive_solver| |done].
  intros (_ & H & _). apply no_results_shown in H. lia.
Qed.

(** *** The selected crop

    No handler touches the list of crops, the selection or the query. *)

Definition keeps_form (s s' : State) : Prop :=
  crops s' = crops s ∧ selectedCropId s' = selectedCropId s ∧ query s' = query s.

#[local] Instance keeps_form_preorder : PreOrder keeps_form.
Proof.
  split.
  - done.
  - intros s1 s2 s3 (H1 & H2 & H3) (H4 & H5 & H6). unfold keeps_form. split_and!; congruence.
Qed.

#[local] Abbreviation form_respects := (respects keeps_form (@eq State)).
#[local] Abbreviation form_ok := (world_ok keeps_form (@eq State)).

Lemma respects_clearResults : form_respects (clearResults : handler unit).
Proof. cbn. by split_and!. Qed.

Lemma respects_getSelectedCrop r {A} (k : option CurrentCrop → handler A) :
  (∀ c, form_respects (k c)) → form_respects (getSelectedCrop r ≫= k).
Proof.
  intros Hk. unfold getSelectedCrop. destruct (find _ _); cbn; apply Hk.
Qed.

Lemma respects_action r a :
  is_action a →
  form_respects
    match a with
    | ClickAskAgent => onQuerySubmit currentLanguageName r
    | ClickMarketAnalysis => handleMarketAnalysis currentLanguageName r
    | PostHarvestHelp yield => submitYield currentLanguageName r yield
    | _ => Ret tt
    end.
Proof.
  intros Ha. destruct a; try done.
  - unfold onQuerySubmit. apply respects_getSelectedCrop. intros [crop|]; [|done].
    cbn beta zeta iota.
    destruct (negb (Js.truthy (query r)) || _); [by split|].
    cbn. split_and!; try done. intros [r'|e]; cbn; by split_and!.
  - apply respects_getSelectedCrop. intros [crop|]; [|done].
    cbn. split_and!; try done. intros [r'|e]; cbn; by split_and!.
  - destruct yield as [|c yield]; [rewrite submitYield_empty; by split|].
    rewrite submitYield_entered. cbn. split; [done|].
    apply respects_getSelectedCrop. intros [crop|]; [|done].
    cbn. split_and!; try done. intros [r'|e]; cbn; by split_and!.
Qed.

(** While there are crops to choose from, one of them is selected. *)
Definition selection_ok (s : State) : Prop :=
  crops s = [] ∨ ∃ crop, selected s = Some crop.

Lemma selection_ok_keeps s s' : keeps_form s s' → selection_ok s → selection_ok s'.
Proof.
  intros (H1 & H2 & _). unfold selection_ok, selected. by rewrite H1, H2.
Qed.

Lemma find_id_elem (l : list CurrentCrop) c :
  c ∈ l → ∃ crop, find (λ x, String.eqb (id x) (id c)) l = Some crop.
Proof.
  induction 1 as [c l|c c' l Hin IH]; simpl.
  - rewrite String.eqb_refl. eauto.
  - destruct (String.eqb (id c') (id c)); eauto.
Qed.

Lemma form_run_ok (p : handler unit) (w : world State Call json) :
  form_respects p → form_ok w → keeps_form (ui w) (ui (run p w)) ∧ form_ok (run p w).
Proof. apply run_ok; [apply _ | by intros ? ? -> | done]. Qed.

Lemma form_resolve_ok i o (w : world State Call json) :
  form_ok w → keeps_form (ui w) (ui (resolve i o w)) ∧ form_ok (resolve i o w).
Proof. apply resolve_ok; [apply _ | by intros ? ? -> | done]. Qed.

Lemma form_step e w :
  form_ok w → selection_ok (ui w) → form_ok (cstep e w) ∧ selection_ok (ui (cstep e w)).
Proof.
  intros Hw Hsel.
  assert (∀ p : handler unit, form_respects p →
            form_ok (run p w) ∧ selection_ok (ui (run p w))) as Hrun.
  { intros p Hp. destruct (form_run_ok p w Hp Hw) as [H1 H2].
    split; [done|]. by eapply selection_ok_keeps. }
  destruct e as [fetched|i|text| | |y|i o]; unfold CurrentCropAgent.step.
  - split; [done|]. unfold selection_ok, selected. simpl.
    destruct fetched as [|c l]; [by left|]. right. simpl.
    rewrite String.eqb_refl. eauto.
  - destruct (crops (ui w) !! i) as [c|] eqn:Hi; [|done]. split; [done|].
    right. unfold selected. simpl. apply find_id_elem. by eapply list_elem_of_lookup_2.
  - split; [done|]. done.
  - destruct (controls_disabled (ui w)); [done|].
    by apply Hrun, (respects_action _ ClickAskAgent).
  - destruct (controls_disabled (ui w)); [done|].
    by apply Hrun, (respects_action _ ClickMarketAnalysis).
  - destruct (controls_disabled (ui w)); [done|].
    by apply Hrun, (respects_action _ (PostHarvestHelp y)).
  - destruct (form_resolve_ok i o w Hw) as [H1 H2].
    split; [done|]. by eapply selection_ok_keeps.
Qed.

Lemma form_steps es w :
  form_ok w → selection_ok (ui w) → form_ok (csteps es w) ∧ selection_ok (ui (csteps es w)).
Proof.
  revert w. induction es as [|e es IH]; intros w Hw Hsel; simpl; [done|].
  destruct (form_step e w Hw Hsel) as [H1 H2]. by apply IH.
Qed.

(** On a page reached from the start, enabled controls come with a selected
    crop. *)
Lemma enabled_has_selection es :
  controls_disabled (ui (csteps es start)) = false →
  ∃ crop, selected (ui (csteps es start)) = Some crop.
Proof.
  intros Hen. destruct (form_steps es start) as [_ [Hnil|Hsel]].
  - split; constructor.
  - by left.
  - unfold controls_disabled in Hen. rewrite Hnil in Hen. simpl in Hen.
    by rewrite orb_true_r in Hen.
  - done.
Qed.

End CropFacts.

(** ** The life of a submission, across the components *)

Section Submissions.
Import Async.

Variable t : string → string.
Variable currentLanguageName : string.
Variable valid : gmap string json → bool.

#[local] Abbreviation chat_step := (ConversationalAgent.step t currentLanguageName).
#[local] Abbreviation crop_step := (CurrentCropAgent.step currentLanguageName).
#[local] Abbreviation crop_steps :=
  (λ es w, foldl (λ w e, CurrentCropAgent.step currentLanguageName e w) w es).
#[local] Abbreviation market_step := (MarketAnalysisTool.step currentLanguageName valid).

(** C5: when the call of a submission fails (in the market analysis card,
    and for each of the three actions of the crop agent, post-harvest help
    among them), the handler that was parked at the call ends normally: the
    error is written to the console and one toast with a fixed text is
    shown, the loading state is left with no result in any slot, nothing is
    left parked and no further call is sent; no error leaves the handler. *)
Theorem flow_failure_is_caught :
  (∀ (w : world MarketAnalysisTool.State MarketAnalysisTool.Call json) values e,
     MarketAnalysisTool.loading (ui w) = false → valid values = true →
     MarketAnalysisTool.loading (ui (market_step (MarketAnalysisTool.SubmitForm values) w))
       = true
     ∧ pending (market_step (MarketAnalysisTool.Settle (length (pending w)) (Rejected e))
                  (market_step (MarketAnalysisTool.SubmitForm values) w))
         = pending w
     ∧ ui (market_step (MarketAnalysisTool.Settle (length (pending w)) (Rejected e))
             (market_step (MarketAnalysisTool.SubmitForm values) w))
         = {| MarketAnalysisTool.analysis := None; MarketAnalysisTool.loading := false |}
     ∧ trace (market_step (MarketAnalysisTool.Settle (length (pending w)) (Rejected e))
                (market_step (MarketAnalysisTool.SubmitForm values) w))
         = trace w ++
             [Remote (MarketAnalysisTool.MarketAnalysis
                        (<["language" := JStr currentLanguageName]> values));
              ConsoleError "" e;
              Toast market_failure_toast])
  ∧ (∀ (w : world CurrentCropAgent.State CurrentCropAgent.Call json) a crop e,
       is_action a → CurrentCropAgent.controls_disabled (ui w) = false →
       selected (ui w) = Some crop → proceeds a (ui w) = true →
       CurrentCropAgent.loadingResponse (ui (crop_step a w)) = true
       ∧ pending (crop_step (CurrentCropAgent.Settle (length (pending w)) (Rejected e))
                    (crop_step a w))
           = pending w
       ∧ CurrentCropAgent.loadingResponse
           (ui (crop_step (CurrentCropAgent.Settle (length (pending w)) (Rejected e))
                  (crop_step a w)))
           = false
       ∧ no_results
           (ui (crop_step (CurrentCropAgent.Settle (length (pending w)) (Rejected e))
                  (crop_step a w)))
       ∧ trace (crop_step (CurrentCropAgent.Settle (length (pending w)) (Rejected e))
                  (crop_step a w))
           = trace w ++
               [Remote (call_of currentLanguageName a (ui w) crop);
                ConsoleError "" e;
                Toast (failure_toast a)]).
Proof.
  split.
  - intros w values e Hl Hv. by apply market_failure_is_caught.
  - intros w a crop e Ha Hen Hsel Hgo.
    destruct (action_sends currentLanguageName w a crop Ha Hen Hsel Hgo)
      as (k & Hp & Htr & Hl & Hno & Hk & Hfail).
    split; [done|].
    unfold CurrentCropAgent.step at 1 3 5 7. unfold resolve.
    rewrite Hp, lookup_app_r by done. rewrite Nat.sub_diag. simpl.
    destruct (Hk (Rejected e)
                (with_pending (delete (length (pending w))) (crop_step a w)))
      as (H1 & H2 & _ & H4).
    rewrite H1, H2, Hfail. simpl. rewrite Hp, Htr, delete_middle, app_nil_r.
    split_and!; try done.
    + by apply (H4 e).
    + by rewrite <- app_assoc.
Qed.

(** C6: while the loading flag of a component is set, a further submit
    attempt changes nothing on the page and sends nothing: in the chat both
    through the send button and through the Enter key (the handler returns at
    once), in the crop agent through each of its three buttons, and in the
    market card through its submit button (the buttons are disabled). *)
Theorem resubmission_is_ignored :
  (∀ w : world ConversationalAgent.State ConversationalAgent.Call string,
     ConversationalAgent.loading (ui w) = true →
     chat_step ConversationalAgent.PressEnter w = w
     ∧ chat_step ConversationalAgent.ClickSend w = w)
  ∧ (∀ (w : world CurrentCropAgent.State CurrentCropAgent.Call json) a,
       is_action a → CurrentCropAgent.loadingResponse (ui w) = true →
       crop_step a w = w)
  ∧ (∀ (w : world MarketAnalysisTool.State MarketAnalysisTool.Call json) values,
       MarketAnalysisTool.loading (ui w) = true →
       market_step (MarketAnalysisTool.SubmitForm values) w = w).
Proof.
  split_and!.
  - intros w Hl. unfold ConversationalAgent.step, ConversationalAgent.send_disabled.
    rewrite Hl. simpl. by rewrite handleSubmit_loading.
  - intros w a Ha Hl. apply action_disabled; [done|].
    unfold CurrentCropAgent.controls_disabled. by rewrite Hl.
  - intros w values Hl. by apply market_resubmission_is_ignored.
Qed.

(** C9: on every page reached from the start at most one of the three result
    slots is filled; an action that sends a call has cleared all three by
    then; and when a parked call fails all three are empty afterwards. *)
Theorem at_most_one_result_shown (es : list CurrentCropAgent.event) :
  (CurrentCropAgent.results_shown (ui (crop_steps es CurrentCropAgent.start)) ≤ 1)%nat
  ∧ (∀ a, is_action a →
       remote_calls (trace (crop_step a (crop_steps es CurrentCropAgent.start)))
         ≠ remote_calls (trace (crop_steps es CurrentCropAgent.start)) →
       no_results (ui (crop_step a (crop_steps es CurrentCropAgent.start))))
  ∧ (∀ i e, is_Some (pending (crop_steps es CurrentCropAgent.start) !! i) →
       no_results
         (ui (crop_step (CurrentCropAgent.Settle i (Rejected e))
                (crop_steps es CurrentCropAgent.start)))).
Proof.
  pose proof (steps_inv currentLanguageName es _ start_inv) as Hinv.
  set (w := crop_steps es CurrentCropAgent.start) in *.
  split_and!.
  - by apply inv_at_most_one.
  - intros a Ha Hsent.
    destruct (CurrentCropAgent.controls_disabled (ui w)) eqn:Hen;
      [by rewrite action_disabled in Hsent|].
    destruct (selected (ui w)) as [crop|] eqn:Hsel;
      [destruct (proceeds a (ui w)) eqn:Hgo|].
    + by destruct (action_sends currentLanguageName w a crop Ha Hen Hsel Hgo)
        as (k & _ & _ & _ & Hno & _).
    + destruct (action_stops currentLanguageName w a Ha Hen) as (_ & H & _);
        [by right | done].
    + destruct (action_stops currentLanguageName w a Ha Hen) as (_ & H & _);
        [by left | done].
  - intros i e [k Hi]. unfold CurrentCropAgent.step, resolve. rewrite Hi.
    unfold inv in Hinv.
    destruct (pending w) as [|k' [|k'' ps]] eqn:Hp; [done| |done].
    destruct i as [|i]; [|done]. injection Hi as <-.
    destruct Hinv as (_ & Hno & Hk).
    destruct (Hk (Rejected e) (with_pending (delete 0) w)) as (_ & _ & _ & H4).
    by apply (H4 e).
Qed.

(** C10: a chat submission whose input is empty or all whitespace leaves the
    page exactly as it was (no message, no call, no change of state); and on
    any page of the crop agent reached from the start, a click on the enabled
    Ask Agent button with a query of fewer than five characters only sets the
    error of the query field: nothing is sent and nothing else changes. *)
Theorem blank_or_short_input_is_refused :
  (∀ w : world ConversationalAgent.State ConversationalAgent.Call string,
     blank (ConversationalAgent.input (ui w)) = true →
     chat_step ConversationalAgent.PressEnter w = w
     ∧ chat_step ConversationalAgent.ClickSend w = w)
  ∧ (∀ es : list CurrentCropAgent.event,
       (String.length (CurrentCropAgent.query (ui (crop_steps es CurrentCropAgent.start))) < 5)%nat →
       CurrentCropAgent.controls_disabled (ui (crop_steps es CurrentCropAgent.start)) = false →
       crop_step CurrentCropAgent.ClickAskAgent (crop_steps es CurrentCropAgent.start)
       = with_ui (CurrentCropAgent.upd_queryError
                    (Some "Please enter a question with at least 5 characters."))
           (crop_steps es CurrentCropAgent.start)).
Proof.
  split.
  - intros w Hb. unfold ConversationalAgent.step. rewrite handleSubmit_blank by done.
    simpl. by destruct (ConversationalAgent.send_disabled (ui w)).
  - intros es Hlen Hen. set (w := crop_steps es CurrentCropAgent.start) in *.
    destruct (enabled_has_selection currentLanguageName es Hen) as [crop Hsel].
    fold w in Hsel. pose proof (short_query_stops _ Hlen) as Hgo.
    unfold CurrentCropAgent.step. rewrite Hen.
    unfold CurrentCropAgent.onQuerySubmit, CurrentCropAgent.getSelectedCrop.
    unfold selected in Hsel. rewrite Hsel. cbn in Hgo. apply negb_false_iff in Hgo.
    cbn. rewrite Hgo. done.
Qed.

End Submissions.

(** ** The theorems on a small farm

    One crop, a failing remote side, and the pages the theorems speak
    about. *)

Definition tomato_crop : CurrentCropAgent.CurrentCrop :=
  {| CurrentCropAgent.id := "c1"; CurrentCropAgent.cropName := "Tomato";
     CurrentCropAgent.fieldSize := "2 acres"; CurrentCropAgent.location := "Pune";
     CurrentCropAgent.sowingDate := "2024-01-10";
     CurrentCropAgent.additionalInfo := None |}.

(** The crop list has arrived and a short query was typed. *)
Definition crop_page :
  Async.world CurrentCropAgent.State CurrentCropAgent.Call json :=
  foldl (λ w e, CurrentCropAgent.step "English" e w) CurrentCropAgent.start
    [CurrentCropAgent.CropsFetched [tomato_crop]; CurrentCropAgent.TypeQuery "pH?"].

Definition market_page :
  Async.world MarketAnalysisTool.State MarketAnalysisTool.Call json :=
  Async.World MarketAnalysisTool.initial [] [] [].

Definition market_values : gmap string json :=
  list_to_map [("commodity", JStr "Tomato"); ("location", JStr "Pune");
               ("query", JStr "What is the price of tomatoes in Pune today?")].

(** The chat while its first question awaits the reply. *)
Definition chat_waiting :
  Async.world ConversationalAgent.State ConversationalAgent.Call string :=
  ConversationalAgent.steps id "English" (take 2 overlapping_clips)
    ConversationalAgent.start.

(** C5 on the market card and on post-harvest help for the tomato crop. *)
Lemma flow_failure_is_caught_witness :
  Async.trace
    (MarketAnalysisTool.step "English" (λ _, true)
       (MarketAnalysisTool.Settle 0 (Async.Rejected (RemoteError "unavailable")))
       (MarketAnalysisTool.step "English" (λ _, true)
          (MarketAnalysisTool.SubmitForm market_values) market_page))
  = [Async.Remote (MarketAnalysisTool.MarketAnalysis
                     (<["language" := JStr "English"]> market_values));
     Async.ConsoleError "" (RemoteError "unavailable");
     Async.Toast market_failure_toast]
  ∧ no_results
      (Async.ui
         (CurrentCropAgent.step "English"
            (CurrentCropAgent.Settle 0 (Async.Rejected (RemoteError "unavailable")))
            (CurrentCropAgent.step "English"
               (CurrentCropAgent.PostHarvestHelp "10 tonnes") crop_page))).
Proof.
  split.
  - destruct (proj1 (flow_failure_is_caught "English" (λ _, true))
                market_page market_values (RemoteError "unavailable"))
      as (_ & _ & _ & H); [reflexivity | reflexivity | exact H].
  - destruct (proj2 (flow_failure_is_caught "English" (λ _, true))
                crop_page (CurrentCropAgent.PostHarvestHelp "10 tonnes") tomato_crop
                (RemoteError "unavailable"))
      as (_ & _ & _ & H & _); [exact I | reflexivity | reflexivity | reflexivity | exact H].
Defined.

(** C6 on the chat that is waiting for its reply. *)
Lemma resubmission_is_ignored_witness :
  ConversationalAgent.step id "English" ConversationalAgent.PressEnter chat_waiting
    = chat_waiting
  ∧ ConversationalAgent.step id "English" ConversationalAgent.ClickSend chat_waiting
    = chat_waiting.
Proof.
  apply (proj1 (resubmission_is_ignored id "English" (λ _, true)) chat_waiting).
  vm_compute. reflexivity.
Defined.

(** C10 on a chat input of three spaces and on the query "pH?". *)
Lemma blank_or_short_input_is_refused_witness :
  (ConversationalAgent.step id "English" ConversationalAgent.PressEnter
     (ConversationalAgent.steps id "English" [ConversationalAgent.TypeInput "   "]
        ConversationalAgent.start)
   = ConversationalAgent.steps id "English" [ConversationalAgent.TypeInput "   "]
       ConversationalAgent.start)
  ∧ CurrentCropAgent.step "English" CurrentCropAgent.ClickAskAgent crop_page
    = Async.with_ui
        (CurrentCropAgent.upd_queryError
           (Some "Please enter a question with at least 5 characters."))
        crop_page.
Proof.
  split.
  - apply (proj1 (blank_or_short_input_is_refused id "English")
             (ConversationalAgent.steps id "English" [ConversationalAgent.TypeInput "   "]
                ConversationalAgent.start)).
    reflexivity.
  - apply (proj2 (blank_or_short_input_is_refused id "English")
             [CurrentCropAgent.CropsFetched [tomato_crop];
              CurrentCropAgent.TypeQuery "pH?"]).
    + vm_compute. lia.
    + reflexivity.
Defined.

(** A question that is long enough is sent for the selected crop, and its
    answer fills the agent's slot only. *)
Example question_answered :
  let asked :=
    CurrentCropAgent.step "English" CurrentCropAgent.ClickAskAgent
      (CurrentCropAgent.step "English"
         (CurrentCropAgent.TypeQuery "When should I apply fertilizer?") crop_page) in
  Async.trace asked =
    [Async.Remote (CurrentCropAgent.AskCurrentCropAgent
                     "When should I apply fertilizer?" tomato_crop "English")]
  ∧ CurrentCropAgent.loadingResponse (Async.ui asked) = true
  ∧ display (Async.ui (CurrentCropAgent.step "English"
                         (CurrentCropAgent.Settle 0 (Async.Resolved (JStr "In a week.")))
                         asked))
    = (false, Some (JStr "In a week."), None, None).
Proof. vm_compute. done. Qed.

(** * Further properties *)

(** ** The initials of the user *)

Section InitialsFacts.
Import JsText Initials.

Fixpoint space_free (s : string) : bool :=
  match s with
  | EmptyString => true
  | String c r => negb (Ascii.eqb c " ") && space_free r
  end.

Lemma split_space_word w : space_free w = true → split_space w = [w].
Proof.
  induction w as [|c r IH]; simpl; [done|].
  intros [Hc Hr]%andb_prop. apply negb_true_iff in Hc. rewrite Hc, (IH Hr). done.
Qed.

Lemma split_space_cons w rest :
  space_free w = true →
  split_space (w +:+ String " " rest) = w :: split_space rest.
Proof.
  induction w as [|c r IH]; simpl; [done|].
  intros [Hc Hr]%andb_prop. apply negb_true_iff in Hc. rewrite Hc, (IH Hr). done.
Qed.

(** Splitting undoes joining with single spaces. *)
Lemma split_space_concat ws :
  ws ≠ [] → Forall (λ w, space_free w = true) ws →
  split_space (String.concat " " ws) = ws.
Proof.
  induction ws as [|w [|w' ws] IH]; intros Hne Hsf; [done| |].
  - simpl. apply split_space_word. by inversion Hsf.
  - inversion Hsf as [|? ? Hw Hrest]; subst.
    change (String.concat " " (w :: w' :: ws))
      with (w +:+ String " " (String.concat " " (w' :: ws))).
    rewrite split_space_cons by done. f_equal. by apply IH.
Qed.

Lemma toUpperCase_length s : String.length (toUpperCase s) = String.length s.
Proof. induction s; simpl; congruence. Qed.

Lemma append_empty_r (s : string) : s +:+ "" = s.
Proof.
  induction s as [|a s IH]; [reflexivity|].
  change (String a (s +:+ "") = String a s). by rewrite IH.
Qed.

Lemma concat_empty_cons x l : String.concat "" (x :: l) = x +:+ String.concat "" l.
Proof. destruct l; simpl; [by rewrite append_empty_r | done]. Qed.

Lemma join_first_chars_length ws :
  String.length (join_empty (map first_char ws))
  = length (filter (λ w, w ≠ "") ws).
Proof.
  unfold join_empty. induction ws as [|w ws IH]; [done|].
  rewrite map_cons, concat_empty_cons, filter_cons.
  destruct w as [|c r]; case_decide; try done.
  - change (Datatypes.S (String.length (String.concat "" (map first_char ws)))
            = Datatypes.S (length (filter (λ w, w ≠ "") ws))).
    by rewrite IH.
Qed.

(** X1: the initials of a name written as words with one space between any two
    (an empty word stands for a doubled, leading or trailing space): the
    upper-cased first characters of the non-empty words, in order, one per
    such word; the fallback U is given for no name and for the empty name
    only. *)
Theorem getInitials_of_words (ws : list string) :
  Forall (λ w, space_free w = true ∧ ascii_only w = true) ws →
  String.concat " " ws ≠ "" →
  getInitials (Some (String.concat " " ws))
    = toUpperCase (join_empty (map first_char ws))
  ∧ String.length (getInitials (Some (String.concat " " ws)))
    = length (filter (λ w, w ≠ "") ws).
Proof.
  intros Hws Hne.
  assert (ws ≠ []) as Hnil by (by intros ->).
  assert (getInitials (Some (String.concat " " ws))
          = toUpperCase (join_empty (map first_char ws))) as Heq.
  { unfold getInitials. destruct (String.concat " " ws) eqn:E; [done|].
    simpl negb. cbv iota. rewrite <- E, split_space_concat; [done|done|].
    eapply Forall_impl; [exact Hws|]. by intros w [H _]. }
  split; [exact Heq|]. by rewrite Heq, toUpperCase_length, join_first_chars_length.
Qed.

Lemma getInitials_of_words_witness :
  getInitials (Some "asha  devi") = "AD"
  ∧ String.length (getInitials (Some "asha  devi")) = 2.
Proof.
  apply (getInitials_of_words ["asha"; ""; "devi"]).
  - repeat constructor.
  - discriminate.
Defined.

(** Without a name, or with the empty one, the fallback; with spaces only,
    nothing at all. *)
Example getInitials_edges :
  getInitials None = "U" ∧ getInitials (Some "") = "U" ∧ getInitials (Some "   ") = "".
Proof. by split_and!. Qed.

End InitialsFacts.

(** ** The language name *)

Section LanguageFacts.
Import I18n.

Lemma first_word_space_free s : space_free (Js.first_word s) = true.
Proof.
  induction s as [|c r IH]; simpl; [done|].
  destruct (Ascii.eqb c " ") eqn:E; simpl; [done|]. by rewrite E.
Qed.

(** X2: the language name sent with a request is never empty and has no space in
    it, whatever the table and the locale; for a locale that the table does
    not list it is English. *)
Theorem currentLanguageName_is_a_word (languages : list language) (locale : string) :
  currentLanguageName languages locale ≠ ""
  ∧ space_free (currentLanguageName languages locale) = true
  ∧ (Forall (λ l, code l ≠ locale) languages →
     currentLanguageName languages locale = "English").
Proof.
  unfold currentLanguageName.
  destruct (find (λ l, String.eqb (code l) locale) languages) as [l|] eqn:Hf.
  - destruct (Js.truthy (Js.first_word (name l))) eqn:Ht.
    + split_and!.
      * intros E. by rewrite E in Ht.
      * apply first_word_space_free.
      * intros Hall. apply find_some in Hf as [Hin Heq].
        apply String.eqb_eq in Heq. rewrite Forall_forall in Hall.
        destruct (Hall l); [by apply list_elem_of_In | done].
    + by split_and!.
  - by split_and!.
Qed.

End LanguageFacts.

(** ** The rendered post-harvest advice and the request behind it *)

Section AdviceFacts.
Import Zod Schemas Async PostHarvestView.

Lemma accepted_advice_strings reply (advice : gmap string json) :
  safeParse PostHarvestOutputSchema reply = Ok (JObj advice) →
  ∀ k, k ∈ adviceFields → ∃ s, advice !! k = Some (JStr s).
Proof.
  unfold safeParse. rewrite PostHarvestOutputSchema_strings.
  destruct reply as [| | | | |l|data]; try done.
  rewrite parse_object.
  destruct (mergeObjectSync (fields [] data (strings_shape adviceFields)))
    as [obj iss] eqn:E.
  destruct (merge_strings _ _ _ _ _ E) as [H1 _].
  destruct iss; [|done]. intros [= <-] k Hk.
  destruct (H1 eq_refl) as (Ha & _ & Hc).
  destruct (Ha k Hk) as [s Hs]. exists s. by rewrite Hc.
Qed.

(** X3: whatever advice the output schema has accepted, the accordion shows the
    eight sections in the order of the schema, the first of them open, each
    with its icon and with a text as its content: no section is printed from
    a missing property and none lacks its icon. *)
Theorem rendered_advice_is_complete reply (advice : gmap string json) :
  safeParse PostHarvestOutputSchema reply = Ok (JObj advice) →
  map value (items (renderPostHarvestAdvice advice)) = adviceFields
  ∧ head adviceFields = Some (defaultValue (renderPostHarvestAdvice advice))
  ∧ Forall (λ item, is_Some (icon item)
                    ∧ ∃ s, content item = JStr s
                           ∧ advice !! value item = Some (JStr s))
      (items (renderPostHarvestAdvice advice)).
Proof.
  intros Hok. split; [done|]. split; [done|].
  pose proof (accepted_advice_strings reply advice Hok) as Hs.
  cbv beta iota delta [renderPostHarvestAdvice items].
  apply Forall_fmap, Forall_forall.
  intros item Hin. unfold adviceEntries in Hin.
  assert (key item ∈ adviceFields ∧ is_Some (postHarvestIcons !! key item)) as [Hk Hi].
  { repeat (apply elem_of_cons in Hin as [->|Hin]);
      [split; [unfold adviceFields; set_solver | vm_compute; eauto] ..|].
    by apply elem_of_nil in Hin. }
  simpl. split; [done|]. destruct (Hs _ Hk) as [s Hadv].
  exists s. unfold get. by rewrite Hadv.
Qed.

Lemma rendered_advice_is_complete_witness :
  map value (items (renderPostHarvestAdvice reply_with_empty_section)) = adviceFields
  ∧ head adviceFields = Some (defaultValue (renderPostHarvestAdvice reply_with_empty_section))
  ∧ Forall (λ item, is_Some (icon item)
                    ∧ ∃ s, content item = JStr s
                           ∧ reply_with_empty_section !! value item = Some (JStr s))
      (items (renderPostHarvestAdvice reply_with_empty_section)).
Proof.
  apply (rendered_advice_is_complete (JObj reply_with_empty_section)).
  vm_compute. reflexivity.
Defined.

(** The object that a crop is when it is handed to a flow, and the input
    object of [getPostHarvestAdvice] built by [handlePostHarvestHelp]. *)
Definition crop_json (c : CurrentCropAgent.CurrentCrop) : gmap string json :=
  let required : gmap string json :=
    list_to_map [("id", JStr (CurrentCropAgent.id c));
                 ("cropName", JStr (CurrentCropAgent.cropName c));
                 ("fieldSize", JStr (CurrentCropAgent.fieldSize c));
                 ("location", JStr (CurrentCropAgent.location c));
                 ("sowingDate", JStr (CurrentCropAgent.sowingDate c))] in
  match CurrentCropAgent.additionalInfo c with
  | Some info => <["additionalInfo" := JStr info]> required
  | None => required
  end.

Definition post_harvest_input (c : CurrentCropAgent.CurrentCrop) (yield language : string)
  : json :=
  JObj (list_to_map [("cropContext", JObj (crop_json c));
                     ("estimatedYield", JStr yield);
                     ("language", JStr language)]).

Lemma post_harvest_input_valid c yield language :
  safeParse PostHarvestInputSchema (post_harvest_input c yield language)
  = Ok (post_harvest_input c yield language).
Proof.
  destruct c as [i n f l d [info|]]; vm_compute; reflexivity.
Qed.

End AdviceFacts.

(** ** More on the crop agent *)

Section CropAgentMore.
Import Async CurrentCropAgent.

Variable currentLanguageName : string.

#[local] Abbreviation cstep' := (CurrentCropAgent.step currentLanguageName).

Lemma snoc_not_self {A} (l : list A) (x : A) : l ≠ l ++ [x].
Proof.
  intros H. apply (f_equal length) in H. rewrite length_app in H. simpl in H. lia.
Qed.

(** X4: whenever post-harvest help sends a call, the call is for the selected
    crop of the list, with the yield that was entered, which is not empty,
    and the input object it carries passes the input schema of the flow
    unchanged: the component never hands the flow an input that the flow
    would refuse. *)
Theorem post_harvest_request_is_valid (w : world State Call json) (yield : string) (c : Call) :
  trace (cstep' (PostHarvestHelp yield) w) = trace w ++ [Remote c] →
  ∃ crop,
    c = GetPostHarvestAdvice crop yield currentLanguageName
    ∧ crop ∈ crops (ui w)
    ∧ id crop = selectedCropId (ui w)
    ∧ yield ≠ ""
    ∧ Zod.safeParse Schemas.PostHarvestInputSchema
        (post_harvest_input crop yield currentLanguageName)
      = Zod.Ok (post_harvest_input crop yield currentLanguageName).
Proof.
  unfold CurrentCropAgent.step.
  destruct (controls_disabled (ui w)); [by intros ?%snoc_not_self|].
  destruct yield as [|ch yield].
  { rewrite submitYield_empty. simpl. by intros ?%snoc_not_self. }
  rewrite submitYield_entered. unfold handlePostHarvestHelp, getSelectedCrop.
  destruct (find _ _) as [crop|] eqn:Hsel; cbn.
  - intros [= <-]%app_inv_head. exists crop.
    apply find_some in Hsel as [Hin Hid]. apply String.eqb_eq in Hid.
    split_and!; try done.
    + by apply list_elem_of_In.
    + apply post_harvest_input_valid.
  - by intros [=]%app_inv_head.
Qed.



End CropAgentMore.

Section CropAgentMoreWitnesses.
Import Async CurrentCropAgent.

Lemma post_harvest_request_is_valid_witness :
  ∃ crop,
    GetPostHarvestAdvice tomato_crop "10 tonnes" "English"
      = GetPostHarvestAdvice crop "10 tonnes" "English"
    ∧ crop ∈ crops (ui crop_page)
    ∧ id crop = selectedCropId (ui crop_page)
    ∧ "10 tonnes" ≠ ""
    ∧ Zod.safeParse Schemas.PostHarvestInputSchema
        (post_harvest_input crop "10 tonnes" "English")
      = Zod.Ok (post_harvest_input crop "10 tonnes" "English").
Proof.
  apply (post_harvest_request_is_valid "English" crop_page "10 tonnes"
           (GetPostHarvestAdvice tomato_crop "10 tonnes" "English")).
  reflexivity.
Defined.


End CropAgentMoreWitnesses.

(** ** What a handler lets out

    [emits P T p]: every effect that [p] emits and every call it sends
    satisfies [P], and every error that leaves [p] satisfies [T]. *)

Section Emits.
Import Async.
Context {S C R : Type}.
Variable P : effect C → Prop.

Fixpoint emits {A} (T : exn → Prop) (p : prog S C R A) : Prop :=
  match p with
  | Ret _ => True
  | Throw e => T e
  | SetState _ k | SetHandlers _ _ _ _ k | Play _ k | Pause _ k => emits T k
  | Emit e k => P e ∧ emits T k
  | Await c k => P (Remote c) ∧ ∀ o, emits T (k o)
  | NewAudio _ k => ∀ a, emits T (k a)
  end.

Lemma emits_mono {A} (T T' : exn → Prop) (p : prog S C R A) :
  (∀ e, T e → T' e) → emits T p → emits T' p.
Proof. intros HT. induction p; simpl; naive_solver. Qed.

Lemma emits_bind {A B} T (p : prog S C R A) (q : A → prog S C R B) :
  emits T p → (∀ a, emits T (q a)) → emits T (bind p q).
Proof. induction p; simpl; naive_solver. Qed.

(** A [catch] decides what leaves: whatever the body throws is handled. *)
Lemma emits_try_catch {A} T (p : prog S C R A) h :
  emits (λ _, True) p → (∀ e, emits T (h e)) → emits T (try_catch p h).
Proof. induction p; simpl; naive_solver. Qed.

Lemma emits_try_finally {A} T (p : prog S C R A) fin :
  emits T p → emits T fin → emits T (try_finally p fin).
Proof.
  induction p; simpl; try naive_solver.
  - intros _ Hfin. by apply emits_bind.
  - intros He Hfin. by apply emits_bind.
Qed.

Lemma emits_await c : P (Remote c) → emits (λ _, True) (await c : prog S C R R).
Proof. intros Hc. split; [done|]. by intros [r|e]. Qed.

(** A world whose parked handlers let nothing out but [P], no error
    included, and in whose trace everything satisfies [P]. *)
Definition contained (w : world S C R) : Prop :=
  Forall (λ k, ∀ o, emits (λ e, P (Unhandled e)) (k o)) (pending w) ∧ Forall P (trace w).

Lemma contained_same (w w' : world S C R) :
  pending w' = pending w → trace w' = trace w → contained w → contained w'.
Proof. unfold contained. by intros -> ->. Qed.

Lemma trace_play a (w : world S C R) : trace (play a w) = trace w.
Proof. unfold play. by destruct (audios w !! a). Qed.

Lemma pending_play a (w : world S C R) : pending (play a w) = pending w.
Proof. unfold play. by destruct (audios w !! a). Qed.

Lemma trace_ended a (w : world S C R) : trace (ended a w) = trace w.
Proof. unfold ended. by destruct (audios w !! a) as [[? [] ? ? ?]|]. Qed.

Lemma pending_ended a (w : world S C R) : pending (ended a w) = pending w.
Proof. unfold ended. by destruct (audios w !! a) as [[? [] ? ? ?]|]. Qed.

Lemma run_contained p w :
  emits (λ e, P (Unhandled e)) p → contained w → contained (run p w).
Proof.
  revert w. induction p as [a|e|f k IH|e k IH|c k IH|s k IH|a f g h k IH|a k IH|a k IH];
    intros w Hp [Hq Ht]; simpl in *.
  - done.
  - split; [done|]. apply Forall_app. split; [done|]. by constructor.
  - by apply IH.
  - destruct Hp as [He Hk]. apply IH; [done|]. split; [done|].
    simpl. apply Forall_app. split; [done|]. by constructor.
  - destruct Hp as [Hc Hk]. split; simpl.
    + apply Forall_app. split; [done|]. by constructor.
    + apply Forall_app. split; [done|]. by constructor.
  - by apply IH.
  - by apply IH.
  - apply IH; [done|]. apply (contained_same w); [apply pending_play|apply trace_play|done].
  - apply IH; [done|]. apply (contained_same w); [apply pending_pause|apply trace_pause|done].
Qed.

Lemma resolve_contained i o w : contained w → contained (resolve i o w).
Proof.
  intros [Hq Ht]. unfold resolve. destruct (pending w !! i) as [k|] eqn:E; [|done].
  apply run_contained.
  - by apply (Forall_lookup_1 _ _ _ _ Hq E).
  - split; [|done]. simpl. by apply Forall_delete.
Qed.

End Emits.

(** ** No error leaves a handler *)

Section Handled.
Import Async.

Definition handled {C} (e : effect C) : Prop :=
  match e with Unhandled _ => False | _ => True end.

Definition never : exn → Prop := λ _, False.

Lemma contained_handled {S C R} (w : world S C R) x :
  contained handled w → Unhandled x ∉ trace w.
Proof.
  intros [_ Ht] Hin. rewrite Forall_forall in Ht. exact (Ht _ Hin).
Qed.

Lemma never_unhandled {C} e : never e → handled (Unhandled e : effect C).
Proof. done. Qed.

Variable t : string → string.
Variable currentLanguageName : string.
Variable valid : gmap string json → bool.
Variable date : Type.
Variable toISOString : date → string.

Lemma emits_stopCurrentAudio T r :
  emits handled T (ConversationalAgent.stopCurrentAudio r).
Proof. unfold ConversationalAgent.stopCurrentAudio. by destruct (ConversationalAgent.currentAudio r). Qed.

Lemma emits_speak r text autoPlay :
  emits handled never (ConversationalAgent.speak r text autoPlay).
Proof.
  unfold ConversationalAgent.speak. apply emits_bind; [apply emits_stopCurrentAudio|].
  intros _. destruct (negb _); [done|]. apply emits_try_catch; [|done].
  split; [done|]. intros [uri|e]; cbn; [|done].
  destruct (Js.truthy uri); cbn; [|done]. intros a. by destruct autoPlay.
Qed.

Lemma emits_handleSubmit r :
  emits handled never (ConversationalAgent.handleSubmit t currentLanguageName r).
Proof.
  unfold ConversationalAgent.handleSubmit. destruct (_ || _); [done|].
  do 3 (apply emits_bind; [done|]; intros _).
  apply emits_bind; [apply emits_stopCurrentAudio|]. intros _.
  apply emits_try_finally; [|done]. apply emits_try_catch; [|done].
  apply emits_bind; [by apply emits_await|]. intros response.
  apply emits_bind; [done|]. intros _.
  eapply emits_mono; [|apply emits_speak]. done.
Qed.

Lemma chat_step_contained e w :
  contained handled w → contained handled (ConversationalAgent.step t currentLanguageName e w).
Proof.
  intros Hw. destruct e as [text| | |i| |i o|a]; unfold ConversationalAgent.step.
  - by apply run_contained.
  - apply run_contained; [|done]. eapply emits_mono; [|apply emits_handleSubmit]. done.
  - destruct (ConversationalAgent.send_disabled (ui w)); [done|].
    apply run_contained; [|done]. eapply emits_mono; [|apply emits_handleSubmit]. done.
  - destruct (ConversationalAgent.messages (ui w) !! i) as [m|]; [|done].
    destruct (String.eqb _ _); [|done].
    apply run_contained; [|done]. eapply emits_mono; [|apply emits_speak]. done.
  - destruct (ConversationalAgent.isPlaying (ui w)); [|done].
    apply run_contained; [|done]. apply emits_stopCurrentAudio.
  - by apply resolve_contained.
  - apply (contained_same handled w); [apply pending_ended | apply trace_ended | done].
Qed.

Lemma emits_crop_action r a :
  emits handled never
    match a with
    | CurrentCropAgent.ClickAskAgent => CurrentCropAgent.onQuerySubmit currentLanguageName r
    | CurrentCropAgent.ClickMarketAnalysis =>
        CurrentCropAgent.handleMarketAnalysis currentLanguageName r
    | CurrentCropAgent.PostHarvestHelp yield =>
        CurrentCropAgent.submitYield currentLanguageName r yield
    | _ => Ret tt
    end.
Proof.
  destruct a; try done.
  - unfold CurrentCropAgent.onQuerySubmit, CurrentCropAgent.getSelectedCrop.
    destruct (find _ _); [|done]. cbn. destruct (_ || _); [done|].
    cbn. split; [done|]. by intros [r'|e].
  - unfold CurrentCropAgent.handleMarketAnalysis, CurrentCropAgent.getSelectedCrop.
    destruct (find _ _); [|done]. cbn. split; [done|]. by intros [r'|e].
  - destruct yield as [|c yield]; [by rewrite submitYield_empty|].
    rewrite submitYield_entered.
    unfold CurrentCropAgent.handlePostHarvestHelp, CurrentCropAgent.getSelectedCrop.
    destruct (find _ _); [|done]. cbn. split; [done|]. by intros [r'|e].
Qed.

Lemma crop_step_contained e w :
  contained handled w → contained handled (CurrentCropAgent.step currentLanguageName e w).
Proof.
  intros Hw. destruct e as [fetched|i|text| | |y|i o]; unfold CurrentCropAgent.step;
    try done.
  - by destruct (CurrentCropAgent.crops (ui w) !! i).
  - destruct (CurrentCropAgent.controls_disabled (ui w)); [done|].
    apply run_contained; [|done].
    eapply emits_mono; [|apply (emits_crop_action _ CurrentCropAgent.ClickAskAgent)]. done.
  - destruct (CurrentCropAgent.controls_disabled (ui w)); [done|].
    apply run_contained; [|done].
    eapply emits_mono;
      [|apply (emits_crop_action _ CurrentCropAgent.ClickMarketAnalysis)]. done.
  - destruct (CurrentCropAgent.controls_disabled (ui w)); [done|].
    apply run_contained; [|done].
    eapply emits_mono;
      [|apply (emits_crop_action _ (CurrentCropAgent.PostHarvestHelp y))]. done.
  - by apply resolve_contained.
Qed.

Lemma emits_onSubmit values :
  emits handled never (MarketAnalysisTool.onSubmit currentLanguageName values).
Proof. cbn. split; [done|]. by intros [r|e]. Qed.

Lemma market_step_contained e w :
  contained handled w →
  contained handled (MarketAnalysisTool.step currentLanguageName valid e w).
Proof.
  intros Hw. destruct e as [values|i o]; unfold MarketAnalysisTool.step.
  - destruct (MarketAnalysisTool.loading (ui w)); [done|].
    destruct (valid values); [|done].
    apply run_contained; [|done]. eapply emits_mono; [|apply emits_onSubmit]. done.
  - by apply resolve_contained.
Qed.

Lemma emits_fetchCrops : emits handled never (CropList.fetchCrops date).
Proof. cbn. split; [done|]. intros [r|e]; cbn; [|done]. by destruct (CropList.allCrops r). Qed.

Lemma emits_submitAddCrop r :
  emits handled never (CropList.submitAddCrop date toISOString r).
Proof.
  unfold CropList.submitAddCrop. apply emits_bind; [done|]. intros _.
  apply emits_try_finally; [|done].
  destruct (CropList.addCropFormErrors _) as [|err errs]; [|done].
  destruct (CropList.sowingDate _) as [day|]; [|done].
  apply emits_bind; [done|]. intros _.
  unfold CropList.onAddCropSubmit. apply emits_try_catch; [|done].
  apply emits_bind; [by apply emits_await|]. intros answer.
  destruct (CropList.newCropId answer) as [newId|]; [|done].
  destruct (Js.truthy newId); [|done].
  do 3 (apply emits_bind; [done|]; intros _).
  eapply emits_mono; [|apply emits_fetchCrops]. done.
Qed.

Lemma croplist_step_contained e w :
  contained handled w → contained handled (CropList.step date toISOString e w).
Proof.
  intros Hw. destruct e as [| | |values| |i o]; unfold CropList.step; try done.
  - apply run_contained; [|done]. eapply emits_mono; [|apply emits_fetchCrops]. done.
  - by destruct (CropList.isAddingCrop (ui w)).
  - destruct (_ && _); [|done].
    apply run_contained; [|done]. eapply emits_mono; [|apply emits_submitAddCrop]. done.
  - by apply resolve_contained.
Qed.

Lemma foldl_contained {S C R E} (step : E → world S C R → world S C R) es w :
  (∀ e w, contained handled w → contained handled (step e w)) →
  contained handled w → contained handled (foldl (λ w e, step e w) w es).
Proof.
  intros Hstep. revert w. induction es as [|e es IH]; intros w Hw; simpl; [done|].
  by apply IH, Hstep.
Qed.

Lemma empty_contained {S C R} (s : S) : contained handled (World (C:=C) (R:=R) s [] [] []).
Proof. split; constructor. Qed.

(** X6: on no run of the chat, of the crop agent, of the market card or of the
    crop list, whatever the remote side answers and whenever it answers, does
    an error leave a handler: every failure ends in a [catch] of the
    component. *)
Theorem no_error_leaves_a_handler :
  (∀ es x, Unhandled x ∉ trace (ConversationalAgent.steps t currentLanguageName es
                                   ConversationalAgent.start))
  ∧ (∀ es x, Unhandled x ∉ trace (foldl (λ w e, CurrentCropAgent.step currentLanguageName e w)
                                     CurrentCropAgent.start es))
  ∧ (∀ es x, Unhandled x ∉ trace (foldl (λ w e, MarketAnalysisTool.step currentLanguageName
                                                  valid e w)
                                     (World MarketAnalysisTool.initial [] [] []) es))
  ∧ (∀ es x, Unhandled x ∉ trace (CropList.steps date toISOString es (CropList.start date))).
Proof.
  split_and!; intros es x; apply contained_handled.
  - apply (foldl_contained (ConversationalAgent.step t currentLanguageName));
      [apply chat_step_contained | apply empty_contained].
  - apply (foldl_contained (CurrentCropAgent.step currentLanguageName));
      [apply crop_step_contained | apply empty_contained].
  - apply (foldl_contained (MarketAnalysisTool.step currentLanguageName valid));
      [apply market_step_contained | apply empty_contained].
  - apply (foldl_contained (CropList.step date toISOString));
      [apply croplist_step_contained | apply empty_contained].
Qed.

End Handled.

(** ** More on the chat *)

Section ChatMore.
Import Async ConversationalAgent.

Variable t : string → string.
Variable currentLanguageName : string.
#[local] Existing Instance appends_preorder.

#[local] Abbreviation chat_ok := (world_ok appends audio_only).
#[local] Abbreviation chat_step' := (ConversationalAgent.step t currentLanguageName).
#[local] Abbreviation chat_steps' := (ConversationalAgent.steps t currentLanguageName).

(** Stopping the audio touches neither the messages, the input, the loading
    flag, the trace nor the parked handlers. *)
Lemma stop_then r (q : unit → handler unit) (w : world State Call string) :
  chat_ok w →
  ∃ w', run (stopCurrentAudio r ≫= q) w = run (q tt) w'
        ∧ audio_only (ui w) (ui w') ∧ trace w' = trace w ∧ pending w' = pending w
        ∧ chat_ok w'.
Proof.
  intros Hw. unfold stopCurrentAudio. destruct (currentAudio r) as [a|].
  - eexists. split; [cbn -[pause]; reflexivity|].
    destruct (chat_pause a w Hw) as (H1 & H2 & H3).
    destruct (pause_ok appends audio_only audio_only_appends a w Hw) as [_ [Ha Hp]].
    cbn -[pause]. rewrite trace_pause, pending_pause. by split_and!.
  - exists w. by split_and!.
Qed.

(** Stopping the audio neither throws nor waits, so a [try] around it and
    what follows it is a [try] around what follows it. *)
Lemma stop_inside r (g : unit → handler unit) h fin :
  try_finally (try_catch (stopCurrentAudio r ≫= g) h) fin
  = (stopCurrentAudio r ≫= λ u, try_finally (try_catch (g u) h) fin).
Proof. unfold stopCurrentAudio. by destruct (currentAudio r). Qed.

(** Settling the call that was parked last. *)
Lemma resolve_last {S C R} (w : world S C R) k o ps :
  pending w = ps ++ [k] →
  resolve (length ps) o w = run (k o) (with_pending (delete (length ps)) w).
Proof.
  intros Hp. unfold resolve. rewrite Hp, lookup_app_r by done.
  by rewrite Nat.sub_diag.
Qed.

Definition apology : Message :=
  {| role := "model"; content := "Sorry, I encountered an error. Please try again." |}.

(** What is parked by a submission, and by the speech of its reply. *)
Lemma submit_parks (w : world State Call string) :
  chat_ok w →
  Js.truthy (Js.trim (input (ui w))) = true → loading (ui w) = false →
  ∃ w' k,
    run (handleSubmit t currentLanguageName (ui w)) w
      = with_pending (λ ps, ps ++ [k])
          (observe (Remote (StartChat (input (ui w)) currentLanguageName (messages (ui w)))) w')
    ∧ messages (ui w') = messages (ui w) ++ [{| role := "user"; content := input (ui w) |}]
    ∧ loading (ui w') = true
    ∧ trace w' = trace w ∧ pending w' = pending w ∧ chat_ok w'
    ∧ (∀ e x,
         run (k (Rejected e)) x
         = with_ui (upd_loading false)
             (run (setMessages (λ prev, prev ++ [apology]))
                (observe (Toast {| variant := "destructive"; title := "Error";
                                   description := t "An unexpected error occurred." |})
                   (observe (ConsoleError "Conversational agent error:" e) x))))
    ∧ (∀ response x,
         chat_ok x → Js.truthy (Js.trim response) = true →
         ∃ x' k',
           run (k (Resolved response)) x
             = with_pending (λ ps, ps ++ [k'])
                 (observe (Remote (TextToSpeech response)) x')
           ∧ messages (ui x')
               = messages (ui x) ++ [{| role := "model"; content := response |}]
           ∧ loading (ui x') = loading (ui x)
           ∧ trace x' = trace x ∧ pending x' = pending x
           ∧ ∀ e y,
               run (k' (Rejected e)) y
               = with_ui (upd_loading false)
                   (observe (Toast {| variant := "destructive";
                                      title := "Text-to-Speech Failed";
                                      description :=
                                        "Could not generate audio for the response." |})
                      (observe (ConsoleError "TTS error:" e) y))).
Proof.
  intros Hw Hin Hl. unfold handleSubmit. rewrite Hin, Hl. simpl orb. cbv iota.
  cbn -[stopCurrentAudio Js.slice_0_m1 speak mbind]. rewrite slice_0_m1_snoc.
  match goal with |- context [stopCurrentAudio (ui w) ≫= ?f] =>
    destruct (stop_then (ui w) f
                (with_ui (upd_loading true) (with_ui (upd_input "")
                   (run (setMessages
                           (λ prev, prev ++ [{| role := "user"; content := input (ui w) |}]))
                      w))))
      as (w' & Hrun & (Hm & Hi & Hlo) & Htr & Hp & Hok); [exact Hw|]
  end.
  exists w'. eexists. split.
  { etrans; [|etrans; [exact Hrun|]]; [reflexivity|]. cbn -[speak]. reflexivity. }
  split; [by rewrite Hm|]. split; [by rewrite Hlo|]. do 3 (split; [done|]).
  split; [reflexivity|].
  intros response x Hx Hresp. cbn -[speak].
  unfold speak. rewrite stop_inside.
  match goal with |- context [run (stopCurrentAudio (ui w) ≫= ?f) ?x0] =>
    destruct (stop_then (ui w) f x0)
      as (x' & Hrun' & (Hm' & Hi' & Hlo') & Htr' & Hp' & Hok'); [exact Hx|]
  end.
  exists x'. eexists. split.
  { rewrite Hrun'. rewrite Hresp. cbn. reflexivity. }
  split; [by rewrite Hm'|]. split; [by rewrite Hlo'|]. do 2 (split; [done|]).
  reflexivity.
Qed.
(** X7: when the call of a submission fails, the apology of the model is
    appended after the user's message, the error is logged, one toast with
    the translated fixed text is shown, the loading state ends, and nothing
    stays parked or is sent again. *)
Theorem chat_failure_is_answered (es : list event) (e : exn) :
  Js.truthy (Js.trim (input (ui (chat_steps' es start)))) = true →
  loading (ui (chat_steps' es start)) = false →
  messages (ui (chat_step' (Settle (length (pending (chat_steps' es start))) (Rejected e))
                  (chat_step' PressEnter (chat_steps' es start))))
    = messages (ui (chat_steps' es start)) ++
        [{| role := "user"; content := input (ui (chat_steps' es start)) |}; apology]
  ∧ loading (ui (chat_step' (Settle (length (pending (chat_steps' es start))) (Rejected e))
                   (chat_step' PressEnter (chat_steps' es start))))
    = false
  ∧ trace (chat_step' (Settle (length (pending (chat_steps' es start))) (Rejected e))
             (chat_step' PressEnter (chat_steps' es start)))
    = trace (chat_steps' es start) ++
        [Remote (StartChat (input (ui (chat_steps' es start))) currentLanguageName
                   (messages (ui (chat_steps' es start))));
         ConsoleError "Conversational agent error:" e;
         Toast {| variant := "destructive"; title := "Error";
                  description := t "An unexpected error occurred." |}]
  ∧ pending (chat_step' (Settle (length (pending (chat_steps' es start))) (Rejected e))
               (chat_step' PressEnter (chat_steps' es start)))
    = pending (chat_steps' es start).
Proof.
  intros Hin Hl. set (w := chat_steps' es start) in *.
  assert (chat_ok w) as Hw by (apply steps_ok, start_ok).
  destruct (submit_parks w Hw Hin Hl) as (w' & k & Hrun & Hm & Hlo & Htr & Hp & Hok & Hrej & _).
  unfold ConversationalAgent.step at 2 4 6 8. rewrite Hrun.
  unfold ConversationalAgent.step, resolve. cbn [pending with_pending observe].
  rewrite Hp, lookup_app_r by done. rewrite Nat.sub_diag. cbn [lookup list_lookup].
  rewrite Hrej. cbn. rewrite Hp, Htr, Hm, delete_middle, app_nil_r.
  split_and!; try done; by rewrite <- !app_assoc.
Qed.

(** X8: when the reply arrives but its speech cannot be generated, the reply
    stays in the conversation and no apology is added: the failure is logged
    and shown as a toast of its own.  The page keeps loading while the speech
    is awaited and stops loading when that call has failed. *)
Theorem speech_failure_keeps_the_reply (es : list event) (response : string) (e : exn) :
  Js.truthy (Js.trim (input (ui (chat_steps' es start)))) = true →
  loading (ui (chat_steps' es start)) = false →
  Js.truthy (Js.trim response) = true →
  loading (ui (chat_steps'
                 [PressEnter;
                  Settle (length (pending (chat_steps' es start))) (Resolved response)]
                 (chat_steps' es start)))
    = true
  ∧ messages (ui (chat_steps'
                    [PressEnter;
                     Settle (length (pending (chat_steps' es start))) (Resolved response);
                     Settle (length (pending (chat_steps' es start))) (Rejected e)]
                    (chat_steps' es start)))
    = messages (ui (chat_steps' es start)) ++
        [{| role := "user"; content := input (ui (chat_steps' es start)) |};
         {| role := "model"; content := response |}]
  ∧ loading (ui (chat_steps'
                   [PressEnter;
                    Settle (length (pending (chat_steps' es start))) (Resolved response);
                    Settle (length (pending (chat_steps' es start))) (Rejected e)]
                   (chat_steps' es start)))
    = false
  ∧ trace (chat_steps'
             [PressEnter;
              Settle (length (pending (chat_steps' es start))) (Resolved response);
              Settle (length (pending (chat_steps' es start))) (Rejected e)]
             (chat_steps' es start))
    = trace (chat_steps' es start) ++
        [Remote (StartChat (input (ui (chat_steps' es start))) currentLanguageName
                   (messages (ui (chat_steps' es start))));
         Remote (TextToSpeech response);
         ConsoleError "TTS error:" e;
         Toast {| variant := "destructive"; title := "Text-to-Speech Failed";
                  description := "Could not generate audio for the response." |}]
  ∧ pending (chat_steps'
               [PressEnter;
                Settle (length (pending (chat_steps' es start))) (Resolved response);
                Settle (length (pending (chat_steps' es start))) (Rejected e)]
               (chat_steps' es start))
    = pending (chat_steps' es start).
Proof.
  intros Hin Hl Hresp. set (w := chat_steps' es start) in *.
  assert (chat_ok w) as Hw by (apply steps_ok, start_ok).
  destruct (submit_parks w Hw Hin Hl) as (w' & k & Hrun & Hm & Hlo & Htr & Hp & Hok & _ & Hres).
  set (n := length (pending w)).
  set (w1 := chat_step' PressEnter w).
  assert (w1 = with_pending (λ ps, ps ++ [k])
                 (observe (Remote (StartChat (input (ui w)) currentLanguageName
                                     (messages (ui w)))) w')) as Hw1 by exact Hrun.
  set (x0 := with_pending (delete n) w1).
  assert (pending x0 = pending w) as Hp0.
  { unfold x0, n. rewrite Hw1. cbn. by rewrite Hp, delete_middle, app_nil_r. }
  assert (ui x0 = ui w' ∧ trace x0 = trace w ++
            [Remote (StartChat (input (ui w)) currentLanguageName (messages (ui w)))])
    as [Hu0 Ht0].
  { unfold x0. rewrite Hw1. cbn. by rewrite Htr. }
  assert (chat_ok x0) as Hok0.
  { destruct Hok as [Ha Hq]. destruct Hw as [_ Hqw]. split; [|by rewrite Hp0].
    unfold x0. rewrite Hw1. exact Ha. }
  destruct (Hres response x0 Hok0 Hresp)
    as (x' & k' & Hrun' & Hm' & Hlo' & Htr' & Hp' & Hrej').
  set (w2 := chat_step' (Settle n (Resolved response)) w1).
  assert (w2 = with_pending (λ ps, ps ++ [k'])
                 (observe (Remote (TextToSpeech response)) x')) as Hw2.
  { unfold w2, ConversationalAgent.step. rewrite <- Hrun'.
    apply (resolve_last _ _ _ (pending w)). rewrite Hw1. cbn. by rewrite Hp. }
  set (w3 := chat_step' (Settle n (Rejected e)) w2).
  assert (w3 = run (k' (Rejected e)) (with_pending (delete n) w2)) as Hw3.
  { unfold w3, ConversationalAgent.step.
    apply (resolve_last _ _ _ (pending w)). rewrite Hw2. cbn. by rewrite Hp', Hp0. }
  change (chat_steps' [PressEnter; Settle n (Resolved response)] w) with w2.
  change (chat_steps' [PressEnter; Settle n (Resolved response); Settle n (Rejected e)] w)
    with w3.
  rewrite Hw3, Hrej', Hw2. unfold n. cbn.
  rewrite Hlo', Hm', Htr', Hp', Hp0, Hu0, Ht0, Hm, Hlo, delete_middle, app_nil_r.
  split_and!; try done; by rewrite <- !app_assoc.
Qed.

End ChatMore.


(** ** One clip at a time *)

Section Exclusive.
Import Async ConversationalAgent.

Variable t : string → string.
Variable currentLanguageName : string.

#[local] Abbreviation xstep := (ConversationalAgent.step t currentLanguageName).
#[local] Abbreviation xsteps := (ConversationalAgent.steps t currentLanguageName).

(** The callbacks that [speak] gives to every clip. *)
Definition registered (au : audio State) : Prop :=
  onplay au = upd_isPlaying true
  ∧ onpause au = upd_isPlaying false
  ∧ onended au = (λ s, upd_currentAudio None (upd_isPlaying false s)).

Definition wired (w : world State Call string) : Prop := Forall registered (audios w).

(** No clip is sounding. *)
Definition quiet (w : world State Call string) : Prop :=
  Forall (λ au, playing au = false) (audios w).

(** Whatever is sounding is the component's current audio, and the page
    knows that it is playing. *)
Definition exclusive (w : world State Call string) : Prop :=
  ∀ a au, audios w !! a = Some au → playing au = true →
          currentAudio (ui w) = Some a ∧ isPlaying (ui w) = true.

Lemma quiet_exclusive w : quiet w → exclusive w.
Proof.
  intros Hq a au Ha Hp. pose proof (Forall_lookup_1 _ _ _ _ Hq Ha) as H. simpl in H.
  congruence.
Qed.

Lemma elem_of_sounding w a :
  a ∈ sounding w ↔ ∃ au, audios w !! a = Some au ∧ playing au = true.
Proof.
  unfold sounding. rewrite list_elem_of_omap. split.
  - intros ([i au] & Hin & Hf). apply elem_of_lookup_imap in Hin as (j & au' & [= -> ->] & Hl).
    destruct (playing au') eqn:Hp; [|done]. injection Hf as <-. eauto.
  - intros (au & Hl & Hp). exists (a, au). split.
    + apply elem_of_lookup_imap. eauto.
    + by rewrite Hp.
Qed.

Lemma pause_quiet a w : quiet w → pause a w = w.
Proof.
  intros Hq. unfold pause. destruct (audios w !! a) as [au|] eqn:E; [|done].
  pose proof (Forall_lookup_1 _ _ _ _ Hq E) as H. simpl in H. by rewrite H.
Qed.

(** Stopping on a quiet page changes no clip. *)
Lemma stop_quiet r (q : unit → handler unit) w :
  quiet w →
  ∃ w', run (stopCurrentAudio r ≫= q) w = run (q tt) w'
        ∧ audios w' = audios w ∧ pending w' = pending w.
Proof.
  intros Hq. unfold stopCurrentAudio. destruct (currentAudio r) as [a|].
  - eexists. split; [cbn -[pause]; rewrite pause_quiet by done; reflexivity|]. done.
  - by exists w.
Qed.

(** Stopping, by the handler of the present render, on a page where only the
    current audio may be sounding: afterwards nothing is. *)
Lemma stop_current r (q : unit → handler unit) w :
  currentAudio r = currentAudio (ui w) → wired w → exclusive w →
  ∃ w', run (stopCurrentAudio r ≫= q) w = run (q tt) w'
        ∧ quiet w' ∧ wired w' ∧ pending w' = pending w.
Proof.
  intros Hr Hwi Hex. unfold stopCurrentAudio. rewrite Hr.
  destruct (currentAudio (ui w)) as [a|] eqn:Hca.
  - eexists. split; [cbn -[pause]; reflexivity|]. cbn -[pause].
    rewrite pending_pause. unfold quiet, wired. cbn -[pause].
    unfold pause. destruct (audios w !! a) as [au|] eqn:Ha.
    + destruct (playing au) eqn:Hp; simpl.
      * split_and!; [| |done].
        -- apply Forall_lookup. intros i x Hi.
           destruct (decide (a = i)) as [->|Hne].
           ++ rewrite list_lookup_alter_eq, Ha in Hi. by injection Hi as <-.
           ++ rewrite list_lookup_alter_ne in Hi by done.
              destruct (playing x) eqn:Hx; [|done].
              destruct (Hex i x Hi Hx). congruence.
        -- apply Forall_lookup. intros i x Hi.
           destruct (decide (a = i)) as [->|Hne].
           ++ rewrite list_lookup_alter_eq, Ha in Hi. injection Hi as <-.
              by apply (Forall_lookup_1 _ _ _ _ Hwi Ha).
           ++ rewrite list_lookup_alter_ne in Hi by done.
              by apply (Forall_lookup_1 _ _ _ _ Hwi Hi).
      * split_and!; [|done|done].
        apply Forall_lookup. intros i x Hi. destruct (playing x) eqn:Hx; [|done].
        destruct (Hex i x Hi Hx). congruence.
    + split_and!; [|done|done].
      apply Forall_lookup. intros i x Hi. destruct (playing x) eqn:Hx; [|done].
      destruct (Hex i x Hi Hx). congruence.
  - exists w. split_and!; try done.
    apply Forall_lookup. intros i x Hi. destruct (playing x) eqn:Hx; [|done].
    destruct (Hex i x Hi Hx). congruence.
Qed.

Lemma alter_last {A} (f : A → A) (l : list A) x :
  alter f (length l) (l ++ [x]) = l ++ [f x].
Proof.
  induction l as [|y l IH]; [done|].
  change (y :: alter f (length l) (l ++ [x]) = y :: l ++ [f x]). by rewrite IH.
Qed.

(** A clip that arrives on a quiet page is created, made current and
    started: then it alone is sounding. *)
Lemma clip_starts uri (q : handler unit) w :
  run (NewAudio uri (λ audio,
         SetState (upd_currentAudio (Some audio))
           (SetHandlers audio (upd_isPlaying true) (upd_isPlaying false)
              (λ s, upd_currentAudio None (upd_isPlaying false s))
              (Play audio q)))) w
  = run q (World (upd_isPlaying true (upd_currentAudio (Some (length (audios w))) (ui w)))
             (audios w ++ [Audio uri true (upd_isPlaying true) (upd_isPlaying false)
                             (λ s, upd_currentAudio None (upd_isPlaying false s))])
             (pending w) (trace w)).
Proof.
  cbn -[play alter]. f_equal. unfold play. cbn -[alter].
  rewrite !alter_last. rewrite list_lookup_middle by done.
  unfold with_ui, with_audios. cbn -[alter]. by rewrite !alter_last.
Qed.

Lemma started_alone w uri f g h s :
  quiet w → currentAudio s = Some (length (audios w)) → isPlaying s = true →
  exclusive (World s (audios w ++ [Audio uri true f g h]) (pending w) (trace w)).
Proof.
  intros Hq Hs Hpl a au Ha Hp. simpl in *. split; [|done].
  destruct (decide (a < length (audios w))) as [Hlt|Hge].
  - rewrite lookup_app_l in Ha by done.
    pose proof (Forall_lookup_1 _ _ _ _ Hq Ha) as H. simpl in H. congruence.
  - apply lookup_lt_Some in Ha as Hlen. rewrite length_app in Hlen. simpl in Hlen.
    rewrite Hs. f_equal. lia.
Qed.

(** The rest of a handler parked at the speech call: settled on a quiet
    page with nothing else parked, it leaves at most its own clip sounding. *)
Definition ends_exclusive (k : outcome string → handler unit) : Prop :=
  ∀ o y, wired y → quiet y → pending y = [] →
    wired (run (k o) y) ∧ pending (run (k o) y) = [] ∧ exclusive (run (k o) y).

(** The rest of a handler parked at the chat call: settled on a quiet page
    it ends quietly, or parks once more, at the speech call. *)
Definition ends_or_speaks (k : outcome string → handler unit) : Prop :=
  ∀ o x, wired x → quiet x → pending x = [] →
    wired (run (k o) x)
    ∧ ((pending (run (k o) x) = [] ∧ exclusive (run (k o) x))
       ∨ ∃ k', pending (run (k o) x) = [k'] ∧ quiet (run (k o) x) ∧ ends_exclusive k').

Lemma ends_exclusive_speaks k : ends_exclusive k → ends_or_speaks k.
Proof. intros Hk o x Hw Hq Hp. destruct (Hk o x Hw Hq Hp) as (H1 & H2 & H3). eauto. Qed.

Definition spoken (w : world State Call string) : Prop :=
  wired w
  ∧ ((pending w = [] ∧ exclusive w)
     ∨ ∃ k, pending w = [k] ∧ quiet w ∧ ends_exclusive k).

Definition settled (w : world State Call string) : Prop :=
  wired w
  ∧ ((pending w = [] ∧ exclusive w)
     ∨ ∃ k, pending w = [k] ∧ quiet w ∧ ends_or_speaks k).

Lemma spoken_settled w : spoken w → settled w.
Proof.
  intros [Hw [H|(k & Hp & Hq & Hk)]]; split; try done; [by left|].
  right. exists k. split_and!; try done. by apply ends_exclusive_speaks.
Qed.

Lemma wired_snoc w uri b s ps tr :
  wired w →
  wired (World s (audios w ++ [Audio uri b (upd_isPlaying true) (upd_isPlaying false)
                                 (λ s, upd_currentAudio None (upd_isPlaying false s))])
           ps tr).
Proof. intros Hw. apply Forall_app. split; [done|]. by repeat constructor. Qed.

(** What [speak] does after its stop, on a quiet page with nothing parked:
    called by a click, and called as the last step of a submission (inside
    its [try], whose [catch] it never reaches, and before its [finally]). *)
Lemma spoken_on_click text x :
  wired x → quiet x → pending x = [] →
  spoken (run (if negb (Js.truthy (Js.trim text)) then Ret tt
                else try_catch
                       (audioDataUri ← await (TextToSpeech text);
                        if Js.truthy audioDataUri then
                          NewAudio audioDataUri (λ audio,
                            setCurrentAudio (Some audio) ;;
                            SetHandlers audio (upd_isPlaying true) (upd_isPlaying false)
                              (λ s, upd_currentAudio None (upd_isPlaying false s))
                              (Play audio (Ret tt)))
                        else Ret tt)
                       (λ error,
                          console_error "TTS error:" error ;;
                          toast "destructive" "Text-to-Speech Failed"
                                "Could not generate audio for the response.")) x).
Proof.
  intros Hw Hq Hp. destruct (negb _).
  - split; [done|]. left. split; [done|]. by apply quiet_exclusive.
  - unfold spoken, wired, quiet. cbn. split; [done|]. right. rewrite Hp.
    eexists. split; [reflexivity|].
    split; [done|].
    intros [uri|e] y Hwy Hqy Hpy.
    + destruct (Js.truthy uri) eqn:Hu.
      * cbn -[run]. rewrite Hu. cbn -[run]. rewrite clip_starts.
        unfold with_ui. cbn.
        split_and!; [by apply (wired_snoc y) | done | by apply (started_alone y)].
      * cbn. rewrite Hu. cbn. split_and!; try done. by apply quiet_exclusive.
    + cbn. split_and!; try done. by apply quiet_exclusive.
Qed.

Lemma spoken_in_submit text (h : exn → handler unit) x :
  wired x → quiet x → pending x = [] →
  spoken (run (try_finally
                  (try_catch
                     (if negb (Js.truthy (Js.trim text)) then Ret tt
                      else try_catch
                             (audioDataUri ← await (TextToSpeech text);
                              if Js.truthy audioDataUri then
                                NewAudio audioDataUri (λ audio,
                                  setCurrentAudio (Some audio) ;;
                                  SetHandlers audio (upd_isPlaying true) (upd_isPlaying false)
                                    (λ s, upd_currentAudio None (upd_isPlaying false s))
                                    (Play audio (Ret tt)))
                              else Ret tt)
                             (λ error,
                                console_error "TTS error:" error ;;
                                toast "destructive" "Text-to-Speech Failed"
                                      "Could not generate audio for the response."))
                     h)
                  (setLoading false)) x).
Proof.
  intros Hw Hq Hp. destruct (negb _).
  - cbn. split; [done|]. left. split; [done|]. by apply quiet_exclusive.
  - unfold spoken, wired, quiet. cbn. split; [done|]. right. rewrite Hp.
    eexists. split; [reflexivity|].
    split; [done|].
    intros [uri|e] y Hwy Hqy Hpy.
    + destruct (Js.truthy uri) eqn:Hu.
      * cbn -[run]. rewrite Hu. cbn -[run]. rewrite clip_starts.
        unfold with_ui. cbn.
        split_and!; [by apply (wired_snoc y) | done | by apply (started_alone y)].
      * cbn. rewrite Hu. cbn. split_and!; try done. by apply quiet_exclusive.
    + cbn. split_and!; try done. by apply quiet_exclusive.
Qed.

Lemma speak_quiet r text x :
  wired x → quiet x → pending x = [] → settled (run (speak r text true) x).
Proof.
  intros Hw Hq Hp. unfold speak.
  match goal with |- context [stopCurrentAudio r ≫= ?q] =>
    destruct (stop_quiet r q x Hq) as (x' & Hrun & Ha & Hp')
  end.
  rewrite Hrun. apply spoken_settled, spoken_on_click.
  - unfold wired. by rewrite Ha.
  - unfold quiet. by rewrite Ha.
  - by rewrite Hp'.
Qed.

Lemma speak_current text w :
  wired w → exclusive w → pending w = [] → settled (run (speak (ui w) text true) w).
Proof.
  intros Hw Hex Hp. unfold speak.
  match goal with |- context [stopCurrentAudio (ui w) ≫= ?q] =>
    destruct (stop_current (ui w) q w eq_refl Hw Hex) as (w' & Hrun & Hq' & Hw' & Hp')
  end.
  rewrite Hrun. apply spoken_settled, spoken_on_click; [done|done|]. by rewrite Hp'.
Qed.

(** The rest of a submission, parked at the chat call. *)
Lemma submission_ends_or_speaks r :
  ends_or_speaks
    (λ o, try_finally
            (try_catch
               (bind (match o with Resolved x => Ret x | Rejected e => Throw e end)
                  (λ response,
                     setMessages (λ prev, prev ++ [{| role := "model"; content := response |}]) ;;
                     speak r response true))
               (λ error,
                  console_error "Conversational agent error:" error ;;
                  toast "destructive" "Error" (t "An unexpected error occurred.") ;;
                  setMessages
                    (λ prev, prev ++
                       [{| role := "model";
                           content := "Sorry, I encountered an error. Please try again." |}])))
            (setLoading false)).
Proof.
  intros [response|e] x Hw Hq Hp.
  - cbn -[speak run]. unfold speak.
    match goal with |- context [try_finally (try_catch (stopCurrentAudio r ≫= ?g) ?h) ?f] =>
      rewrite (stop_inside r g h f)
    end.
    cbn -[stopCurrentAudio mbind].
    match goal with |- context [run (stopCurrentAudio r ≫= ?q) ?x0] =>
      destruct (stop_quiet r q x0 Hq) as (x' & Hrun & Ha & Hp')
    end.
    rewrite Hrun. apply spoken_in_submit.
    + unfold wired. by rewrite Ha.
    + unfold quiet. by rewrite Ha.
    + by rewrite Hp'.
  - cbn. split; [done|]. left. split; [done|]. by apply quiet_exclusive.
Qed.

Lemma settled_same (w w' : world State Call string) :
  audios w' = audios w → pending w' = pending w →
  currentAudio (ui w') = currentAudio (ui w) → isPlaying (ui w') = isPlaying (ui w) →
  settled w → settled w'.
Proof.
  unfold settled, wired, quiet, exclusive. intros -> -> -> ->. done.
Qed.

Lemma stop_bind r (w : world State Call string) :
  run (stopCurrentAudio r) w = run (stopCurrentAudio r ≫= λ _, Ret tt) w.
Proof. unfold stopCurrentAudio. by destruct (currentAudio r). Qed.

(** The user's own requests. *)
Definition user_action (e : event) : Prop :=
  match e with
  | PressEnter | ClickSend | ClickSpeak _ => True
  | _ => False
  end.

Lemma submit_settled w :
  wired w → exclusive w → pending w = [] →
  settled (run (handleSubmit t currentLanguageName (ui w)) w).
Proof.
  intros Hw Hex Hp. unfold handleSubmit. destruct (_ || _).
  { split; [done|]. left. by split. }
  cbn -[stopCurrentAudio Js.slice_0_m1 speak mbind].
  match goal with |- settled ?X =>
    match X with context [stopCurrentAudio (ui w) ≫= ?f] =>
      destruct (stop_current (ui w) f
                  (with_ui (upd_loading true) (with_ui (upd_input "")
                     (run (setMessages
                             (λ prev, prev ++ [{| role := "user"; content := input (ui w) |}]))
                        w))) eq_refl Hw Hex) as (w' & Hrun & Hq' & Hw' & Hp');
      assert (X = run (f tt) w') as -> by (etrans; [|exact Hrun]; reflexivity)
    end
  end.
  unfold settled, wired, quiet. cbn -[speak Js.slice_0_m1].
  split; [done|]. right. cbn in Hp'. rewrite Hp', Hp.
  eexists. split; [reflexivity|]. split; [done|]. apply submission_ends_or_speaks.
Qed.

Lemma step_settled e w :
  settled w → (user_action e → pending w = []) → settled (xstep e w).
Proof.
  intros Hs Hpat. destruct e as [text| | |i| |i o|a]; unfold ConversationalAgent.step.
  - by apply (settled_same w).
  - destruct Hs as [Hw [[Hp Hex]|(k & Hp & _)]];
      [by apply submit_settled | rewrite Hpat in Hp; done].
  - destruct (send_disabled (ui w)); [done|].
    destruct Hs as [Hw [[Hp Hex]|(k & Hp & _)]];
      [by apply submit_settled | rewrite Hpat in Hp; done].
  - destruct (messages (ui w) !! i) as [m|]; [|done].
    destruct (String.eqb _ _); [|done].
    destruct Hs as [Hw [[Hp Hex]|(k & Hp & _)]];
      [by apply speak_current | rewrite Hpat in Hp; done].
  - destruct (isPlaying (ui w)); [|done]. rewrite stop_bind.
    destruct Hs as [Hw [[Hp Hex]|(k & Hp & Hq & Hk)]].
    + destruct (stop_current (ui w) (λ _, Ret tt) w eq_refl Hw Hex)
        as (w' & Hrun & Hq' & Hw' & Hp').
      rewrite Hrun. simpl. split; [done|]. left. split; [congruence|].
      by apply quiet_exclusive.
    + destruct (stop_quiet (ui w) (λ _, Ret tt) w Hq) as (w' & Hrun & Ha & Hp').
      rewrite Hrun. simpl. unfold settled, wired, quiet. rewrite Ha, Hp'.
      split; [done|]. right. eauto.
  - unfold resolve. destruct (pending w !! i) as [k'|] eqn:Hi; [|done].
    destruct Hs as [Hw [[Hp Hex]|(k & Hp & Hq & Hk)]]; [by rewrite Hp in Hi|].
    rewrite Hp in Hi. destruct i as [|i]; [|done]. injection Hi as <-.
    assert (pending (with_pending (delete 0) w) = []) as Hp0 by (simpl; by rewrite Hp).
    destruct (Hk o (with_pending (delete 0) w) Hw Hq Hp0) as [H1 H2].
    apply spoken_settled. by split.
  - destruct Hs as [Hw [[Hp Hex]|(k & Hp & Hq & Hk)]].
    + unfold ended. destruct (audios w !! a) as [au|] eqn:Ha; [|by split; [|left]].
      destruct (playing au) eqn:Hpl; [|by split; [|left]].
      pose proof (Forall_lookup_1 _ _ _ _ Hw Ha) as (_ & _ & Hend).
      assert (quiet (with_ui (onended au) (with_audios (alter (set_playing false) a) w)))
        as Hq.
      { apply Forall_lookup. intros j x Hj. simpl in Hj.
        destruct (decide (a = j)) as [->|Hne].
        - rewrite list_lookup_alter_eq, Ha in Hj. by injection Hj as <-.
        - rewrite list_lookup_alter_ne in Hj by done.
          destruct (playing x) eqn:Hx; [|done].
          destruct (Hex j x Hj Hx) as [H1 _]. destruct (Hex a au Ha Hpl) as [H2 _].
          congruence. }
      split.
      * apply Forall_lookup. intros j x Hj. simpl in Hj.
        destruct (decide (a = j)) as [->|Hne].
        -- rewrite list_lookup_alter_eq, Ha in Hj. injection Hj as <-.
           by apply (Forall_lookup_1 _ _ _ _ Hw Ha).
        -- rewrite list_lookup_alter_ne in Hj by done.
           by apply (Forall_lookup_1 _ _ _ _ Hw Hj).
      * left. split; [done|]. by apply quiet_exclusive.
    + assert (ended a w = w) as ->; [|split; [done|right; eauto]].
      unfold ended. destruct (audios w !! a) as [au|] eqn:Ha; [|done].
      pose proof (Forall_lookup_1 _ _ _ _ Hq Ha) as H. simpl in H. by rewrite H.
Qed.

(** A run in which the user asks for something only when no call is
    pending. *)
Fixpoint patient (es : list event) (w : world State Call string) : Prop :=
  match es with
  | [] => True
  | e :: es' => (user_action e → pending w = []) ∧ patient es' (xstep e w)
  end.

Lemma steps_settled es w : settled w → patient es w → settled (xsteps es w).
Proof.
  revert w. induction es as [|e es IH]; intros w Hs Hpat; [done|].
  destruct Hpat as [He Hrest]. simpl. apply IH; [|done]. by apply step_settled.
Qed.

Lemma start_settled : settled start.
Proof. split; [constructor|]. left. split; [done|]. by intros a au Ha. Qed.

Lemma steps_exclusive es : patient es start → exclusive (xsteps es start).
Proof.
  intros Hpat. destruct (steps_settled es start start_settled Hpat) as [Hw Hs].
  destruct Hs as [[_ Hex]|(k & _ & Hq & _)]; [done | by apply quiet_exclusive].
Qed.

Lemma quiet_sounding w : quiet w → sounding w = [].
Proof.
  intros Hq. apply elem_of_nil_inv. intros a (au & Ha & Hp)%elem_of_sounding.
  pose proof (Forall_lookup_1 _ _ _ _ Hq Ha) as H. simpl in H. congruence.
Qed.

(** X9: as long as the user asks for something only when no call is pending,
    every clip that is sounding is the component's current audio; so at most
    one clip sounds at a time. *)
Theorem one_clip_at_a_time (es : list event) :
  patient es start →
  (∀ a, a ∈ sounding (xsteps es start) →
        currentAudio (ui (xsteps es start)) = Some a)
  ∧ (∀ a b, a ∈ sounding (xsteps es start) → b ∈ sounding (xsteps es start) → a = b).
Proof.
  intros Hex%steps_exclusive.
  assert (∀ a, a ∈ sounding (xsteps es start) →
               currentAudio (ui (xsteps es start)) = Some a) as Hcur.
  { intros a (au & Ha & Hp)%elem_of_sounding. by apply (Hex a au). }
  split; [exact Hcur|]. intros a b Ha Hb.
  pose proof (Hcur a Ha). pose proof (Hcur b Hb). congruence.
Qed.

(** X10: as long as the user asks for something only when no call is
    pending, the stop button is there whenever a clip is sounding, and a click
    on it leaves nothing sounding. *)
Theorem stop_button_silences (es : list event) :
  patient es start →
  (sounding (xsteps es start) ≠ [] → isPlaying (ui (xsteps es start)) = true)
  ∧ sounding (xstep ClickStop (xsteps es start)) = [].
Proof.
  intros Hpat. pose proof (steps_exclusive es Hpat) as Hex.
  destruct (steps_settled es start start_settled Hpat) as [Hw _].
  set (w := xsteps es start) in *.
  assert (sounding w ≠ [] → isPlaying (ui w) = true) as Hshown.
  { destruct (sounding w) as [|a l] eqn:E; [done|]. intros _.
    assert (a ∈ sounding w) as (au & Ha & Hp)%elem_of_sounding by (rewrite E; left).
    by apply (Hex a au). }
  split; [exact Hshown|]. unfold ConversationalAgent.step.
  destruct (isPlaying (ui w)) eqn:Hpl.
  - rewrite stop_bind.
    destruct (stop_current (ui w) (λ _, Ret tt) w eq_refl Hw Hex) as (w' & -> & Hq & _).
    by apply quiet_sounding.
  - destruct (sounding w) as [|a l]; [done|]. by discriminate Hshown.
Qed.

End Exclusive.

(** ** The theorems of the chat at a short conversation *)

Section ChatWitnesses.
Import Async ConversationalAgent.

(** A first question, still in the text area. *)
Definition first_question : list event := [TypeInput "hi"].

Lemma chat_failure_is_answered_witness :
  Js.truthy (Js.trim (input (ui (steps id "English" first_question start)))) = true
  ∧ loading (ui (steps id "English" first_question start)) = false
  ∧ messages (ui (steps id "English"
                    (first_question ++ [PressEnter; Settle 0 (Rejected (RemoteError "down"))])
                    start))
    = [{| role := "user"; content := "hi" |};
       {| role := "model"; content := "Sorry, I encountered an error. Please try again." |}].
Proof.
  split; [reflexivity|]. split; [reflexivity|].
  exact (proj1 (chat_failure_is_answered id "English" first_question (RemoteError "down")
                  eq_refl eq_refl)).
Defined.

Lemma speech_failure_keeps_the_reply_witness :
  Js.truthy (Js.trim (input (ui (steps id "English" first_question start)))) = true
  ∧ loading (ui (steps id "English" first_question start)) = false
  ∧ Js.truthy (Js.trim "Hello") = true
  ∧ messages (ui (steps id "English"
                    (first_question ++
                       [PressEnter; Settle 0 (Resolved "Hello");
                        Settle 0 (Rejected (RemoteError "no voice"))])
                    start))
    = [{| role := "user"; content := "hi" |}; {| role := "model"; content := "Hello" |}].
Proof.
  split; [reflexivity|]. split; [reflexivity|]. split; [reflexivity|].
  exact (proj1 (proj2 (speech_failure_keeps_the_reply id "English" first_question "Hello"
                         (RemoteError "no voice") eq_refl eq_refl eq_refl))).
Defined.

(** A question that is answered and read out, then read out once more. *)
Definition read_out_twice : list event :=
  [TypeInput "hi"; PressEnter; Settle 0 (Resolved "Hello");
   Settle 0 (Resolved "data:audio/wav;base64,AAAA");
   ClickSpeak 1; Settle 0 (Resolved "data:audio/wav;base64,AAAA")].

Lemma one_clip_at_a_time_witness :
  patient id "English" read_out_twice start
  ∧ sounding (steps id "English" read_out_twice start) = [1]
  ∧ (∀ a, a ∈ sounding (steps id "English" read_out_twice start) →
          currentAudio (ui (steps id "English" read_out_twice start)) = Some a).
Proof.
  assert (patient id "English" read_out_twice start) as Hpat.
  { cbn. repeat split; intros; reflexivity || contradiction. }
  split; [exact Hpat|]. split; [reflexivity|].
  exact (proj1 (one_clip_at_a_time id "English" read_out_twice Hpat)).
Defined.

Lemma stop_button_silences_witness :
  patient id "English" read_out_twice start
  ∧ sounding (steps id "English" read_out_twice start) = [1]
  ∧ sounding (step id "English" ClickStop (steps id "English" read_out_twice start)) = [].
Proof.
  assert (patient id "English" read_out_twice start) as Hpat.
  { cbn. repeat split; intros; reflexivity || contradiction. }
  split; [exact Hpat|]. split; [reflexivity|].
  exact (proj2 (stop_button_silences id "English" read_out_twice Hpat)).
Defined.

End ChatWitnesses.

(** ** The list of crops *)

Section CropListFacts.
Import Async CropList.

Variable date : Type.
Variable toISOString : date → string.

Arguments upd_agent {date} f s.
Arguments upd_isAddingCrop {date} v s.
Arguments upd_loadingCrops {date} v s.
Arguments upd_addCropForm {date} v s.
Arguments upd_addCropErrors {date} v s.
Arguments upd_isSubmitting {date} v s.
Arguments defaultValues {date}.
Arguments fetchCrops {date}.
Arguments Mount {date}.
Arguments OpenAddCrop {date}.
Arguments CancelAddCrop {date}.
Arguments EditAddCrop {date} values.
Arguments SubmitAddCrop {date}.
Arguments Settle {date} i o.

#[local] Abbreviation lstep := (CropList.step date toISOString).
#[local] Abbreviation lsteps := (CropList.steps date toISOString).
#[local] Abbreviation lworld := (world (State date) Call Answer).

Definition load_failure_toast : toast_args :=
  {| variant := "destructive"; title := "Error"; description := "Could not load your crops." |}.

Definition add_failure_toast : toast_args :=
  {| variant := "destructive"; title := "Error"; description := "Could not add your crop." |}.

Definition add_success_toast : toast_args :=
  {| variant := ""; title := "Success"; description := "Crop added successfully!" |}.

(** The value that the select box of the agent gets for a fetched list. *)
Definition first_id (cs : list CurrentCropAgent.CurrentCrop) : string :=
  match cs with c :: _ => CurrentCropAgent.id c | [] => "" end.

(** How a fetch ends, on the page that is there when its call settles. *)
Definition fetched (o : outcome Answer) (x : lworld)
  : lworld :=
  match o with
  | Resolved answer =>
      with_ui (upd_loadingCrops false)
        (with_ui (upd_agent (CurrentCropAgent.upd_selectedCropId (first_id (allCrops answer))))
           (with_ui (upd_agent (CurrentCropAgent.upd_crops (allCrops answer))) x))
  | Rejected e =>
      with_ui (upd_loadingCrops false)
        (observe (Toast load_failure_toast) (observe (ConsoleError "" e) x))
  end.

Lemma fetch_parks (w : lworld) :
  ∃ k, run fetchCrops w
       = with_pending (λ ps, ps ++ [k])
           (observe (Remote GetAllCurrentCrops) (with_ui (upd_loadingCrops true) w))
       ∧ ∀ o x, run (k o) x = fetched o x.
Proof.
  eexists. split; [reflexivity|]. intros [answer|e] x; [|reflexivity].
  cbn. by destruct (allCrops answer).
Qed.

Lemma settle_last {S C R} (w : world S C R) k o :
  resolve (length (pending w)) o (with_pending (λ ps, ps ++ [k]) w)
  = run (k o) w.
Proof.
  unfold resolve, with_pending. cbn [pending]. rewrite lookup_app_r by done.
  rewrite Nat.sub_diag. cbn [lookup list_lookup ui audios pending trace].
  rewrite delete_middle, app_nil_r. by destruct w.
Qed.

(** X11: a fetch of the list, from its call to its end: the list is loading
    while the call is awaited and not after it, whatever the outcome.  A list
    that arrives is stored and its first crop selected (the empty text for an
    empty list); a failure is logged and shown as one toast, and leaves the
    list and the selection as they were. *)
Theorem crops_fetch_settles (w : lworld) (o : outcome Answer) :
  loadingCrops (ui (lstep Mount w)) = true
  ∧ trace (lstep Mount w) = trace w ++ [Remote GetAllCurrentCrops]
  ∧ loadingCrops (ui (lstep (Settle (length (pending w)) o) (lstep Mount w))) = false
  ∧ pending (lstep (Settle (length (pending w)) o) (lstep Mount w)) = pending w
  ∧ match o with
    | Resolved answer =>
        CurrentCropAgent.crops
          (agent (ui (lstep (Settle (length (pending w)) o) (lstep Mount w))))
          = allCrops answer
        ∧ CurrentCropAgent.selectedCropId
            (agent (ui (lstep (Settle (length (pending w)) o) (lstep Mount w))))
          = first_id (allCrops answer)
        ∧ trace (lstep (Settle (length (pending w)) o) (lstep Mount w))
          = trace w ++ [Remote GetAllCurrentCrops]
    | Rejected e =>
        agent (ui (lstep (Settle (length (pending w)) o) (lstep Mount w))) = agent (ui w)
        ∧ trace (lstep (Settle (length (pending w)) o) (lstep Mount w))
          = trace w ++ [Remote GetAllCurrentCrops; ConsoleError "" e; Toast load_failure_toast]
    end.
Proof.
  unfold CropList.step. destruct (fetch_parks w) as (k & -> & Hk).
  split; [done|]. split; [done|].
  rewrite (settle_last (observe _ (with_ui _ w)) k o), Hk.
  destruct o as [answer|e]; cbn; split_and!; try done.
  by rewrite <- !app_assoc.
Qed.

(** X12: the agent's part of a page after a fetch that brought a list is what the
    agent's own event [CropsFetched] makes of it; the agent then finds the
    first crop of the list as the selected one, and its controls are
    disabled exactly when the list is empty or a response is loading. *)
Theorem fetched_crop_is_selected (w : lworld) (answer : Answer) (language : string) :
  agent (ui (lstep (Settle (length (pending w)) (Resolved answer)) (lstep Mount w)))
    = ui (CurrentCropAgent.step language (CurrentCropAgent.CropsFetched (allCrops answer))
            (World (agent (ui w)) [] [] []))
  ∧ CurrentCropAgent.getSelectedCrop
      (agent (ui (lstep (Settle (length (pending w)) (Resolved answer)) (lstep Mount w))))
    = match allCrops answer with
      | first :: _ => Ret (Some first)
      | [] => toast "destructive" "Error" "Please select a crop first." ;; Ret None
      end
  ∧ CurrentCropAgent.controls_disabled
      (agent (ui (lstep (Settle (length (pending w)) (Resolved answer)) (lstep Mount w))))
    = CurrentCropAgent.loadingResponse (agent (ui w))
      || match allCrops answer with [] => true | _ => false end.
Proof.
  unfold CropList.step. destruct (fetch_parks w) as (k & -> & Hk).
  rewrite (settle_last (observe _ (with_ui _ w)) k (Resolved answer)), Hk.
  unfold CurrentCropAgent.getSelectedCrop, CurrentCropAgent.controls_disabled.
  destruct (allCrops answer) as [|first rest] eqn:E; cbn; rewrite ?E; cbn.
  - done.
  - by rewrite String.eqb_refl.
Qed.

(** ** The add-crop form *)

(** The crop that [onAddCropSubmit] sends: the form's values, the day in its
    ISO form. *)
Definition new_crop (values : AddCropFormValues date) (day : date) : NewCrop :=
  {| newCropName := cropName values; newFieldSize := fieldSize values;
     newLocation := location values; newSowingDate := toISOString day;
     newAdditionalInfo := additionalInfo values |}.

Lemma addCropFormErrors_nil (values : AddCropFormValues date) :
  addCropFormErrors values = [] ↔
  (2 ≤ String.length (cropName values))%nat ∧ (1 ≤ String.length (fieldSize values))%nat
  ∧ (2 ≤ String.length (location values))%nat ∧ is_Some (sowingDate values).
Proof.
  unfold addCropFormErrors.
  destruct (Nat.ltb_spec (String.length (cropName values)) 2);
    destruct (Nat.ltb_spec (String.length (fieldSize values)) 1);
    destruct (Nat.ltb_spec (String.length (location values)) 2);
    destruct (sowingDate values) as [day|]; cbn;
    (split; [intros Hnil; try discriminate Hnil | intros (? & ? & ? & Hd)]);
    try lia; try (by destruct Hd); by eauto.
Qed.

(** An open form that is not being submitted. *)
Definition idle_form (w : lworld) : Prop :=
  isAddingCrop (ui w) = true ∧ isSubmitting (ui w) = false.

(** What a submission of accepted values parks. *)
Lemma add_parks (w : lworld) day :
  idle_form w →
  addCropFormErrors (addCropForm (ui w)) = [] → sowingDate (addCropForm (ui w)) = Some day →
  ∃ k, lstep SubmitAddCrop w
       = with_pending (λ ps, ps ++ [k])
           (observe (Remote (AddCurrentCrop (new_crop (addCropForm (ui w)) day)))
              (with_ui (upd_addCropErrors []) (with_ui (upd_isSubmitting true) w)))
       ∧ (∀ e x, run (k (Rejected e)) x
                 = with_ui (upd_isSubmitting false)
                     (observe (Toast add_failure_toast) (observe (ConsoleError "" e) x)))
       ∧ (∀ answer x,
            newCropId answer = None ∨ newCropId answer = Some "" →
            run (k (Resolved answer)) x
            = with_ui (upd_isSubmitting false)
                (observe (Toast add_failure_toast)
                   (observe (ConsoleError "" (JsError "Failed to get new crop ID.")) x)))
       ∧ (∀ answer newId x,
            newCropId answer = Some newId → Js.truthy newId = true →
            ∃ k', run (k (Resolved answer)) x
                  = with_pending (λ ps, ps ++ [k'])
                      (observe (Remote GetAllCurrentCrops)
                         (with_ui (upd_loadingCrops true)
                            (with_ui (upd_isAddingCrop false)
                               (with_ui (upd_addCropForm defaultValues)
                                  (observe (Toast add_success_toast) x)))))
                  ∧ ∀ o y, run (k' o) y = with_ui (upd_isSubmitting false) (fetched o y)).
Proof.
  intros [Ha Hs] He Hd. unfold CropList.step, submitAddCrop. rewrite Ha, Hs, He, Hd.
  eexists. split; [reflexivity|]. split; [reflexivity|]. split.
  - intros answer x [Hn|Hn]; cbn; rewrite Hn; reflexivity.
  - intros answer newId x Hn Ht. cbn. rewrite Hn. cbn. rewrite Ht. cbn.
    eexists. split; [reflexivity|]. intros [a2|e] y; [|reflexivity].
    cbn. by destruct (allCrops a2).
Qed.

(** X13: an add that does not go through: the call is rejected, or it resolves
    to no identifier ([null] or the empty text).  The error is logged and
    shown as one toast; the form stays open with its values, the list is not
    fetched again, and the form is no longer submitting. *)
Theorem add_crop_failure (w : lworld) (day : date) (o : outcome Answer) (err : exn) :
  idle_form w →
  addCropFormErrors (addCropForm (ui w)) = [] → sowingDate (addCropForm (ui w)) = Some day →
  (o = Rejected err
   ∨ ∃ answer, o = Resolved answer
               ∧ (newCropId answer = None ∨ newCropId answer = Some "")
               ∧ err = JsError "Failed to get new crop ID.") →
  isSubmitting (ui (lstep SubmitAddCrop w)) = true
  ∧ trace (lstep (Settle (length (pending w)) o) (lstep SubmitAddCrop w))
    = trace w ++ [Remote (AddCurrentCrop (new_crop (addCropForm (ui w)) day));
                  ConsoleError "" err; Toast add_failure_toast]
  ∧ pending (lstep (Settle (length (pending w)) o) (lstep SubmitAddCrop w)) = pending w
  ∧ isSubmitting (ui (lstep (Settle (length (pending w)) o) (lstep SubmitAddCrop w))) = false
  ∧ isAddingCrop (ui (lstep (Settle (length (pending w)) o) (lstep SubmitAddCrop w))) = true
  ∧ addCropForm (ui (lstep (Settle (length (pending w)) o) (lstep SubmitAddCrop w)))
    = addCropForm (ui w)
  ∧ agent (ui (lstep (Settle (length (pending w)) o) (lstep SubmitAddCrop w)))
    = agent (ui w).
Proof.
  intros Hi He Hd Ho. destruct (add_parks w day Hi He Hd) as (k & -> & Hrej & Hnull & _).
  split; [done|]. unfold CropList.step at 1 2 3 4 5 6.
  rewrite (settle_last (observe _ (with_ui _ (with_ui _ w))) k o).
  destruct Hi as [Ha Hs].
  destruct Ho as [->|(answer & -> & Hn & ->)]; [rewrite Hrej|rewrite (Hnull _ _ Hn)];
    cbn; split_and!; try done; by rewrite <- !app_assoc.
Qed.


(** X15: values that fail the form's schema are not sent: their messages are
    shown under the fields and the form is ready for another try. *)
Theorem rejected_add_form_is_not_sent (w : lworld) :
  idle_form w → addCropFormErrors (addCropForm (ui w)) ≠ [] →
  trace (lstep SubmitAddCrop w) = trace w
  ∧ pending (lstep SubmitAddCrop w) = pending w
  ∧ addCropErrors (ui (lstep SubmitAddCrop w)) = addCropFormErrors (addCropForm (ui w))
  ∧ isSubmitting (ui (lstep SubmitAddCrop w)) = false
  ∧ isAddingCrop (ui (lstep SubmitAddCrop w)) = true
  ∧ addCropForm (ui (lstep SubmitAddCrop w)) = addCropForm (ui w).
Proof.
  intros [Ha Hs] He. unfold CropList.step, submitAddCrop. rewrite Ha, Hs.
  destruct (addCropFormErrors (addCropForm (ui w))) as [|err errs]; [done|].
  cbn. done.
Qed.

(** X16: a second click on Save changes nothing: the values are sent at most
    once while the first submission is under way. *)
Theorem add_crop_is_submitted_once (w : world (State date) Call Answer) :
  CropList.step date toISOString SubmitAddCrop
    (CropList.step date toISOString SubmitAddCrop w)
  = CropList.step date toISOString SubmitAddCrop w.
Proof.
  unfold CropList.step at 2 3.
  destruct (isAddingCrop (ui w)) eqn:Ha; cbn [andb]; [|unfold CropList.step; by rewrite Ha].
  destruct (isSubmitting (ui w)) eqn:Hs; cbn [andb negb];
    [unfold CropList.step; by rewrite Ha, Hs|].
  unfold submitAddCrop.
  destruct (addCropFormErrors (addCropForm (ui w))) as [|err errs] eqn:He.
  - destruct (sowingDate (addCropForm (ui w))) as [day|] eqn:Hd.
    + cbn. rewrite Ha. done.
    + apply addCropFormErrors_nil in He as (_ & _ & _ & [day Hday]). congruence.
  - cbn -[addCropFormErrors]. rewrite Ha, He. cbn. done.
Qed.

End CropListFacts.

(** The theorems at the add-crop form of the small farm; days are counted
    from the first of June 2024. *)
Section CropListWitnesses.
Import Async CropList.

Definition june (day : nat) : string :=
  match day with
  | 0 => "2024-06-01T00:00:00.000Z"
  | _ => "2024-06-02T00:00:00.000Z"
  end.

Definition tomato_form : AddCropFormValues nat :=
  {| cropName := "Tomato"; fieldSize := "2 acres"; location := "Pune";
     sowingDate := Some 0; additionalInfo := "" |}.

Definition form_opened : world (State nat) Call Answer :=
  CropList.step nat june (OpenAddCrop nat) (CropList.start nat).

Definition form_filled : world (State nat) Call Answer :=
  CropList.step nat june (EditAddCrop nat tomato_form) form_opened.

Lemma add_crop_failure_witness :
  idle_form nat form_filled
  ∧ addCropFormErrors (addCropForm (ui form_filled)) = []
  ∧ trace (CropList.step nat june
             (Settle nat 0 (Resolved {| newCropId := None; allCrops := [] |}))
             (CropList.step nat june (SubmitAddCrop nat) form_filled))
    = [Remote (AddCurrentCrop {| newCropName := "Tomato"; newFieldSize := "2 acres";
                                 newLocation := "Pune";
                                 newSowingDate := "2024-06-01T00:00:00.000Z";
                                 newAdditionalInfo := "" |});
       ConsoleError "" (JsError "Failed to get new crop ID.");
       Toast (add_failure_toast)].
Proof.
  assert (idle_form nat form_filled) as Hi by (split; reflexivity).
  split; [exact Hi|]. split; [reflexivity|].
  exact (proj1 (proj2 (add_crop_failure nat june form_filled 0
                         (Resolved {| newCropId := None; allCrops := [] |})
                         (JsError "Failed to get new crop ID.")
                         Hi eq_refl eq_refl
                         (or_intror (ex_intro _ _ (conj eq_refl (conj (or_introl eq_refl)
                                                                    eq_refl))))))).
Defined.


Lemma rejected_add_form_is_not_sent_witness :
  idle_form nat form_opened
  ∧ addCropFormErrors (addCropForm (ui form_opened)) ≠ []
  ∧ addCropErrors (ui (CropList.step nat june (SubmitAddCrop nat) form_opened))
    = [("cropName", "Crop name is required."); ("fieldSize", "Field size is required.");
       ("location", "Location is required."); ("sowingDate", "A sowing date is required.")]
  ∧ trace (CropList.step nat june (SubmitAddCrop nat) form_opened) = [].
Proof.
  assert (idle_form nat form_opened) as Hi by (split; reflexivity).
  assert (addCropFormErrors (addCropForm (ui form_opened)) ≠ []) as He by discriminate.
  split; [exact Hi|]. split; [exact He|].
  pose proof (rejected_add_form_is_not_sent nat june form_opened Hi He)
    as (Htr & _ & Herr & _).
  split; [exact Herr | exact Htr].
Defined.

End CropListWitnesses.

(** ** A market analysis that arrives *)

Section MarketMore.
Import Async MarketAnalysisTool.

Variable currentLanguageName : string.
Variable valid : gmap string json → bool.

#[local] Abbreviation market_step' := (MarketAnalysisTool.step currentLanguageName valid).

(** X17: a submission of the market form whose call succeeds.  While the call
    is awaited the card is loading and the analysis shown before is gone;
    the analysis that arrives is shown and the loading ends.  The call
    carries the form's values, but as its language the current language of
    the page, whatever the form held there. *)
Theorem market_analysis_is_shown (w : world State Call json) values result :
  loading (ui w) = false → valid values = true →
  ∃ input,
    ui (market_step' (SubmitForm values) w) = {| analysis := None; loading := true |}
    ∧ trace (market_step' (SubmitForm values) w) = trace w ++ [Remote (MarketAnalysis input)]
    ∧ input !! "language" = Some (JStr currentLanguageName)
    ∧ (∀ field, field ≠ "language" → input !! field = values !! field)
    ∧ ui (market_step' (Settle (length (pending w)) (Resolved result))
            (market_step' (SubmitForm values) w))
      = {| analysis := Some result; loading := false |}
    ∧ trace (market_step' (Settle (length (pending w)) (Resolved result))
               (market_step' (SubmitForm values) w))
      = trace w ++ [Remote (MarketAnalysis input)]
    ∧ pending (market_step' (Settle (length (pending w)) (Resolved result))
                 (market_step' (SubmitForm values) w))
      = pending w.
Proof.
  intros Hl Hv. exists (<["language" := JStr currentLanguageName]> values).
  unfold MarketAnalysisTool.step. rewrite Hl, Hv.
  cbn. split; [done|]. split; [done|].
  split; [apply lookup_insert_eq|].
  split; [intros field Hne; by apply lookup_insert_ne|].
  unfold resolve. cbn.
  rewrite lookup_app_r by done. rewrite Nat.sub_diag. cbn.
  by rewrite delete_middle, app_nil_r.
Qed.

End MarketMore.

(** The theorem at the market card of the small farm. *)
Lemma market_analysis_is_shown_witness :
  ∃ input,
    Async.trace (MarketAnalysisTool.step "Hindi" (λ _, true)
                   (MarketAnalysisTool.SubmitForm
                      {[ "commodity" := JStr "Tomato"; "language" := JStr "" ]})
                   (Async.World MarketAnalysisTool.initial [] [] []))
      = [Async.Remote (MarketAnalysisTool.MarketAnalysis input)]
    ∧ input !! "language" = Some (JStr "Hindi")
    ∧ input !! "commodity" = Some (JStr "Tomato").
Proof.
  destruct (market_analysis_is_shown "Hindi" (λ _, true)
              (Async.World MarketAnalysisTool.initial [] [] [])
              {[ "commodity" := JStr "Tomato"; "language" := JStr "" ]} JNull
              eq_refl eq_refl) as (input & _ & Htr & Hlang & Hrest & _).
  exists input. split; [exact Htr|]. split; [exact Hlang|].
  rewrite Hrest by done. reflexivity.
Defined.

(** ** Enter and the send button *)

Section SendFacts.
Import Async ConversationalAgent.

Variable t : string → string.
Variable currentLanguageName : string.

(** X18: the send button is disabled exactly where [handleSubmit] would return
    at once: a click on it and Enter in the text area do the same on every
    page. *)
Theorem send_button_agrees_with_enter (w : world State Call string) :
  ConversationalAgent.step t currentLanguageName ClickSend w
  = ConversationalAgent.step t currentLanguageName PressEnter w.
Proof.
  unfold ConversationalAgent.step, send_disabled, handleSubmit.
  rewrite (orb_comm (loading (ui w))).
  by destruct (negb (Js.truthy (Js.trim (input (ui w)))) || loading (ui w)).
Qed.

End SendFacts.

(** ** The busy flag of a component

    A component raises a flag ([loading], [loadingCrops], [isSubmitting])
    when it starts a request and lowers it in a [finally].  [busy] reads the
    flag; [ok] is what the handlers need of the page. *)

Section Busy.
Import Async.
Context {S C R : Type}.
Variable busy : S → bool.
Variable ok : world S C R → Prop.
Hypothesis ok_pending : ∀ f w, ok w → ok (with_pending f w).

(** A parked handler that ends with the flag lowered. *)
Definition finishes (k : outcome R → prog S C R unit) : Prop :=
  ∀ o x, ok x →
    ok (run (k o) x) ∧ pending (run (k o) x) = pending x
    ∧ busy (ui (run (k o) x)) = false.

(** A parked handler that ends with the flag lowered, or parks a handler
    that will lower it. *)
Definition carries (k : outcome R → prog S C R unit) : Prop :=
  ∀ o x, ok x →
    ok (run (k o) x)
    ∧ ((pending (run (k o) x) = pending x ∧ busy (ui (run (k o) x)) = false)
       ∨ ∃ k', pending (run (k o) x) = pending x ++ [k'] ∧ finishes k').

(** A parked handler that does not raise the flag, unless it parks a handler
    that will lower it. *)
Definition bystander (k : outcome R → prog S C R unit) : Prop :=
  ∀ o x, ok x →
    ok (run (k o) x)
    ∧ ((pending (run (k o) x) = pending x
        ∧ (busy (ui (run (k o) x)) = true → busy (ui x) = true))
       ∨ ∃ k', pending (run (k o) x) = pending x ++ [k'] ∧ finishes k').

Lemma finishes_carries k : finishes k → carries k.
Proof. intros Hk o x Hx. destruct (Hk o x Hx) as (H1 & H2 & H3). eauto. Qed.

(** While the flag is up, a handler that will lower it is parked. *)
Definition attended (w : world S C R) : Prop :=
  ok w
  ∧ ∃ cs ps, Forall carries cs ∧ Forall bystander ps ∧ pending w ≡ₚ cs ++ ps
             ∧ (busy (ui w) = true → cs ≠ []).

Lemma attended_idle w : attended w → pending w = [] → busy (ui w) = false.
Proof.
  intros (_ & cs & ps & _ & _ & Hp & Hb) Hnil. rewrite Hnil in Hp.
  symmetry in Hp. apply Permutation_nil_r, app_eq_nil in Hp as [-> _].
  destruct (busy (ui w)); [|done]. by destruct Hb.
Qed.

Lemma attended_same w w' :
  attended w → ok w' → (busy (ui w') = true → busy (ui w) = true) →
  pending w' = pending w → attended w'.
Proof.
  intros (_ & cs & ps & Hcs & Hps & Hp & Hb) Hok Hb' Hp'. split; [done|].
  exists cs, ps. rewrite Hp'. split_and!; try done. intros Hup. by apply Hb, Hb'.
Qed.

Lemma attended_bystander w w' k :
  attended w → ok w' → (busy (ui w') = true → busy (ui w) = true) →
  pending w' = pending w ++ [k] → bystander k → attended w'.
Proof.
  intros (_ & cs & ps & Hcs & Hps & Hp & Hb) Hok Hb' Hp' Hk. split; [done|].
  exists cs, (ps ++ [k]). split_and!; [done| |by rewrite Hp', Hp, app_assoc|].
  - apply Forall_app. split; [done|]. by constructor.
  - intros Hup. by apply Hb, Hb'.
Qed.

Lemma attended_carrier w w' k :
  attended w → ok w' → pending w' = pending w ++ [k] → carries k → attended w'.
Proof.
  intros (_ & cs & ps & Hcs & Hps & Hp & Hb) Hok Hp' Hk. split; [done|].
  exists (k :: cs), ps. split_and!; [by constructor|done| |done].
  by rewrite Hp', Hp, <- Permutation_cons_append.
Qed.

(** Whatever settles, and however: the flag stays attended. *)
Lemma resolve_attended i o w : attended w → attended (resolve i o w).
Proof.
  intros Hw. unfold resolve. destruct (pending w !! i) as [k0|] eqn:Hi; [|done].
  destruct Hw as (Hok & cs & ps & Hcs & Hps & Hp & Hb).
  pose proof (delete_Permutation _ _ _ Hi) as Hdel.
  assert (ok (with_pending (delete i) w)) as Hx by by apply ok_pending.
  assert (k0 ∈ cs ++ ps) as Hin.
  { rewrite <- Hp. by eapply list_elem_of_lookup_2. }
  apply elem_of_app in Hin as [Hin|Hin].
  - apply elem_of_Permutation in Hin as [cs' Hcs'].
    assert (Forall carries (k0 :: cs')) as Hall by by rewrite <- Hcs'.
    apply Forall_cons in Hall as [Hk0 Hall].
    assert (delete i (pending w) ≡ₚ cs' ++ ps) as Hrest.
    { apply (Permutation_cons_inv (a:=k0)). by rewrite <- Hdel, Hp, Hcs'. }
    destruct (Hk0 o _ Hx) as (H1 & [[H2 H3]|(k' & H2 & Hk')]); (split; [done|]).
    + exists cs', ps. rewrite H2, H3. by split_and!.
    + exists (k' :: cs'), ps. rewrite H2. simpl.
      split_and!; [constructor; [by apply finishes_carries|done] |done| |done].
      by rewrite <- Permutation_cons_append, Hrest.
  - apply elem_of_Permutation in Hin as [ps' Hps'].
    assert (Forall bystander (k0 :: ps')) as Hall by by rewrite <- Hps'.
    apply Forall_cons in Hall as [Hk0 Hall].
    assert (delete i (pending w) ≡ₚ cs ++ ps') as Hrest.
    { apply (Permutation_cons_inv (a:=k0)).
      by rewrite <- Hdel, Hp, Hps', Permutation_middle. }
    destruct (Hk0 o _ Hx) as (H1 & [[H2 H3]|(k' & H2 & Hk')]); (split; [done|]).
    + exists cs, ps'. rewrite H2. split_and!; try done. intros Hup. by apply Hb, H3.
    + exists (k' :: cs), ps'. rewrite H2. simpl.
      split_and!; [constructor; [by apply finishes_carries|done] |done| |done].
      by rewrite <- Permutation_cons_append, Hrest.
Qed.

End Busy.

(** ** The flags of the crop list *)

Section CropListFlags.
Import Async.

Variable date : Type.
Variable toISOString : date → string.

Lemma fetch_attended (w : world (CropList.State date) CropList.Call CropList.Answer) :
  attended CropList.isSubmitting (λ _, True) w →
  attended CropList.loadingCrops (λ _, True) w →
  attended CropList.isSubmitting (λ _, True) (run (CropList.fetchCrops date) w)
  ∧ attended CropList.loadingCrops (λ _, True) (run (CropList.fetchCrops date) w).
Proof.
  intros Hs Hl. destruct (fetch_parks date w) as (k & -> & Hk). split.
  - eapply (attended_bystander _ _ w); [done|done|done|cbn; reflexivity|].
    intros o x _. rewrite Hk. split; [done|]. left. by destruct o.
  - eapply (attended_carrier _ _ w); [done|done|cbn; reflexivity|].
    apply finishes_carries. intros o x _. rewrite Hk. by destruct o.
Qed.

Lemma croplist_step_attended e
    (w : world (CropList.State date) CropList.Call CropList.Answer) :
  attended CropList.isSubmitting (λ _, True) w →
  attended CropList.loadingCrops (λ _, True) w →
  attended CropList.isSubmitting (λ _, True) (CropList.step date toISOString e w)
  ∧ attended CropList.loadingCrops (λ _, True) (CropList.step date toISOString e w).
Proof.
  intros Hs Hl. destruct e as [| | |values| |i o]; unfold CropList.step.
  - by apply fetch_attended.
  - split; [by apply (attended_same _ _ w) | by apply (attended_same _ _ w)].
  - split; [by apply (attended_same _ _ w) | by apply (attended_same _ _ w)].
  - destruct (CropList.isAddingCrop (ui w)); [|done].
    split; [by apply (attended_same _ _ w) | by apply (attended_same _ _ w)].
  - destruct (CropList.isAddingCrop (ui w)) eqn:Ha; [|done].
    destruct (CropList.isSubmitting (ui w)) eqn:Hsub; [done|]. cbn [andb negb].
    destruct (CropList.addCropFormErrors (CropList.addCropForm (ui w)))
      as [|err errs] eqn:He.
    + destruct (CropList.sowingDate (CropList.addCropForm (ui w))) as [day|] eqn:Hd.
      2:{ apply addCropFormErrors_nil in He as (_ & _ & _ & [day Hday]). congruence. }
      destruct (add_parks date toISOString w day (conj Ha Hsub) He Hd)
        as (k & Hrun & Hrej & Hnull & Hok).
      unfold CropList.step in Hrun. rewrite Ha, Hsub in Hrun. cbn [andb negb] in Hrun.
      rewrite Hrun.
      assert (∀ answer, CropList.newCropId answer = None ∨ CropList.newCropId answer = Some ""
                        ∨ ∃ newId, CropList.newCropId answer = Some newId
                                   ∧ Js.truthy newId = true) as Hcases.
      { intros answer. destruct (CropList.newCropId answer) as [[|c s]|]; eauto. }
      split.
      * eapply (attended_carrier _ _ w); [done|done|cbn; reflexivity|].
        intros [answer|e] x _; (split; [done|]); [|left; by rewrite Hrej].
        destruct (Hcases answer) as [Hn|[Hn|(newId & Hn & Ht)]];
          [left; rewrite Hnull by eauto; done | left; rewrite Hnull by eauto; done |].
        destruct (Hok answer newId x Hn Ht) as (k' & -> & Hk').
        right. exists k'. split; [done|]. intros o y _. rewrite Hk'. by destruct o.
      * eapply (attended_bystander _ _ w); [done|done|done|cbn; reflexivity|].
        intros [answer|e] x _; (split; [done|]); [|left; by rewrite Hrej].
        destruct (Hcases answer) as [Hn|[Hn|(newId & Hn & Ht)]];
          [left; rewrite Hnull by eauto; done | left; rewrite Hnull by eauto; done |].
        destruct (Hok answer newId x Hn Ht) as (k' & -> & Hk').
        right. exists k'. split; [done|]. intros o y _. rewrite Hk'. by destruct o.
    + unfold CropList.submitAddCrop. rewrite He. cbn.
      split; [by apply (attended_same _ _ w) | by apply (attended_same _ _ w)].
  - split; by apply resolve_attended.
Qed.

Lemma croplist_steps_attended es
    (w : world (CropList.State date) CropList.Call CropList.Answer) :
  attended CropList.isSubmitting (λ _, True) w →
  attended CropList.loadingCrops (λ _, True) w →
  attended CropList.isSubmitting (λ _, True) (CropList.steps date toISOString es w)
  ∧ attended CropList.loadingCrops (λ _, True) (CropList.steps date toISOString es w).
Proof.
  revert w. induction es as [|e es IH]; intros w Hs Hl; [done|].
  destruct (croplist_step_attended e w Hs Hl). by apply IH.
Qed.

End CropListFlags.

(** ** The loading flag of the chat *)

Section ChatFlag.
Import Async ConversationalAgent.

Variable t : string → string.
Variable currentLanguageName : string.

#[local] Abbreviation attentive := (attended loading wired).

Lemma registered_set_playing b au : registered au → registered (set_playing b au).
Proof. by intros (H1 & H2 & H3). Qed.

Lemma pause_flag a w :
  wired w →
  wired (pause a w) ∧ pending (pause a w) = pending w
  ∧ loading (ui (pause a w)) = loading (ui w).
Proof.
  intros Hw. unfold pause. destruct (audios w !! a) as [au|] eqn:Ha; [|done].
  destruct (playing au); [|done].
  pose proof (Forall_lookup_1 _ _ _ _ Hw Ha) as (_ & Hpause & _).
  split_and!; [|done|by simpl; rewrite Hpause].
  apply Forall_alter; [done|]. intros x _. apply registered_set_playing.
Qed.

Lemma ended_flag a w :
  wired w →
  wired (ended a w) ∧ pending (ended a w) = pending w
  ∧ loading (ui (ended a w)) = loading (ui w).
Proof.
  intros Hw. unfold ended. destruct (audios w !! a) as [au|] eqn:Ha; [|done].
  destruct (playing au); [|done].
  pose proof (Forall_lookup_1 _ _ _ _ Hw Ha) as (_ & _ & Hend).
  split_and!; [|done|by simpl; rewrite Hend].
  apply Forall_alter; [done|]. intros x _. apply registered_set_playing.
Qed.

Lemma stop_flag r (q : unit → handler unit) w :
  wired w →
  ∃ w', run (stopCurrentAudio r ≫= q) w = run (q tt) w'
        ∧ wired w' ∧ pending w' = pending w ∧ loading (ui w') = loading (ui w).
Proof.
  intros Hw. unfold stopCurrentAudio. destruct (currentAudio r) as [a|].
  - eexists. split; [cbn -[pause]; reflexivity|].
    destruct (pause_flag a w Hw) as (H1 & H2 & H3). by split_and!.
  - by exists w.
Qed.

(** [speak] with [autoPlay] after its stop. *)
Definition speech (text : string) : handler unit :=
  if negb (Js.truthy (Js.trim text)) then Ret tt else
  try_catch
    (audioDataUri ← await (TextToSpeech text);
     if Js.truthy audioDataUri then
       NewAudio audioDataUri (λ audio,
         setCurrentAudio (Some audio) ;;
         SetHandlers audio (upd_isPlaying true) (upd_isPlaying false)
           (λ s, upd_currentAudio None (upd_isPlaying false s))
           (Play audio (Ret tt)))
     else Ret tt)
    (λ error,
       console_error "TTS error:" error ;;
       toast "destructive" "Text-to-Speech Failed"
             "Could not generate audio for the response.").

Lemma speak_speech r text : speak r text true = (stopCurrentAudio r ≫= λ _, speech text).
Proof. reflexivity. Qed.

(** Called by a click, the parked rest of [speak] leaves the loading flag
    alone. *)
Lemma click_speech_flag text x :
  wired x →
  wired (run (speech text) x)
  ∧ loading (ui (run (speech text) x)) = loading (ui x)
  ∧ (pending (run (speech text) x) = pending x
     ∨ ∃ k, pending (run (speech text) x) = pending x ++ [k] ∧ bystander loading wired k).
Proof.
  intros Hw. unfold speech. destruct (negb _); [by split_and!; [..|left]|].
  cbn. split_and!; [done|done|]. right. eexists. split; [reflexivity|].
  intros [uri|e] y Hy.
  - destruct (Js.truthy uri) eqn:Hu.
    + cbn -[run]. rewrite Hu. cbn -[run]. rewrite clip_starts. cbn.
      split; [by apply (wired_snoc y)|]. by left.
    + cbn. rewrite Hu. cbn. split; [done|]. by left.
  - cbn. split; [done|]. by left.
Qed.

(** Called as the last step of a submission, inside its [try] and before
    its [finally], the parked rest of [speak] lowers the flag. *)
Lemma submit_speech_flag text (h : exn → handler unit) x :
  wired x →
  wired (run (try_finally (try_catch (speech text) h) (setLoading false)) x)
  ∧ ((pending (run (try_finally (try_catch (speech text) h) (setLoading false)) x)
        = pending x
      ∧ loading (ui (run (try_finally (try_catch (speech text) h) (setLoading false)) x))
        = false)
     ∨ ∃ k, pending (run (try_finally (try_catch (speech text) h) (setLoading false)) x)
              = pending x ++ [k]
            ∧ finishes loading wired k).
Proof.
  intros Hw. unfold speech. destruct (negb _); [cbn; split; [done|]; by left|].
  cbn. split; [done|]. right. eexists. split; [reflexivity|].
  intros [uri|e] y Hy.
  - destruct (Js.truthy uri) eqn:Hu.
    + cbn -[run]. rewrite Hu. cbn -[run]. rewrite clip_starts. cbn.
      split; [by apply (wired_snoc y)|]. done.
    + cbn. rewrite Hu. cbn. done.
  - cbn. done.
Qed.

(** The rest of a submission, parked at the chat call. *)
Lemma submission_carries r :
  carries loading wired
    (λ o, try_finally
            (try_catch
               (bind (match o with Resolved x => Ret x | Rejected e => Throw e end)
                  (λ response,
                     setMessages (λ prev, prev ++ [{| role := "model"; content := response |}]) ;;
                     speak r response true))
               (λ error,
                  console_error "Conversational agent error:" error ;;
                  toast "destructive" "Error" (t "An unexpected error occurred.") ;;
                  setMessages
                    (λ prev, prev ++
                       [{| role := "model";
                           content := "Sorry, I encountered an error. Please try again." |}])))
            (setLoading false)).
Proof.
  intros [response|e] x Hw.
  - cbn -[speak run]. rewrite speak_speech.
    match goal with |- context [try_finally (try_catch (stopCurrentAudio r ≫= ?g) ?h) ?f] =>
      rewrite (stop_inside r g h f)
    end.
    cbn -[stopCurrentAudio mbind speech].
    match goal with |- context [run (stopCurrentAudio r ≫= ?q) ?x0] =>
      destruct (stop_flag r q x0 Hw) as (x' & -> & Hw' & Hp' & _)
    end.
    match goal with |- context [try_catch (speech response) ?h] =>
      destruct (submit_speech_flag response h x' Hw') as (H1 & [[H2 H3]|(k & H2 & H3)])
    end.
    + split; [done|]. left. by rewrite H2, Hp'.
    + split; [done|]. right. exists k. by rewrite H2, Hp'.
  - cbn. split; [done|]. by left.
Qed.

Lemma submit_attended w :
  attentive w → attentive (run (handleSubmit t currentLanguageName (ui w)) w).
Proof.
  intros Hatt. pose proof Hatt as [Hw _]. unfold handleSubmit. destruct (_ || _); [done|].
  cbn -[stopCurrentAudio Js.slice_0_m1 speak mbind].
  match goal with |- attended _ _ ?X =>
    match X with context [stopCurrentAudio (ui w) ≫= ?f] =>
      destruct (stop_flag (ui w) f
                  (with_ui (upd_loading true) (with_ui (upd_input "")
                     (run (setMessages
                             (λ prev, prev ++ [{| role := "user"; content := input (ui w) |}]))
                        w))) Hw) as (w' & Hrun & Hw' & Hp' & _);
      assert (X = run (f tt) w') as -> by (etrans; [|exact Hrun]; reflexivity)
    end
  end.
  eapply (attended_carrier _ _ w); [done| |cbn -[speak Js.slice_0_m1]; by rewrite Hp'|].
  - done.
  - apply submission_carries.
Qed.

Lemma speak_attended text w :
  attentive w → attentive (run (speak (ui w) text true) w).
Proof.
  intros Hatt. pose proof Hatt as [Hw _]. rewrite speak_speech.
  destruct (stop_flag (ui w) (λ _, speech text) w Hw) as (w' & -> & Hw' & Hp' & Hl').
  destruct (click_speech_flag text w' Hw') as (H1 & H2 & [H3|(k & H3 & Hk)]).
  - apply (attended_same _ _ w); [done|done|congruence|congruence].
  - apply (attended_bystander _ _ w _ k); [done|done|congruence|congruence|done].
Qed.

Lemma chat_step_attended e w :
  attentive w → attentive (ConversationalAgent.step t currentLanguageName e w).
Proof.
  intros Hatt. pose proof Hatt as [Hw _].
  destruct e as [text| | |i| |i o|a]; unfold ConversationalAgent.step.
  - by apply (attended_same _ _ w).
  - by apply submit_attended.
  - destruct (send_disabled (ui w)); [done|]. by apply submit_attended.
  - destruct (messages (ui w) !! i) as [m|]; [|done].
    destruct (String.eqb _ _); [|done]. by apply speak_attended.
  - destruct (isPlaying (ui w)); [|done]. rewrite stop_bind.
    destruct (stop_flag (ui w) (λ _, Ret tt) w Hw) as (w' & -> & Hw' & Hp' & Hl').
    apply (attended_same _ _ w); [done|done|simpl; congruence|done].
  - by apply resolve_attended.
  - destruct (ended_flag a w Hw) as (H1 & H2 & H3).
    apply (attended_same _ _ w); [done|done|congruence|done].
Qed.

Lemma chat_steps_attended es w :
  attentive w → attentive (ConversationalAgent.steps t currentLanguageName es w).
Proof.
  revert w. induction es as [|e es IH]; intros w Hw; [done|].
  by apply IH, chat_step_attended.
Qed.

End ChatFlag.

(** ** No flag is left up *)

Section FlagsEnd.
Import Async.

Variable t : string → string.
Variable currentLanguageName : string.
Variable valid : gmap string json → bool.
Variable date : Type.
Variable toISOString : date → string.

(** X19: on every page of the chat reached from the start, once every awaited
    call has settled the chat is not loading: whatever the calls answer and
    in whatever order, the send button is not left disabled by a submission
    that has ended. *)
Theorem chat_loading_ends (es : list ConversationalAgent.event) :
  pending (ConversationalAgent.steps t currentLanguageName es ConversationalAgent.start) = [] →
  ConversationalAgent.loading
    (ui (ConversationalAgent.steps t currentLanguageName es ConversationalAgent.start))
  = false.
Proof.
  apply (attended_idle ConversationalAgent.loading wired).
  apply chat_steps_attended. split; [constructor|]. exists [], []. by split_and!.
Qed.

(** X20: on every page of the crop agent reached from the start at most one
    of its calls is awaited, and the page is loading exactly while one is:
    the three buttons are disabled for the time of a call and no longer. *)
Theorem agent_loads_while_awaiting (es : list CurrentCropAgent.event) :
  (length (pending (foldl (λ w e, CurrentCropAgent.step currentLanguageName e w)
                      CurrentCropAgent.start es)) ≤ 1)%nat
  ∧ (CurrentCropAgent.loadingResponse
       (ui (foldl (λ w e, CurrentCropAgent.step currentLanguageName e w)
              CurrentCropAgent.start es)) = true
     ↔ pending (foldl (λ w e, CurrentCropAgent.step currentLanguageName e w)
                  CurrentCropAgent.start es) ≠ []).
Proof.
  pose proof (steps_inv currentLanguageName es CurrentCropAgent.start start_inv) as Hinv.
  unfold inv in Hinv.
  destruct (pending _) as [|k [|k' ps]]; [| |done].
  - destruct Hinv as [Hl _]. split; [simpl; lia|]. rewrite Hl. by split.
  - destruct Hinv as [Hl _]. split; [simpl; lia|]. rewrite Hl. by split.
Qed.

(** The market card between events: nothing is parked and nothing is
    loading, or the one submission is parked and the card is loading. *)
Definition market_inv
    (w : world MarketAnalysisTool.State MarketAnalysisTool.Call json) : Prop :=
  match pending w with
  | [] => MarketAnalysisTool.loading (ui w) = false
  | [k] => MarketAnalysisTool.loading (ui w) = true
           ∧ ∀ o x, pending (run (k o) x) = pending x
                    ∧ MarketAnalysisTool.loading (ui (run (k o) x)) = false
  | _ => False
  end.

Lemma market_step_inv e w :
  market_inv w → market_inv (MarketAnalysisTool.step currentLanguageName valid e w).
Proof.
  intros Hw. pose proof Hw as Hinv. unfold market_inv in Hinv.
  destruct e as [values|i o]; unfold MarketAnalysisTool.step.
  - destruct (MarketAnalysisTool.loading (ui w)) eqn:Hl; [done|].
    destruct (valid values); [|done].
    destruct (pending w) as [|k [|k' ps]] eqn:Hp; [|by destruct Hinv|done].
    unfold market_inv. cbn. rewrite Hp. cbn. split; [done|]. by intros [r|e] x.
  - unfold resolve. destruct (pending w) as [|k [|k' ps]] eqn:Hp; [done| |done].
    destruct i as [|i]; [|done].
    cbn. destruct Hinv as [_ Hk]. destruct (Hk o (with_pending (delete 0) w)) as [H1 H2].
    unfold market_inv. rewrite H1. cbn. by rewrite Hp.
Qed.

(** X21: on every page of the market card reached from its first render at
    most one analysis is awaited, and the card is loading exactly while one
    is. *)
Theorem market_loads_while_awaiting (es : list MarketAnalysisTool.event) :
  (length (pending (foldl (λ w e, MarketAnalysisTool.step currentLanguageName valid e w)
                      (World MarketAnalysisTool.initial [] [] []) es)) ≤ 1)%nat
  ∧ (MarketAnalysisTool.loading
       (ui (foldl (λ w e, MarketAnalysisTool.step currentLanguageName valid e w)
              (World MarketAnalysisTool.initial [] [] []) es)) = true
     ↔ pending (foldl (λ w e, MarketAnalysisTool.step currentLanguageName valid e w)
                  (World MarketAnalysisTool.initial [] [] []) es) ≠ []).
Proof.
  assert (∀ w, market_inv w →
               market_inv (foldl (λ w e, MarketAnalysisTool.step currentLanguageName valid e w)
                             w es)) as Hsteps.
  { induction es as [|e es' IH]; intros w Hw; [done|]. by apply IH, market_step_inv. }
  pose proof (Hsteps (World MarketAnalysisTool.initial [] [] []) eq_refl) as Hinv.
  unfold market_inv in Hinv.
  destruct (pending _) as [|k [|k' ps]]; [| |done].
  - split; [simpl; lia|]. rewrite Hinv. by split.
  - destruct Hinv as [Hl _]. split; [simpl; lia|]. rewrite Hl. by split.
Qed.

(** X22: after the mount of the crop list, once every awaited call has
    settled, the list is not loading and the add-crop form is not
    submitting, whatever was fetched, added or refused in between and in
    whatever order the calls settled. *)
Theorem crop_list_flags_end (es : list (CropList.event date)) :
  pending (CropList.steps date toISOString (CropList.Mount date :: es) (CropList.start date))
    = [] →
  CropList.loadingCrops
    (ui (CropList.steps date toISOString (CropList.Mount date :: es) (CropList.start date)))
    = false
  ∧ CropList.isSubmitting
      (ui (CropList.steps date toISOString (CropList.Mount date :: es) (CropList.start date)))
    = false.
Proof.
  intros Hnil.
  assert (attended CropList.isSubmitting (λ _, True) (CropList.start date)) as Hs.
  { split; [done|]. exists [], []. by split_and!. }
  assert (attended CropList.isSubmitting (λ _, True)
            (CropList.step date toISOString (CropList.Mount date) (CropList.start date))
          ∧ attended CropList.loadingCrops (λ _, True)
              (CropList.step date toISOString (CropList.Mount date) (CropList.start date)))
    as [Hs1 Hl1].
  { unfold CropList.step.
    destruct (fetch_parks date (CropList.start date)) as (k & -> & Hk). split.
    - eapply (attended_bystander _ _ (CropList.start date)); [done|done|done|cbn; reflexivity|].
      intros o x _. rewrite Hk. split; [done|]. left. by destruct o.
    - split; [done|]. exists [k], []. split_and!; [|done|done|done].
      constructor; [|done]. apply finishes_carries. intros o x _. rewrite Hk. by destruct o. }
  destruct (croplist_steps_attended date toISOString es _ Hs1 Hl1) as [Hs2 Hl2].
  split.
  - by apply (attended_idle _ _ _ Hl2).
  - by apply (attended_idle _ _ _ Hs2).
Qed.

End FlagsEnd.

(** The two theorems at a question that is read out twice, and at a crop
    that is added while the first fetch is awaited. *)
Section FlagWitnesses.
Import Async.

Lemma chat_loading_ends_witness :
  pending (ConversationalAgent.steps id "English" read_out_twice ConversationalAgent.start) = []
  ∧ ConversationalAgent.loading
      (ui (ConversationalAgent.steps id "English" read_out_twice ConversationalAgent.start))
    = false.
Proof.
  assert (pending (ConversationalAgent.steps id "English" read_out_twice
                     ConversationalAgent.start) = []) as Hnil by reflexivity.
  split; [exact Hnil|]. exact (chat_loading_ends id "English" read_out_twice Hnil).
Defined.

Definition crop_added_early : list (CropList.event nat) :=
  [CropList.OpenAddCrop nat; CropList.EditAddCrop nat tomato_form; CropList.SubmitAddCrop nat;
   CropList.Settle nat 1
     (Resolved {| CropList.newCropId := Some "crop-1"; CropList.allCrops := [] |});
   CropList.Settle nat 0 (Rejected (RemoteError "offline"));
   CropList.Settle nat 0
     (Resolved {| CropList.newCropId := None; CropList.allCrops := [tomato_crop] |})].

Lemma crop_list_flags_end_witness :
  pending (CropList.steps nat june (CropList.Mount nat :: crop_added_early) (CropList.start nat))
    = []
  ∧ CropList.loadingCrops
      (ui (CropList.steps nat june (CropList.Mount nat :: crop_added_early)
             (CropList.start nat)))
    = false
  ∧ CropList.isSubmitting
      (ui (CropList.steps nat june (CropList.Mount nat :: crop_added_early)
             (CropList.start nat)))
    = false.
Proof.
  assert (pending (CropList.steps nat june (CropList.Mount nat :: crop_added_early)
                     (CropList.start nat)) = []) as Hnil by reflexivity.
  split; [exact Hnil|]. exact (crop_list_flags_end nat june crop_added_early Hnil).
Defined.

End FlagWitnesses.

(** ** Only checked requests are sent *)

Section Checked.
Import Async.

Variable t : string → string.
Variable currentLanguageName : string.
Variable date : Type.
Variable toISOString : date → string.

#[local] Abbreviation anything := (λ _ : exn, True).

Lemma run_steps_contained {S C R E} (P : effect C → Prop)
    (step : E → world S C R → world S C R) es w :
  (∀ e w, contained P w → contained P (step e w)) →
  contained P w → contained P (foldl (λ w e, step e w) w es).
Proof.
  intros Hstep. revert w. induction es as [|e es IH]; intros w Hw; simpl; [done|].
  by apply IH, Hstep.
Qed.

Lemma sent_checked {S C R} (P : effect C → Prop) (w : world S C R) c :
  contained P w → Remote c ∈ trace w → P (Remote c).
Proof. intros [_ Ht] Hin. rewrite Forall_forall in Ht. by apply Ht. Qed.

(** *** The chat *)

(** A question that is not blank, in the language of the page; a text to
    read out that is not blank. *)
Definition chat_checked (e : effect ConversationalAgent.Call) : Prop :=
  match e with
  | Remote (ConversationalAgent.StartChat query language _) =>
      Js.truthy (Js.trim query) = true ∧ language = currentLanguageName
  | Remote (ConversationalAgent.TextToSpeech text) => Js.truthy (Js.trim text) = true
  | _ => True
  end.

Lemma checked_stopCurrentAudio r :
  emits chat_checked anything (ConversationalAgent.stopCurrentAudio r).
Proof.
  unfold ConversationalAgent.stopCurrentAudio. by destruct (ConversationalAgent.currentAudio r).
Qed.

Lemma checked_speak r text autoPlay :
  emits chat_checked anything (ConversationalAgent.speak r text autoPlay).
Proof.
  unfold ConversationalAgent.speak. apply emits_bind; [apply checked_stopCurrentAudio|].
  intros _. destruct (negb _) eqn:Hblank; [done|]. apply negb_false_iff in Hblank.
  apply emits_try_catch; [|done].
  split; [done|]. intros [uri|e]; cbn; [|done].
  destruct (Js.truthy uri); cbn; [|done]. intros a. by destruct autoPlay.
Qed.

Lemma checked_handleSubmit r :
  emits chat_checked anything (ConversationalAgent.handleSubmit t currentLanguageName r).
Proof.
  unfold ConversationalAgent.handleSubmit. destruct (_ || _) eqn:Hguard; [done|].
  apply orb_false_iff in Hguard as [Hblank%negb_false_iff _].
  do 3 (apply emits_bind; [done|]; intros _).
  apply emits_bind; [apply checked_stopCurrentAudio|]. intros _.
  apply emits_try_finally; [|done]. apply emits_try_catch; [|done].
  apply emits_bind; [by apply emits_await|]. intros response.
  apply emits_bind; [done|]. intros _. apply checked_speak.
Qed.

Lemma chat_step_checked e w :
  contained chat_checked w →
  contained chat_checked (ConversationalAgent.step t currentLanguageName e w).
Proof.
  intros Hw. destruct e as [text| | |i| |i o|a]; unfold ConversationalAgent.step.
  - by apply run_contained.
  - apply run_contained; [|done]. apply checked_handleSubmit.
  - destruct (ConversationalAgent.send_disabled (ui w)); [done|].
    apply run_contained; [|done]. apply checked_handleSubmit.
  - destruct (ConversationalAgent.messages (ui w) !! i) as [m|]; [|done].
    destruct (String.eqb _ _); [|done].
    apply run_contained; [|done]. apply checked_speak.
  - destruct (ConversationalAgent.isPlaying (ui w)); [|done].
    apply run_contained; [|done]. apply checked_stopCurrentAudio.
  - by apply resolve_contained.
  - apply (contained_same chat_checked w); [apply pending_ended | apply trace_ended | done].
Qed.

(** X23: on no run of the chat is a blank question sent to the agent or a
    blank text sent to be read out, and every question goes out in the
    language of the page. *)
Theorem chat_sends_nothing_blank (es : list ConversationalAgent.event)
    (c : ConversationalAgent.Call) :
  Remote c ∈ trace (ConversationalAgent.steps t currentLanguageName es
                      ConversationalAgent.start) →
  match c with
  | ConversationalAgent.StartChat query language _ =>
      Js.truthy (Js.trim query) = true ∧ language = currentLanguageName
  | ConversationalAgent.TextToSpeech text => Js.truthy (Js.trim text) = true
  end.
Proof.
  intros Hin.
  apply (sent_checked chat_checked
           (ConversationalAgent.steps t currentLanguageName es ConversationalAgent.start) c);
    [|done].
  apply (run_steps_contained chat_checked (ConversationalAgent.step t currentLanguageName));
    [apply chat_step_checked | split; constructor].
Qed.

(** *** The crop agent *)

(** A question of five characters or more after trimming; the analysis
    request that the component words itself; a yield that was entered; each
    in the language of the page. *)
Definition agent_checked (e : effect CurrentCropAgent.Call) : Prop :=
  match e with
  | Remote (CurrentCropAgent.AskCurrentCropAgent query _ language) =>
      (5 ≤ String.length (Js.trim query))%nat ∧ language = currentLanguageName
  | Remote (CurrentCropAgent.MarketAnalysis commodity location query language) =>
      query = "Provide a market analysis for " +:+ commodity +:+ " in " +:+ location
      ∧ language = currentLanguageName
  | Remote (CurrentCropAgent.GetPostHarvestAdvice _ yield language) =>
      yield ≠ "" ∧ language = currentLanguageName
  | _ => True
  end.

Lemma checked_crop_action r a :
  emits agent_checked anything
    match a with
    | CurrentCropAgent.ClickAskAgent => CurrentCropAgent.onQuerySubmit currentLanguageName r
    | CurrentCropAgent.ClickMarketAnalysis =>
        CurrentCropAgent.handleMarketAnalysis currentLanguageName r
    | CurrentCropAgent.PostHarvestHelp yield =>
        CurrentCropAgent.submitYield currentLanguageName r yield
    | _ => Ret tt
    end.
Proof.
  destruct a; try done.
  - unfold CurrentCropAgent.onQuerySubmit, CurrentCropAgent.getSelectedCrop.
    destruct (find _ _); [|done]. cbn. destruct (_ || _) eqn:Hguard; [done|].
    apply orb_false_iff in Hguard as [_ Hlen%Nat.leb_gt].
    cbn. split; [done|]. by intros [r'|e].
  - unfold CurrentCropAgent.handleMarketAnalysis, CurrentCropAgent.getSelectedCrop.
    destruct (find _ _); [|done]. cbn. split; [done|]. by intros [r'|e].
  - destruct yield as [|c yield]; [by rewrite submitYield_empty|].
    rewrite submitYield_entered.
    unfold CurrentCropAgent.handlePostHarvestHelp, CurrentCropAgent.getSelectedCrop.
    destruct (find _ _); [|done]. cbn. split; [done|]. by intros [r'|e].
Qed.

Lemma crop_step_checked e w :
  contained agent_checked w →
  contained agent_checked (CurrentCropAgent.step currentLanguageName e w).
Proof.
  intros Hw. destruct e as [fetched|i|text| | |y|i o]; unfold CurrentCropAgent.step;
    try done.
  - by destruct (CurrentCropAgent.crops (ui w) !! i).
  - destruct (CurrentCropAgent.controls_disabled (ui w)); [done|].
    apply run_contained; [|done].
    apply (checked_crop_action _ CurrentCropAgent.ClickAskAgent).
  - destruct (CurrentCropAgent.controls_disabled (ui w)); [done|].
    apply run_contained; [|done].
    apply (checked_crop_action _ CurrentCropAgent.ClickMarketAnalysis).
  - destruct (CurrentCropAgent.controls_disabled (ui w)); [done|].
    apply run_contained; [|done].
    apply (checked_crop_action _ (CurrentCropAgent.PostHarvestHelp y)).
  - by apply resolve_contained.
Qed.

(** X24: on no run of the crop agent is a question of fewer than five
    characters (after trimming) or an empty yield sent; the market request
    is the sentence that the component words from the crop's name and
    location; and every call goes out in the language of the page. *)
Theorem agent_sends_checked_requests (es : list CurrentCropAgent.event)
    (c : CurrentCropAgent.Call) :
  Remote c ∈ trace (foldl (λ w e, CurrentCropAgent.step currentLanguageName e w)
                      CurrentCropAgent.start es) →
  match c with
  | CurrentCropAgent.AskCurrentCropAgent query _ language =>
      (5 ≤ String.length (Js.trim query))%nat ∧ language = currentLanguageName
  | CurrentCropAgent.MarketAnalysis commodity location query language =>
      query = "Provide a market analysis for " +:+ commodity +:+ " in " +:+ location
      ∧ language = currentLanguageName
  | CurrentCropAgent.GetPostHarvestAdvice _ yield language =>
      yield ≠ "" ∧ language = currentLanguageName
  end.
Proof.
  intros Hin.
  apply (sent_checked agent_checked
           (foldl (λ w e, CurrentCropAgent.step currentLanguageName e w)
              CurrentCropAgent.start es) c); [|done].
  apply (run_steps_contained agent_checked (CurrentCropAgent.step currentLanguageName));
    [apply crop_step_checked | split; constructor].
Qed.

(** *** The add-crop form *)

(** A crop whose name and location have two characters or more, whose field
    size is not empty, and whose sowing date is the ISO form of a day. *)
Definition crop_checked (e : effect CropList.Call) : Prop :=
  match e with
  | Remote (CropList.AddCurrentCrop crop) =>
      (2 ≤ String.length (CropList.newCropName crop))%nat
      ∧ (1 ≤ String.length (CropList.newFieldSize crop))%nat
      ∧ (2 ≤ String.length (CropList.newLocation crop))%nat
      ∧ ∃ day, CropList.newSowingDate crop = toISOString day
  | _ => True
  end.

Lemma checked_fetchCrops : emits crop_checked anything (CropList.fetchCrops date).
Proof. cbn. split; [done|]. intros [r|e]; cbn; [|done]. by destruct (CropList.allCrops r). Qed.

Lemma checked_submitAddCrop r :
  emits crop_checked anything (CropList.submitAddCrop date toISOString r).
Proof.
  unfold CropList.submitAddCrop. apply emits_bind; [done|]. intros _.
  apply emits_try_finally; [|done].
  destruct (CropList.addCropFormErrors _) as [|err errs] eqn:He; [|done].
  destruct (CropList.sowingDate _) as [day|]; [|done].
  apply addCropFormErrors_nil in He as (H1 & H2 & H3 & _).
  apply emits_bind; [done|]. intros _.
  unfold CropList.onAddCropSubmit. apply emits_try_catch; [|done].
  apply emits_bind; [apply emits_await; cbn; eauto|]. intros answer.
  destruct (CropList.newCropId answer) as [newId|]; [|done].
  destruct (Js.truthy newId); [|done].
  do 3 (apply emits_bind; [done|]; intros _).
  apply checked_fetchCrops.
Qed.

Lemma croplist_step_checked e w :
  contained crop_checked w → contained crop_checked (CropList.step date toISOString e w).
Proof.
  intros Hw. destruct e as [| | |values| |i o]; unfold CropList.step; try done.
  - apply run_contained; [|done]. apply checked_fetchCrops.
  - by destruct (CropList.isAddingCrop (ui w)).
  - destruct (_ && _); [|done].
    apply run_contained; [|done]. apply checked_submitAddCrop.
  - by apply resolve_contained.
Qed.

(** X25: on no run of the crop list does a crop reach [addCurrentCrop] that
    the form's schema would refuse: its name and location have two
    characters or more, its field size is not empty, and its sowing date is
    the ISO form of a day that was picked. *)
Theorem only_valid_crops_are_added (es : list (CropList.event date)) (crop : CropList.NewCrop) :
  Remote (CropList.AddCurrentCrop crop)
    ∈ trace (CropList.steps date toISOString es (CropList.start date)) →
  (2 ≤ String.length (CropList.newCropName crop))%nat
  ∧ (1 ≤ String.length (CropList.newFieldSize crop))%nat
  ∧ (2 ≤ String.length (CropList.newLocation crop))%nat
  ∧ ∃ day, CropList.newSowingDate crop = toISOString day.
Proof.
  intros Hin.
  apply (sent_checked crop_checked
           (CropList.steps date toISOString es (CropList.start date))
           (CropList.AddCurrentCrop crop)); [|done].
  apply (run_steps_contained crop_checked (CropList.step date toISOString));
    [apply croplist_step_checked | split; constructor].
Qed.

End Checked.

(** The three theorems at the question that is read out, at post-harvest
    help for the tomato crop, and at the tomato form. *)
Section CheckedWitnesses.
Import Async.

Lemma chat_sends_nothing_blank_witness :
  Remote (ConversationalAgent.TextToSpeech "Hello")
    ∈ trace (ConversationalAgent.steps id "English" read_out_twice ConversationalAgent.start)
  ∧ Js.truthy (Js.trim "Hello") = true.
Proof.
  assert (Remote (ConversationalAgent.TextToSpeech "Hello")
            ∈ trace (ConversationalAgent.steps id "English" read_out_twice
                       ConversationalAgent.start)) as Hin.
  { vm_compute. repeat constructor. }
  split; [exact Hin|].
  exact (chat_sends_nothing_blank id "English" read_out_twice
           (ConversationalAgent.TextToSpeech "Hello") Hin).
Defined.

Definition help_asked : list CurrentCropAgent.event :=
  [CurrentCropAgent.CropsFetched [tomato_crop]; CurrentCropAgent.PostHarvestHelp "10 tonnes"].

Lemma agent_sends_checked_requests_witness :
  Remote (CurrentCropAgent.GetPostHarvestAdvice tomato_crop "10 tonnes" "English")
    ∈ trace (foldl (λ w e, CurrentCropAgent.step "English" e w) CurrentCropAgent.start
               help_asked)
  ∧ "10 tonnes" ≠ "" ∧ "English" = "English".
Proof.
  assert (Remote (CurrentCropAgent.GetPostHarvestAdvice tomato_crop "10 tonnes" "English")
            ∈ trace (foldl (λ w e, CurrentCropAgent.step "English" e w)
                       CurrentCropAgent.start help_asked)) as Hin.
  { vm_compute. repeat constructor. }
  split; [exact Hin|].
  exact (agent_sends_checked_requests "English" help_asked
           (CurrentCropAgent.GetPostHarvestAdvice tomato_crop "10 tonnes" "English") Hin).
Defined.

Definition tomato_new_crop : CropList.NewCrop :=
  {| CropList.newCropName := "Tomato"; CropList.newFieldSize := "2 acres";
     CropList.newLocation := "Pune";
     CropList.newSowingDate := "2024-06-01T00:00:00.000Z";
     CropList.newAdditionalInfo := "" |}.

Lemma only_valid_crops_are_added_witness :
  Remote (CropList.AddCurrentCrop tomato_new_crop)
    ∈ trace (CropList.steps nat june
               [CropList.OpenAddCrop nat; CropList.EditAddCrop nat tomato_form;
                CropList.SubmitAddCrop nat]
               (CropList.start nat))
  ∧ (2 ≤ String.length "Tomato")%nat
  ∧ (1 ≤ String.length "2 acres")%nat
  ∧ (2 ≤ String.length "Pune")%nat
  ∧ ∃ day, "2024-06-01T00:00:00.000Z" = june day.
Proof.
  assert (Remote (CropList.AddCurrentCrop tomato_new_crop)
            ∈ trace (CropList.steps nat june
                       [CropList.OpenAddCrop nat; CropList.EditAddCrop nat tomato_form;
                        CropList.SubmitAddCrop nat]
                       (CropList.start nat))) as Hin.
  { vm_compute. repeat constructor. }
  split; [exact Hin|].
  exact (only_valid_crops_are_added nat june
           [CropList.OpenAddCrop nat; CropList.EditAddCrop nat tomato_form;
            CropList.SubmitAddCrop nat]
           tomato_new_crop Hin).
Defined.

End CheckedWitnesses.
